(** * accent-detector: the response normalizer of [analyzeAudio] and the
      recording controller of [App]

    A shallow embedding of
    - [src/services/geminiService.ts]: the part of [analyzeAudio] that turns
      the provider's text reply into an [AnalysisResult] (trim, fence regular
      expression, [JSON.parse], shape validation, clamping, error wrapping);
    - the [App] component: its state, its event handlers and the order in
      which the browser may run them.

    JavaScript strings are sequences of UTF-16 code units, numbers are
    binary64 values, objects produced by [JSON.parse] are finite maps in
    insertion order. *)

From Stdlib Require Import Ascii String.
From Stdlib Require Import List Bool Arith NArith ZArith Lia.
From Stdlib Require Import Floats.SpecFloat.
Import ListNotations.

(* ================================================================== *)
(** * Strings *)
(* ================================================================== *)

(** A UTF-16 code unit and a JavaScript string. *)
Definition cu := N.
Definition str := list cu.

(** ASCII literals as code units. *)
Definition u (s : string) : str :=
  List.map N_of_ascii (list_ascii_of_string s).

(** JSON source text is written with an apostrophe standing for the
    quotation mark (U+0022). *)
Definition js (s : string) : str :=
  List.map (fun c => if N.eqb c 39 then 34%N else c) (u s).

Definition LF : cu := 10%N.
Definition backtick : cu := 96%N.

Definition str_eqb (a b : str) : bool :=
  if list_eq_dec N.eq_dec a b then true else false.

(** ECMAScript [WhiteSpace] and [LineTerminator] code points: the set that
    both [String.prototype.trim] and the class escape [\s] use. *)
Definition is_space (c : cu) : bool :=
  (existsb (N.eqb c)
     [9; 10; 11; 12; 13; 32; 160; 5760; 8232; 8233; 8239; 8287; 12288; 65279]
   || ((8192 <=? c) && (c <=? 8202)))%N.

(** The class escape [\w] without the [u] and [i] flags: [A-Za-z0-9_]. *)
Definition is_word (c : cu) : bool :=
  (((65 <=? c) && (c <=? 90)) || ((97 <=? c) && (c <=? 122))
   || ((48 <=? c) && (c <=? 57)) || (c =? 95))%N.

Fixpoint dropWhile (p : cu -> bool) (s : str) : str :=
  match s with
  | c :: s' => if p c then dropWhile p s' else s
  | [] => []
  end.

Fixpoint takeWhile (p : cu -> bool) (s : str) : str :=
  match s with
  | c :: s' => if p c then c :: takeWhile p s' else []
  | [] => []
  end.

(** [String.prototype.trim]: TrimString with [start+end]. *)
Definition trimStart (s : str) : str := dropWhile is_space s.
Definition trimEnd (s : str) : str := rev (dropWhile is_space (rev s)).
Definition trim (s : str) : str := trimEnd (trimStart s).

(* ================================================================== *)
(** * Regular expressions *)
(* ================================================================== *)

(** The backtracking matcher of ECMAScript (22.2.2), for the constructs
    [fenceRegex] is built from.  A matcher takes a state and a continuation;
    a quantifier tries its alternatives in priority order and keeps the
    first one on which the continuation succeeds. *)
Module RegExp.

Inductive regex : Type :=
| Empty
| Char (p : cu -> bool)                 (* a literal, a class escape or [.] *)
| Seq (r1 r2 : regex)
| Star (greedy : bool) (p : cu -> bool) (* [p*] and [p*?] on a one-unit atom *)
| Opt (r : regex)                       (* [r?], greedy *)
| Group (n : nat) (r : regex)           (* the n-th capturing parentheses *)
| AssertStart                           (* [^] without the [m] flag *)
| AssertEnd.                            (* [$] without the [m] flag *)

Definition captures := nat -> option str.

Definition no_captures : captures := fun _ => None.

Definition set_capture (n : nat) (v : option str) (cap : captures) : captures :=
  fun j => if Nat.eqb j n then v else cap j.

(** The matcher state: [endIndex] code units consumed, [rest] still to
    read, and the captures so far. *)
Record state := State
  { endIndex : nat; rest : str; caps : captures }.

Definition Continuation := state -> option state.

Fixpoint groups (r : regex) : list nat :=
  match r with
  | Seq r1 r2 => groups r1 ++ groups r2
  | Opt r => groups r
  | Group n r => n :: groups r
  | _ => []
  end.

Definition clear (ns : list nat) (cap : captures) : captures :=
  fold_right (fun n c => set_capture n None c) cap ns.

(** RepeatMatcher for [p*] (min 0, max infinity), greedy: one more unit
    first, the continuation on the current state when that fails. *)
Fixpoint star_greedy (p : cu -> bool) (c : Continuation)
         (e : nat) (cap : captures) (s : str) : option state :=
  match s with
  | ch :: s' =>
      if p ch then
        match star_greedy p c (S e) cap s' with
        | Some z => Some z
        | None => c (State e s cap)
        end
      else c (State e s cap)
  | [] => c (State e s cap)
  end.

(** RepeatMatcher for [p*?], lazy: the continuation first, one more unit
    when it fails. *)
Fixpoint star_lazy (p : cu -> bool) (c : Continuation)
         (e : nat) (cap : captures) (s : str) : option state :=
  match c (State e s cap) with
  | Some z => Some z
  | None =>
      match s with
      | ch :: s' => if p ch then star_lazy p c (S e) cap s' else None
      | [] => None
      end
  end.

Fixpoint m (r : regex) (x : state) (c : Continuation) {struct r}
  : option state :=
  match r with
  | Empty => c x
  | Char p =>
      match rest x with
      | ch :: s' => if p ch then c (State (S (endIndex x)) s' (caps x)) else None
      | [] => None
      end
  | Seq r1 r2 => m r1 x (fun y => m r2 y c)
  | Star greedy p =>
      if greedy then star_greedy p c (endIndex x) (caps x) (rest x)
      else star_lazy p c (endIndex x) (caps x) (rest x)
  | Opt r' =>
      (* min = 0, max = 1: the captures of r' are reset, and an iteration
         that consumed nothing is rejected *)
      let xr := State (endIndex x) (rest x) (clear (groups r') (caps x)) in
      match m r' xr (fun y => if Nat.eqb (endIndex y) (endIndex x)
                              then None else c y) with
      | Some z => Some z
      | None => c x
      end
  | Group n r' =>
      m r' x (fun y =>
                c (State (endIndex y) (rest y)
                     (set_capture n
                        (Some (firstn (endIndex y - endIndex x) (rest x)))
                        (caps y))))
  | AssertStart => if Nat.eqb (endIndex x) 0 then c x else None
  | AssertEnd => match rest x with [] => c x | _ :: _ => None end
  end.

(** RegExpBuiltinExec for a regular expression that is neither global nor
    sticky: the match is tried at every index from 0 on.  The result maps
    0 to the matched text and n to the n-th capture. *)
Fixpoint exec_from (r : regex) (lastIndex : nat) (s : str)
  : option captures :=
  match m r (State lastIndex s no_captures) (fun y => Some y) with
  | Some y =>
      Some (set_capture 0 (Some (firstn (endIndex y - lastIndex) s)) (caps y))
  | None =>
      match s with
      | [] => None
      | _ :: s' => exec_from r (S lastIndex) s'
      end
  end.

Definition exec (r : regex) (s : str) : option captures := exec_from r 0 s.

Definition lit (c : cu) : regex := Char (N.eqb c).

Fixpoint seq (rs : list regex) : regex :=
  match rs with
  | [] => Empty
  | [r] => r
  | r :: rs' => Seq r (seq rs')
  end.

End RegExp.

Import RegExp.

(** * geminiService.ts: de-fencing *)

(** [fenceRegex], line 49, flag [s] (the dot matches every code unit):
    start anchor, three backticks, an optional group 1 of word characters
    (greedy star), a greedy star of white space, an optional line feed,
    group 2 (a lazy star of any code unit), an optional line feed, a greedy
    star of white space, three backticks, end anchor. *)
Definition fenceRegex : regex :=
  seq [ AssertStart;
        lit backtick; lit backtick; lit backtick;
        Opt (Group 1 (Star true is_word));
        Star true is_space;
        Opt (lit LF);
        Group 2 (Star false (fun _ => true));
        Opt (lit LF);
        Star true is_space;
        lit backtick; lit backtick; lit backtick;
        AssertEnd ].

(** [String.prototype.match] with a non-global regular expression. *)
Definition String_match (s : str) (r : regex) : option captures := exec r s.

(** Lines 48-53: [jsonStr] after the fence has been looked for.  A capture
    that is undefined or the empty string is falsy. *)
Definition defence (text : str) : str :=
  let jsonStr := trim text in
  match String_match jsonStr fenceRegex with
  | Some match_ =>
      match match_ 2 with
      | Some (c :: b) => trim (c :: b)
      | _ => jsonStr
      end
  | None => jsonStr
  end.

(** Three backticks. *)
Definition fence3 : str := [backtick; backtick; backtick].

(** The strings [fenceRegex] matches: an opening run of three backticks
    and, after it, a closing run of three backticks. *)
Definition fenced (s : str) : bool :=
  match s with
  | a :: b :: c :: r =>
      N.eqb a backtick && N.eqb b backtick && N.eqb c backtick
      && match rev r with
         | x :: y :: z :: _ =>
             N.eqb x backtick && N.eqb y backtick && N.eqb z backtick
         | _ => false
         end
  | _ => false
  end.

(** The text before the closing run once the lazy star has stopped: the
    shortest prefix after which only white space and three backticks
    remain. *)
Definition closing (v : str) : bool := str_eqb (dropWhile is_space v) fence3.

Fixpoint lazy_body (s : str) : option str :=
  if closing s then Some []
  else match s with
       | c :: s' => option_map (cons c) (lazy_body s')
       | [] => None
       end.

(** The closing run: three backticks and the end of the input. *)
Definition closeRegex : regex :=
  seq [lit backtick; lit backtick; lit backtick; AssertEnd].

(** What follows group 2. *)
Definition tailRegex : regex :=
  seq [Opt (lit LF); Star true is_space;
       lit backtick; lit backtick; lit backtick; AssertEnd].

(** Group 2 and what follows it. *)
Definition bodyRegex : regex := Seq (Group 2 (Star false (fun _ => true))) tailRegex.

(** What follows group 1. *)
Definition afterWord : regex :=
  Seq (Star true is_space) (Seq (Opt (lit LF)) bodyRegex).

(** What follows the opening run. *)
Definition midRegex : regex := Seq (Opt (Group 1 (Star true is_word))) afterWord.

(* ================================================================== *)
(** * Numbers *)
(* ================================================================== *)

(** A JavaScript number is a binary64 value: [spec_float] at precision 53
    and maximal exponent 1024, with its two zeros, its infinities and NaN. *)
Definition number := spec_float.

Definition prec : Z := 53.
Definition emax : Z := 1024.

Definition NaN : number := S754_nan.
Definition Infinity : number := S754_infinity false.
Definition of_int (z : Z) : number := binary_normalize prec emax z 0 false.

(** The literals [0] and [100]. *)
Definition zero : number := Eval vm_compute in of_int 0.
Definition hundred : number := Eval vm_compute in of_int 100.

Definition is_nan (x : number) : bool :=
  match x with S754_nan => true | _ => false end.

(** [x < y] of IsLessThan on numbers; false when either is NaN. *)
Definition lt (x y : number) : bool := SFltb x y.
Definition le (x y : number) : bool := SFleb x y.

(** Strict equality [===] on numbers. *)
Definition number_eq (x y : number) : bool := SFeqb x y.

Definition is_neg_zero (x : number) : bool :=
  match x with S754_zero true => true | _ => false end.
Definition is_pos_zero (x : number) : bool :=
  match x with S754_zero false => true | _ => false end.

(** [Math.min] (21.3.2.25): NaN if an argument is NaN; otherwise the run
    starts from +Infinity, -0 replaces +0, and a smaller number replaces the
    lowest so far. *)
Definition Math_min (args : list number) : number :=
  if existsb is_nan args then NaN
  else fold_left
         (fun lowest n =>
            if is_neg_zero n && is_pos_zero lowest then n
            else if lt n lowest then n else lowest)
         args Infinity.

(** [Math.max] (21.3.2.24), the mirror image. *)
Definition Math_max (args : list number) : number :=
  if existsb is_nan args then NaN
  else fold_left
         (fun highest n =>
            if is_pos_zero n && is_neg_zero highest then n
            else if lt highest n then n else highest)
         args (S754_infinity true).

(** A number whose value is a mathematical integer. *)
Definition is_integer (x : number) : bool :=
  match x with
  | S754_zero _ => true
  | S754_finite _ m e =>
      if (0 <=? e)%Z then true else (Z.pos m mod 2 ^ (- e) =? 0)%Z
  | _ => false
  end.

(* ================================================================== *)
(** * JSON.parse *)
(* ================================================================== *)

(** The values [JSON.parse] builds.  An object keeps its properties in
    creation order; a repeated key overwrites the earlier value in place
    (CreateDataProperty). *)
#[warnings="-register-all"]
Inductive value : Type :=
| JNull
| JBool (b : bool)
| JNumber (n : number)
| JString (s : str)
| JArray (elements : list value)
| JObject (properties : list (str * value)).

Fixpoint lookup (k : str) (ps : list (str * value)) : option value :=
  match ps with
  | [] => None
  | (k', v) :: ps' => if str_eqb k k' then Some v else lookup k ps'
  end.

Fixpoint set_prop (k : str) (v : value) (ps : list (str * value))
  : list (str * value) :=
  match ps with
  | [] => [(k, v)]
  | (k', v') :: ps' =>
      if str_eqb k k' then (k', v) :: ps' else (k', v') :: set_prop k v ps'
  end.

Module JSON.

Definition quote : cu := 34%N.
Definition backslash : cu := 92%N.

(** JSON white space: tab, line feed, carriage return, space. *)
Definition is_ws (c : cu) : bool :=
  ((c =? 9) || (c =? 10) || (c =? 13) || (c =? 32))%N.

Definition skip_ws (s : str) : str := dropWhile is_ws s.

Definition is_digit (c : cu) : bool := ((48 <=? c) && (c <=? 57))%N.

Fixpoint strip_prefix (pre s : str) : option str :=
  match pre, s with
  | [], _ => Some s
  | p :: pre', c :: s' => if N.eqb p c then strip_prefix pre' s' else None
  | _ :: _, [] => None
  end.

Definition hex_val (c : cu) : option N :=
  (if (48 <=? c) && (c <=? 57) then Some (c - 48)
   else if (97 <=? c) && (c <=? 102) then Some (c - 87)
   else if (65 <=? c) && (c <=? 70) then Some (c - 55)
   else None)%N.

Definition hex4 (a b c d : cu) : option cu :=
  match hex_val a, hex_val b, hex_val c, hex_val d with
  | Some x, Some y, Some z, Some w => Some (((x * 16 + y) * 16 + z) * 16 + w)%N
  | _, _, _, _ => None
  end.

(** The unit a single-character escape stands for. *)
Definition escape (e : cu) : option cu :=
  (if e =? 34 then Some 34          (* quotation mark *)
   else if e =? 92 then Some 92     (* reverse solidus *)
   else if e =? 47 then Some 47     (* solidus *)
   else if e =? 98 then Some 8      (* b *)
   else if e =? 102 then Some 12    (* f *)
   else if e =? 110 then Some 10    (* n *)
   else if e =? 114 then Some 13    (* r *)
   else if e =? 116 then Some 9     (* t *)
   else None)%N.

Definition prepend (c : cu) (r : option (str * str)) : option (str * str) :=
  match r with
  | Some (t, s) => Some (c :: t, s)
  | None => None
  end.

(** The characters of a string, after its opening quotation mark, up to
    and including the closing one. *)
Fixpoint parse_chars (s : str) : option (str * str) :=
  match s with
  | [] => None
  | c :: s' =>
      if N.eqb c quote then Some ([], s')
      else if N.eqb c backslash then
        match s' with
        | [] => None
        | e :: s'' =>
            if N.eqb e 117 then
              match s'' with
              | h1 :: h2 :: h3 :: h4 :: s5 =>
                  match hex4 h1 h2 h3 h4 with
                  | Some n => prepend n (parse_chars s5)
                  | None => None
                  end
              | _ => None
              end
            else
              match escape e with
              | Some x => prepend x (parse_chars s'')
              | None => None
              end
        end
      else if N.ltb c 32 then None
      else prepend c (parse_chars s')
  end.

Fixpoint digits_val (acc : Z) (ds : str) : Z :=
  match ds with
  | [] => acc
  | d :: ds' => digits_val (10 * acc + Z.of_N (d - 48)) ds'
  end.

(** The binary64 value nearest to [M * 10^E], ties to even: the Number
    value of a numeric literal. *)
Definition to_double (neg : bool) (M E : Z) : number :=
  if (M =? 0)%Z then S754_zero neg
  else if (0 <=? E)%Z then
    binary_normalize prec emax ((if neg then - M else M) * 10 ^ E) 0 neg
  else
    SFdiv prec emax (S754_finite neg (Z.to_pos M) 0)
                    (S754_finite false (Z.to_pos (10 ^ (- E))) 0).

(** A numeric literal: an optional minus sign; the integer part, a single
    zero or a non-zero digit and further digits; an optional fraction, a
    dot and at least one digit; an optional exponent, [e] or [E], an
    optional sign and at least one digit. *)
Definition parse_sign (s : str) : bool * str :=
  match s with
  | c :: r => if N.eqb c 45 then (true, r) else (false, s)
  | [] => (false, s)
  end.

Definition parse_int (s : str) : option (str * str) :=
  match s with
  | c :: r =>
      if N.eqb c 48 then Some ([c], r)
      else match takeWhile is_digit s with
           | [] => None
           | ds => Some (ds, dropWhile is_digit s)
           end
  | [] => None
  end.

Definition parse_frac (s : str) : option (str * str) :=
  match s with
  | c :: r =>
      if N.eqb c 46 then
        match takeWhile is_digit r with
        | [] => None
        | ds => Some (ds, dropWhile is_digit r)
        end
      else Some ([], s)
  | [] => Some ([], s)
  end.

Definition parse_exp (s : str) : option (Z * str) :=
  match s with
  | c :: r =>
      if N.eqb c 101 || N.eqb c 69 then
        let '(eneg, r') :=
          match r with
          | g :: r0 => if N.eqb g 45 then (true, r0)
                       else if N.eqb g 43 then (false, r0)
                       else (false, r)
          | [] => (false, r)
          end in
        match takeWhile is_digit r' with
        | [] => None
        | ds => Some ((if eneg then - digits_val 0 ds else digits_val 0 ds)%Z,
                      dropWhile is_digit r')
        end
      else Some (0%Z, s)
  | [] => Some (0%Z, s)
  end.

Definition parse_number (s : str) : option (number * str) :=
  let '(neg, s1) := parse_sign s in
  match parse_int s1 with
  | None => None
  | Some (int, s2) =>
      match parse_frac s2 with
      | None => None
      | Some (fr, s3) =>
          match parse_exp s3 with
          | None => None
          | Some (ex, s4) =>
              Some (to_double neg (digits_val 0 (int ++ fr))
                      (ex - Z.of_nat (length fr)), s4)
          end
      end
  end.

(** Recursive descent on the JSON grammar.  Every call consumes a unit
    before it recurses, so [2 * length s] bounds the depth. *)
Fixpoint parse_value (fuel : nat) (s : str) : option (value * str) :=
  match fuel with
  | O => None
  | S fuel' =>
      match skip_ws s with
      | [] => None
      | c :: s1 =>
          if N.eqb c 123 then              (* left brace *)
            match skip_ws s1 with
            | d :: s2 => if N.eqb d 125 then Some (JObject [], s2)
                         else parse_members fuel' [] (d :: s2)
            | [] => None
            end
          else if N.eqb c 91 then          (* left bracket *)
            match skip_ws s1 with
            | d :: s2 => if N.eqb d 93 then Some (JArray [], s2)
                         else parse_elements fuel' [] (d :: s2)
            | [] => None
            end
          else if N.eqb c quote then
            match parse_chars s1 with
            | Some (t, s2) => Some (JString t, s2)
            | None => None
            end
          else if N.eqb c 45 || is_digit c then
            match parse_number (c :: s1) with
            | Some (n, s2) => Some (JNumber n, s2)
            | None => None
            end
          else
            match strip_prefix (u "true") (c :: s1) with
            | Some s2 => Some (JBool true, s2)
            | None =>
                match strip_prefix (u "false") (c :: s1) with
                | Some s2 => Some (JBool false, s2)
                | None =>
                    match strip_prefix (u "null") (c :: s1) with
                    | Some s2 => Some (JNull, s2)
                    | None => None
                    end
                end
            end
      end
  end

(** The elements of an array, from the start of an element on. *)
with parse_elements (fuel : nat) (acc : list value) (s : str)
     : option (value * str) :=
  match fuel with
  | O => None
  | S fuel' =>
      match parse_value fuel' s with
      | None => None
      | Some (v, s1) =>
          match skip_ws s1 with
          | c :: s2 =>
              if N.eqb c 44 then parse_elements fuel' (acc ++ [v]) s2
              else if N.eqb c 93 then Some (JArray (acc ++ [v]), s2)
              else None
          | [] => None
          end
      end
  end

(** The members of an object, from the quotation mark of a key on. *)
with parse_members (fuel : nat) (acc : list (str * value)) (s : str)
     : option (value * str) :=
  match fuel with
  | O => None
  | S fuel' =>
      match s with
      | q :: s0 =>
          if N.eqb q quote then
            match parse_chars s0 with
            | None => None
            | Some (k, s1) =>
                match skip_ws s1 with
                | c :: s2 =>
                    if N.eqb c 58 then
                      match parse_value fuel' s2 with
                      | None => None
                      | Some (v, s3) =>
                          match skip_ws s3 with
                          | d :: s4 =>
                              if N.eqb d 44 then
                                parse_members fuel' (set_prop k v acc) (skip_ws s4)
                              else if N.eqb d 125 then
                                Some (JObject (set_prop k v acc), s4)
                              else None
                          | [] => None
                          end
                      end
                    else None
                | [] => None
                end
            end
          else None
      | [] => None
      end
  end.

(** [JSON.parse(text)]: one value, white space around it, nothing else;
    [None] stands for the SyntaxError it throws. *)
Definition parse (text : str) : option value :=
  match parse_value (2 * length text) text with
  | Some (v, s) => match skip_ws s with [] => Some v | _ :: _ => None end
  | None => None
  end.

End JSON.

(* ================================================================== *)
(** * geminiService.ts: [analyzeAudio] *)
(* ================================================================== *)

(** What a [try] block can throw. [SyntaxError] and [TypeError] are the
    built-in errors of [JSON.parse] and of a property read on [null] or
    [undefined]; their messages are the engine's.  All three are instances
    of [Error]; [NonError] is any other thrown value. *)
Inductive exn : Type :=
| SyntaxError
| TypeError
| Error (message : string)
| NonError.

(** The result of running statements that may throw.  [Unmodelled] marks
    the operations of JavaScript the embedding leaves out (ToNumber of a
    string or an object, a property written on a primitive or an array);
    [analyzeAudio] never reaches one, see [normalize_modelled]. *)
Inductive outcome (A : Type) : Type :=
| Return (a : A)
| Throw (e : exn)
| Unmodelled.

Arguments Return {A} a.
Arguments Throw {A} e.
Arguments Unmodelled {A}.

Definition bind {A B : Type} (x : outcome A) (k : A -> outcome B) : outcome B :=
  match x with
  | Return a => k a
  | Throw e => Throw e
  | Unmodelled => Unmodelled
  end.

Notation "x <- e ;; k" := (bind e (fun x => k))
  (at level 61, e at next level, right associativity).

(** A JavaScript value here is [undefined] ([None]) or a JSON value. *)
Definition jsval := option value.
Definition undefined : jsval := None.

(** [o.k] for the property names [analyzeAudio] reads: none of them is
    defined on [Object.prototype], [Array.prototype] or the wrapper of a
    primitive value, so only a JSON object can have one. *)
Definition Get (o : jsval) (k : str) : outcome jsval :=
  match o with
  | None => Throw TypeError
  | Some JNull => Throw TypeError
  | Some (JObject ps) => Return (lookup k ps)
  | Some _ => Return undefined
  end.

(** [o.k = v] on an object that [JSON.parse] built: an own data property is
    overwritten or added; [null] and [undefined] throw. *)
Definition Put (o : jsval) (k : str) (v : value) : outcome value :=
  match o with
  | None => Throw TypeError
  | Some JNull => Throw TypeError
  | Some (JObject ps) => Return (JObject (set_prop k v ps))
  | Some _ => Unmodelled
  end.

Definition ToBoolean (v : jsval) : bool :=
  match v with
  | None => false
  | Some JNull => false
  | Some (JBool b) => b
  | Some (JNumber n) =>
      match n with
      | S754_zero _ => false
      | S754_nan => false
      | _ => true
      end
  | Some (JString s) => match s with [] => false | _ => true end
  | Some (JArray _) => true
  | Some (JObject _) => true
  end.

Inductive type_name : Type :=
| t_undefined | t_object | t_boolean | t_number | t_string.

Definition typeof (v : jsval) : type_name :=
  match v with
  | None => t_undefined
  | Some JNull => t_object
  | Some (JBool _) => t_boolean
  | Some (JNumber _) => t_number
  | Some (JString _) => t_string
  | Some (JArray _) => t_object
  | Some (JObject _) => t_object
  end.

Definition type_eqb (a b : type_name) : bool :=
  match a, b with
  | t_undefined, t_undefined | t_object, t_object | t_boolean, t_boolean
  | t_number, t_number | t_string, t_string => true
  | _, _ => false
  end.

Definition ToNumber (v : jsval) : outcome number :=
  match v with
  | None => Return NaN
  | Some JNull => Return (S754_zero false)
  | Some (JBool b) => Return (if b then of_int 1 else S754_zero false)
  | Some (JNumber n) => Return n
  | Some _ => Unmodelled
  end.

(** [a || b] on conditions that may throw: [b] is evaluated only when [a]
    is false. *)
Definition orelse (a b : outcome bool) : outcome bool :=
  x <- a ;; if x then Return true else b.

Infix "|||" := orelse (at level 50, left associativity).

Definition k_language : str := u "language".
Definition k_accent : str := u "accent".
Definition k_name : str := u "name".
Definition k_confidence : str := u "confidence".

(** Lines 58-61, the condition of the [if]. *)
Definition invalid (parsedData : jsval) : outcome bool :=
      (l <- Get parsedData k_language ;; Return (negb (ToBoolean l)))
  ||| (l <- Get parsedData k_language ;; n <- Get l k_name ;;
       Return (negb (type_eqb (typeof n) t_string)))
  ||| (l <- Get parsedData k_language ;; c <- Get l k_confidence ;;
       Return (negb (type_eqb (typeof c) t_number)))
  ||| (a <- Get parsedData k_accent ;; Return (negb (ToBoolean a)))
  ||| (a <- Get parsedData k_accent ;; n <- Get a k_name ;;
       Return (negb (type_eqb (typeof n) t_string)))
  ||| (a <- Get parsedData k_accent ;; c <- Get a k_confidence ;;
       Return (negb (type_eqb (typeof c) t_number))).

(** [Math.max(0, Math.min(100, x))] *)
Definition clamp (x : number) : number :=
  Math_max [zero; Math_min [hundred; x]].

(** Lines 66 and 67: [parsedData.field.confidence] is replaced by its
    clamped value.  The object under [field] is the one [parsedData] holds,
    so the write shows in [parsedData]. *)
Definition clamp_confidence (parsedData : value) (field : str) : outcome value :=
  target <- Get (Some parsedData) field ;;
  source <- Get (Some parsedData) field ;;
  c <- Get source k_confidence ;;
  x <- ToNumber c ;;
  target' <- Put target k_confidence (JNumber (clamp x)) ;;
  Put (Some parsedData) field target'.

Definition invalid_message : string := "Invalid JSON structure received from API.".

(** Lines 58-69: validation, clamping, and the value returned. *)
Definition validate_and_clamp (parsedData : value) : outcome value :=
  bad <- invalid (Some parsedData) ;;
  if bad then Throw (Error invalid_message)
  else
    p1 <- clamp_confidence parsedData k_language ;;
    p2 <- clamp_confidence p1 k_accent ;;
    Return p2.

(** Lines 48-69: the body of the [try] block from the reply's text on. *)
Definition normalize (text : str) : outcome value :=
  let jsonStr := defence text in
  match JSON.parse jsonStr with
  | None => Throw SyntaxError
  | Some parsedData => validate_and_clamp parsedData
  end.

(** The error [analyzeAudio] rejects with: [ApiCallFailed e] is
    [new Error] of the text "API call failed: " followed by the message of
    [e]; [UnknownError] is the [new Error] of line 76. *)
Inductive failure : Type :=
| ApiCallFailed (cause : exn)
| UnknownError.

(** The two failures of the normalizer the specification names. *)
Definition MalformedResponse : failure := ApiCallFailed SyntaxError.
Definition InvalidShape : failure := ApiCallFailed (Error invalid_message).

(** How the promise of [analyzeAudio] settles. *)
Inductive settled (A : Type) : Type :=
| Resolved (a : A)
| Rejected (f : failure)
| NotModelled.

Arguments Resolved {A} a.
Arguments Rejected {A} f.
Arguments NotModelled {A}.

(** Lines 71-77, the [catch] block. *)
Definition catch {A : Type} (x : outcome A) : settled A :=
  match x with
  | Return a => Resolved a
  | Throw NonError => Rejected UnknownError
  | Throw e => Rejected (ApiCallFailed e)
  | Unmodelled => NotModelled
  end.

(** The request of lines 31-46 and what the provider may answer: the call
    throws, or resolves with a response whose [text] may be undefined. *)
Record request : Type := Request
  { model : string; mimeType : string; data : str; responseMimeType : string }.

Inductive reply : Type :=
| Throws (e : exn)
| Responds (text : option str).

(** [analyzeAudio]: the request it sends and, given the provider's answer,
    its result. *)
Definition analyzeAudio_request (base64Audio : str) : request :=
  Request "gemini-2.5-flash-preview-04-17" "audio/webm" base64Audio
          "application/json".

Definition analyzeAudio (generateContent : request -> reply) (base64Audio : str)
  : settled value :=
  catch
    match generateContent (analyzeAudio_request base64Audio) with
    | Throws e => Throw e
    | Responds None => Throw TypeError
    | Responds (Some text) => normalize text
    end.

(** The normalizer on its own: [analyzeAudio] from the reply's text on. *)
Definition ResponseNormalizer (text : str) : settled value :=
  catch (normalize text).

(** The body wrapped in a fence: an opening line of three backticks and
    the tag, the body, a closing line of three backticks. *)
Definition fence (tag body : str) : str :=
  fence3 ++ tag ++ [LF] ++ body ++ [LF] ++ fence3.

(** The confidence a value carries under [field]. *)
Definition confidence_of (field : str) (r : value) : option number :=
  match r with
  | JObject ps =>
      match lookup field ps with
      | Some (JObject o) =>
          match lookup k_confidence o with
          | Some (JNumber n) => Some n
          | _ => None
          end
      | _ => None
      end
  | _ => None
  end.

(* ================================================================== *)
(** * App: the recording controller *)
(* ================================================================== *)

Module RecordingState.
Inductive t : Type := idle | recording | processing | result | error.

Definition eqb (a b : t) : bool :=
  match a, b with
  | idle, idle | recording, recording | processing, processing
  | result, result | error, error => true
  | _, _ => false
  end.
End RecordingState.

(** Lists updated by index: the recorders, the pending reads and the
    pending calls of the controller are kept in lists. *)
Fixpoint replace_nth {A : Type} (i : nat) (x : A) (l : list A) : list A :=
  match l, i with
  | [], _ => []
  | _ :: t, 0 => x :: t
  | h :: t, S j => h :: replace_nth j x t
  end.

Fixpoint remove_nth {A : Type} (i : nat) (l : list A) : list A :=
  match l, i with
  | [], _ => []
  | _ :: t, 0 => t
  | h :: t, S j => h :: remove_nth j t
  end.

Module App.

Import RecordingState.

Definition Blob := list Byte.byte.

(** The texts [setError] is called with. [AnalysisFailed f] is the text
    "Failed to analyze audio. " followed by the message of [f]. *)
Inductive message : Type :=
| NoAudio            (* "No audio was recorded. Please try again." *)
| MicrophoneDenied   (* "Microphone access was denied. ..." *)
| AnalysisFailed (f : failure).

Definition no_audio_text : string := "No audio was recorded. Please try again.".

(** The text the error view shows; [engine] gives the messages of the
    built-in errors, which the engine words. *)
Definition failure_message (engine : exn -> string) (f : failure) : string :=
  match f with
  | ApiCallFailed (Error msg) => "API call failed: " ++ msg
  | ApiCallFailed e => "API call failed: " ++ engine e
  | UnknownError =>
      "An unknown error occurred while communicating with the AI model."
  end%string.

Definition text_of (engine : exn -> string) (msg : message) : string :=
  match msg with
  | NoAudio => no_audio_text
  | MicrophoneDenied =>
      "Microphone access was denied. Please allow microphone access in your browser settings to use this app."
  | AnalysisFailed f => "Failed to analyze audio. " ++ failure_message engine f
  end%string.

(** A [MediaRecorder] created on line 126: recording; stopped by
    [stop()], its [dataavailable] event still to come; its data delivered,
    its [stop] event still to come; inactive. *)
Inductive recorder : Type := Active | Stopping | Flushed | Inactive.

(** The state of the component and of what it has started.  The three
    [useState] cells of the session and the chunk list behind
    [audioChunksRef]; every [MediaRecorder] created so far, oldest first,
    and the index of the one behind [mediaRecorderRef]; the calls of
    [getUserMedia] that have not settled, each with the rest of
    [startRecording] waiting; the [FileReader]s whose [onloadend] has not
    fired, each with its blob; the calls of [analyzeAudio] the provider has
    not answered, each with its argument; and the requests sent to the
    provider so far (latest first). *)
Record State : Type := Build
  { recordingState : RecordingState.t;
    analysisResult : option value;
    error : option message;
    audioChunks : list Blob;
    recorders : list recorder;
    mediaRecorderRef : option nat;
    pendingStarts : nat;
    readers : list Blob;
    calls : list str;
    requests : list request }.

Definition init : State :=
  Build idle None None [] [] None 0 [] [] [].

Definition setRecordingState (v : RecordingState.t) (st : State) : State :=
  Build v (analysisResult st) (error st) (audioChunks st) (recorders st)
        (mediaRecorderRef st) (pendingStarts st) (readers st) (calls st)
        (requests st).

Definition setAnalysisResult (v : option value) (st : State) : State :=
  Build (recordingState st) v (error st) (audioChunks st) (recorders st)
        (mediaRecorderRef st) (pendingStarts st) (readers st) (calls st)
        (requests st).

Definition setError (v : option message) (st : State) : State :=
  Build (recordingState st) (analysisResult st) v (audioChunks st)
        (recorders st) (mediaRecorderRef st) (pendingStarts st) (readers st)
        (calls st) (requests st).

Definition with_audioChunks (v : list Blob) (st : State) : State :=
  Build (recordingState st) (analysisResult st) (error st) v (recorders st)
        (mediaRecorderRef st) (pendingStarts st) (readers st) (calls st)
        (requests st).

Definition with_recorders (v : list recorder) (st : State) : State :=
  Build (recordingState st) (analysisResult st) (error st) (audioChunks st) v
        (mediaRecorderRef st) (pendingStarts st) (readers st) (calls st)
        (requests st).

Definition with_mediaRecorderRef (v : option nat) (st : State) : State :=
  Build (recordingState st) (analysisResult st) (error st) (audioChunks st)
        (recorders st) v (pendingStarts st) (readers st) (calls st)
        (requests st).

Definition with_pendingStarts (v : nat) (st : State) : State :=
  Build (recordingState st) (analysisResult st) (error st) (audioChunks st)
        (recorders st) (mediaRecorderRef st) v (readers st) (calls st)
        (requests st).

Definition with_readers (v : list Blob) (st : State) : State :=
  Build (recordingState st) (analysisResult st) (error st) (audioChunks st)
        (recorders st) (mediaRecorderRef st) (pendingStarts st) v (calls st)
        (requests st).

Definition with_calls (v : list str) (st : State) : State :=
  Build (recordingState st) (analysisResult st) (error st) (audioChunks st)
        (recorders st) (mediaRecorderRef st) (pendingStarts st) (readers st) v
        (requests st).

Definition with_requests (v : list request) (st : State) : State :=
  Build (recordingState st) (analysisResult st) (error st) (audioChunks st)
        (recorders st) (mediaRecorderRef st) (pendingStarts st) (readers st)
        (calls st) v.

(** Base64 and the data URL of [readAsDataURL]. *)
Definition alphabet (n : N) : cu :=
  (if n <? 26 then 65 + n
   else if n <? 52 then 97 + (n - 26)
   else if n <? 62 then 48 + (n - 52)
   else if n =? 62 then 43 else 47)%N.

Fixpoint base64 (bs : list N) : str :=
  match bs with
  | [] => []
  | [a] => [alphabet (a / 4); alphabet ((a mod 4) * 16); 61; 61]%N
  | [a; b] =>
      [alphabet (a / 4); alphabet ((a mod 4) * 16 + b / 16);
       alphabet ((b mod 16) * 4); 61]%N
  | a :: b :: c :: r =>
      ([alphabet (a / 4); alphabet ((a mod 4) * 16 + b / 16);
        alphabet ((b mod 16) * 4 + c / 64); alphabet (c mod 64)]%N)
      ++ base64 r
  end.

Definition readAsDataURL (b : Blob) : str :=
  u "data:audio/webm;base64," ++ base64 (List.map Byte.to_N b).

(** [s.split(',')] *)
Fixpoint split_comma (s : str) : list str :=
  match s with
  | [] => [[]]
  | c :: s' =>
      if N.eqb c 44 then [] :: split_comma s'
      else match split_comma s' with
           | h :: t => (c :: h) :: t
           | [] => [[c]]
           end
  end.

(** Lines 85-90. *)
Definition handleReset (st : State) : State :=
  with_audioChunks []
    (setError None (setAnalysisResult None (setRecordingState idle st))).

(** Lines 92-105: [processAudio], up to the start of the read. *)
Definition processAudio (st : State) : State :=
  match audioChunks st with
  | [] => setRecordingState RecordingState.error (setError (Some NoAudio) st)
  | chunks =>
      let audioBlob := concat chunks in
      let st' := with_audioChunks []
                   (setError None (setRecordingState processing st)) in
      with_readers (readers st' ++ [audioBlob]) st'
  end.

(** Lines 106-109: [reader.onloadend] up to its [await]: the call of
    [analyzeAudio] sends the request. *)
Definition onloadend (blob : Blob) (st : State) : State :=
  let base64Audio := nth 1 (split_comma (readAsDataURL blob)) [] in
  with_calls (calls st ++ [base64Audio])
    (with_requests (analyzeAudio_request base64Audio :: requests st) st).

(** Lines 109-117: the rest of [reader.onloadend], given how the provider
    answers the request. *)
Definition onloadend_resume (generateContent : request -> reply)
           (base64Audio : str) (st : State) : State :=
  match analyzeAudio generateContent base64Audio with
  | Resolved r => setRecordingState result (setAnalysisResult (Some r) st)
  | Rejected f =>
      setRecordingState RecordingState.error
        (setError (Some (AnalysisFailed f)) st)
  | NotModelled => st
  end.

(** Lines 121-123: [startRecording] up to its [await]: one more call of
    [getUserMedia] is pending.  Nothing tells the handler that one already
    is. *)
Definition startRecording (st : State) : State :=
  with_pendingStarts (S (pendingStarts st)) st.

(** How far the [try] block of [startRecording] gets once the call of
    [getUserMedia] has settled: the call is rejected, or the constructor
    of line 126 throws, and no recorder is made; [start()] throws on line
    131; the set-up of the visualizer throws on lines 136-154, after the
    recorder has started; the block runs to its end. *)
Inductive attempt : Type := Refused | StartThrows | VisualizerThrows | Completes.

(** Lines 126-130: a new recorder, in state [r], behind
    [mediaRecorderRef]. *)
Definition new_recorder (r : recorder) (st : State) : State :=
  with_mediaRecorderRef (Some (length (recorders st)))
    (with_recorders (recorders st ++ [r]) st).

(** Lines 156-160. *)
Definition startRecording_catch (st : State) : State :=
  setRecordingState RecordingState.error (setError (Some MicrophoneDenied) st).

(** Lines 124-160: the rest of [startRecording].  The state is set, not
    tested.  The visualizer of lines 135-154 keeps no state of the session;
    what matters of it is whether it throws. *)
Definition startRecording_resume (o : attempt) (st : State) : State :=
  match o with
  | Refused => startRecording_catch st
  | StartThrows => startRecording_catch (new_recorder Inactive st)
  | VisualizerThrows =>
      startRecording_catch
        (setError None (setRecordingState recording (new_recorder Active st)))
  | Completes =>
      setError None (setRecordingState recording (new_recorder Active st))
  end.

(** Lines 163-183: [stopRecording] stops the recorder behind
    [mediaRecorderRef] when it is recording. *)
Definition stopRecording (st : State) : State :=
  match mediaRecorderRef st with
  | Some i =>
      match nth_error (recorders st) i with
      | Some Active => with_recorders (replace_nth i Stopping (recorders st)) st
      | _ => st
      end
  | None => st
  end.

(** The [dataavailable] listener of lines 127-129. *)
Definition dataavailable (chunk : Blob) (st : State) : State :=
  with_audioChunks (audioChunks st ++ [chunk]) st.

(** What the browser can deliver, one handler at a time.  A click reaches
    a handler only while its button is rendered (lines 185-252): the Start
    button in [idle], also while a call of [getUserMedia] is pending; the
    Stop button in [recording]; the reset button in [result] and [error].
    A pending call of [getUserMedia] settles at any time.  A recorder that
    [stop()] was called on fires [dataavailable] (once, as it is started
    without a time slice; the model lets it deliver more chunks than one)
    and then [stop]; a recorder fires nothing before [stop()] is called on
    it (the tracks of its stream are taken not to end by themselves).
    Recorders, reads and calls are named by their index.  [onloadend] fires
    once for a pending read, and the provider answers a pending call, in
    any order.  A read is taken to succeed. *)
Inductive event : Type :=
| ClickStart
| Settle (o : attempt)
| ClickStop
| DataAvailable (i : nat) (chunk : Blob)
| Stop (i : nat)
| LoadEnd (i : nat)
| Answer (i : nat) (generateContent : request -> reply)
| ClickReset.

Definition step (st : State) (ev : event) : option State :=
  match ev with
  | ClickStart =>
      match recordingState st with
      | idle => Some (startRecording st)
      | _ => None
      end
  | Settle o =>
      match pendingStarts st with
      | S n => Some (startRecording_resume o (with_pendingStarts n st))
      | 0 => None
      end
  | ClickStop =>
      match recordingState st with
      | recording => Some (stopRecording st)
      | _ => None
      end
  | DataAvailable i chunk =>
      match nth_error (recorders st) i with
      | Some Stopping | Some Flushed =>
          Some (dataavailable chunk
                  (with_recorders (replace_nth i Flushed (recorders st)) st))
      | _ => None
      end
  | Stop i =>
      match nth_error (recorders st) i with
      | Some Flushed =>
          Some (processAudio
                  (with_recorders (replace_nth i Inactive (recorders st)) st))
      | _ => None
      end
  | LoadEnd i =>
      match nth_error (readers st) i with
      | Some blob =>
          Some (onloadend blob (with_readers (remove_nth i (readers st)) st))
      | None => None
      end
  | Answer i generateContent =>
      match nth_error (calls st) i with
      | Some base64Audio =>
          Some (onloadend_resume generateContent base64Audio
                  (with_calls (remove_nth i (calls st)) st))
      | None => None
      end
  | ClickReset =>
      match recordingState st, analysisResult st with
      | result, Some _ => Some (handleReset st)
      | RecordingState.error, _ => Some (handleReset st)
      | _, _ => None
      end
  end.

Fixpoint run (st : State) (evs : list event) : option State :=
  match evs with
  | [] => Some st
  | ev :: evs' =>
      match step st ev with
      | Some st' => run st' evs'
      | None => None
      end
  end.

Inductive reachable : State -> Prop :=
| reachable_init : reachable init
| reachable_step st ev st' :
    reachable st -> step st ev = Some st' -> reachable st'.

(** A click on Start is in order when no earlier call of [getUserMedia] is
    still pending; a session is orderly when every click on Start is. *)
Definition in_order (st : State) (ev : event) : bool :=
  match ev with
  | ClickStart => Nat.eqb (pendingStarts st) 0
  | _ => true
  end.

Inductive orderly : State -> Prop :=
| orderly_init : orderly init
| orderly_step st ev st' :
    orderly st -> in_order st ev = true -> step st ev = Some st' ->
    orderly st'.


(** The edges of the state machine as the specification lists them, and
    with the edge the [catch] block of [startRecording] takes. *)
Definition spec_edge (a b : RecordingState.t) : bool :=
  match a, b with
  | idle, recording
  | recording, processing | recording, RecordingState.error
  | processing, result | processing, RecordingState.error
  | result, idle | RecordingState.error, idle => true
  | _, _ => false
  end.

Definition edge (a b : RecordingState.t) : bool :=
  spec_edge a b || (RecordingState.eqb a idle && RecordingState.eqb b RecordingState.error).

(** The recorder is waiting for its events. *)
Definition busy (r : recorder) : bool :=
  match r with Stopping | Flushed => true | _ => false end.

(** What every state of the controller satisfies: each view has what it
    shows, and a session that is recording has its recorder. *)
Definition Inv (st : State) : Prop :=
  (recordingState st = result -> analysisResult st <> None)
  /\ (recordingState st = RecordingState.error -> error st <> None)
  /\ (recordingState st <> RecordingState.error -> recordingState st <> result ->
      error st = None)
  /\ (recordingState st = idle -> analysisResult st = None)
  /\ (recordingState st = processing -> readers st <> [] \/ calls st <> [])
  /\ (recordingState st = recording ->
      exists i r, mediaRecorderRef st = Some i
                  /\ nth_error (recorders st) i = Some r /\ r <> Inactive).

(** What every state of an orderly session satisfies: one thing is under
    way at a time. *)
Definition Single (st : State) : Prop :=
  pendingStarts st <= 1
  /\ (pendingStarts st = 1 -> recordingState st = idle)
  /\ (forall i r, nth_error (recorders st) i = Some r -> busy r = true ->
        recordingState st = recording /\ mediaRecorderRef st = Some i)
  /\ length (readers st) + length (calls st) <= 1
  /\ (length (readers st) + length (calls st) = 1 ->
      recordingState st = processing)
  /\ (audioChunks st <> [] ->
      exists i, mediaRecorderRef st = Some i
                /\ nth_error (recorders st) i = Some Flushed)
  /\ (forall i, nth_error (recorders st) i = Some Flushed ->
        audioChunks st <> []).

End App.

(* ================================================================== *)
(** * Predicates the statements use *)
(* ================================================================== *)

(** The first unit of a JSON value. *)
Definition is_value_start (c : cu) : bool :=
  ((c =? 123) || (c =? 91) || (c =? 34) || (c =? 45) || JSON.is_digit c
   || (c =? 116) || (c =? 102) || (c =? 110))%N.

(** No number inside the value is NaN. *)
Fixpoint no_nan (v : value) : bool :=
  match v with
  | JNumber n => negb (is_nan n)
  | JArray l => forallb no_nan l
  | JObject ps => forallb (fun kv => let '(_, w) := kv in no_nan w) ps
  | _ => true
  end.

Definition props_no_nan (ps : list (str * value)) : bool :=
  forallb (fun kv => let '(_, w) := kv in no_nan w) ps.

(** The shape the specification asks for: an object with a [language]
    object and an [accent] object, each with a [name] of string type and a
    [confidence] of numeric type. *)
Definition field_ok (l : jsval) : bool :=
  match l with
  | Some (JObject o) =>
      match lookup k_name o with Some (JString _) => true | _ => false end
      && match lookup k_confidence o with Some (JNumber _) => true | _ => false end
  | _ => false
  end.

Definition shape_ok (parsedData : value) : bool :=
  match parsedData with
  | JObject ps => field_ok (lookup k_language ps) && field_ok (lookup k_accent ps)
  | _ => false
  end.

(** The three tests [invalid] makes on one field. *)
Definition field_invalid (l : jsval) : outcome bool :=
      Return (negb (ToBoolean l))
  ||| (n <- Get l k_name ;; Return (negb (type_eqb (typeof n) t_string)))
  ||| (c <- Get l k_confidence ;; Return (negb (type_eqb (typeof c) t_number))).

(** What lines 66-69 return on a value of the right shape. *)
Definition clamped (ps lang acc : list (str * value)) (x y : number) : value :=
  JObject
    (set_prop k_accent (JObject (set_prop k_confidence (JNumber (clamp y)) acc))
       (set_prop k_language
          (JObject (set_prop k_confidence (JNumber (clamp x)) lang)) ps)).

(** The payload of the specification's end-to-end scenario. *)
Definition scenario_body : str :=
  js "{'language':{'name':'English','confidence':95},'accent':{'name':'American','confidence':110}}".

Definition out_of_range_payload : value :=
  JObject
    [(k_language, JObject [(k_name, JString (u "English"));
                           (k_confidence, JNumber (of_int 150))]);
     (k_accent, JObject [(k_name, JString (u "American"));
                         (k_confidence, JNumber (of_int (-10)))])].

(** The first unit of the text is the first unit of a JSON value. *)
Definition starts_value (s : str) : bool :=
  match s with
  | c :: _ => is_value_start c
  | [] => false
  end.

(* ================================================================== *)
(** * Predicates on sessions *)
(* ================================================================== *)

Module Session.

Import App.

(** The events that start a recorder, stop one, end a read, and the
    clicks on Start and the settlements of [getUserMedia]. *)
Definition is_granted (ev : event) : bool :=
  match ev with
  | Settle VisualizerThrows | Settle Completes => true
  | _ => false
  end.

Definition is_stop (ev : event) : bool :=
  match ev with Stop _ => true | _ => false end.

Definition is_loadend (ev : event) : bool :=
  match ev with LoadEnd _ => true | _ => false end.

Definition is_start (ev : event) : bool :=
  match ev with ClickStart => true | _ => false end.

Definition is_settle (ev : event) : bool :=
  match ev with Settle _ => true | _ => false end.

Definition count (p : event -> bool) (evs : list event) : nat :=
  length (filter p evs).

(** The recorders that have been started and whose [stop] event has not
    arrived. *)
Definition is_live (r : recorder) : bool :=
  match r with Inactive => false | _ => true end.

Definition live (st : State) : nat := length (filter is_live (recorders st)).

(** No unit of the text is a comma. *)
Definition no_comma (s : str) : bool := forallb (fun c => negb (N.eqb c 44)) s.

(** At most [n] further events bring the session back to [idle]. *)
Definition recovers (n : nat) (st : State) : Prop :=
  exists evs st',
    length evs <= n
    /\ run st evs = Some st'
    /\ recordingState st' = RecordingState.idle.

End Session.

(* ================================================================== *)
(** * App: the voice visualizer *)
(* ================================================================== *)

Module VoiceVisualizer.

Definition NUM_BARS : nat := 32.

(** [Math.floor] on a binary64 value. *)
Definition Math_floor (x : number) : number :=
  match x with
  | S754_finite s m e =>
      if (0 <=? e)%Z then x
      else
        let q := ((if s then Z.neg m else Z.pos m) / 2 ^ (- e))%Z in
        if (q =? 0)%Z then S754_zero s else binary_normalize prec emax q 0 false
  | _ => x
  end.

(** The array index a number stands for as a property key, when it is
    one: a non-negative integer (and -0, whose key is "0"). *)
Definition to_index (x : number) : option nat :=
  match x with
  | S754_zero _ => Some 0
  | S754_finite false m e =>
      if (0 <=? e)%Z then Some (Z.to_nat (Z.pos m * 2 ^ e))
      else if (Z.pos m mod 2 ^ (- e) =? 0)%Z
           then Some (Z.to_nat (Z.pos m / 2 ^ (- e)))
           else None
  | _ => None
  end.

(** [dataArray[index]] on a [Uint8Array], as a number: [undefined] outside
    the array, which arithmetic turns into NaN. *)
Definition element (dataArray : list Byte.byte) (index : number) : number :=
  match to_index index with
  | Some k =>
      match nth_error dataArray k with
      | Some b => of_int (Z.of_N (Byte.to_N b))
      | None => NaN
      end
  | None => NaN
  end.

(** Line 47: [Math.floor(length / NUM_BARS * i)], where [length] is
    [dataArray?.length ?? 0]. *)
Definition index_of_length (len i : nat) : number :=
  Math_floor
    (SFmul prec emax
       (SFdiv prec emax (of_int (Z.of_nat len)) (of_int (Z.of_nat NUM_BARS)))
       (of_int (Z.of_nat i))).

Definition dataIndex (dataArray : option (list Byte.byte)) (i : nat) : number :=
  index_of_length (match dataArray with Some d => length d | None => 0 end) i.

(** Line 48: [dataArray ? (dataArray[dataIndex] / 255) * 100 : 0]. *)
Definition barHeight (dataArray : option (list Byte.byte)) (i : nat) : number :=
  match dataArray with
  | Some d =>
      SFmul prec emax
        (SFdiv prec emax (element d (dataIndex dataArray i)) (of_int 255))
        (of_int 100)
  | None => zero
  end.

(** Line 55: the height of bar [i], in percent: [Math.max(barHeight, 5)]. *)
Definition height (dataArray : option (list Byte.byte)) (i : nat) : number :=
  Math_max [barHeight dataArray i; of_int 5].

(** Lines 46-60: the heights of the bars, in order. *)
Definition bars (dataArray : option (list Byte.byte)) : list number :=
  List.map (height dataArray) (List.seq 0 NUM_BARS).

(** The height a byte gives. *)
Definition byte_height (b : N) : number :=
  Math_max [SFmul prec emax (SFdiv prec emax (of_int (Z.of_N b)) (of_int 255))
              (of_int 100);
            of_int 5].

(** The index of line 47, for every length up to [bound] and every bar, is
    the integer quotient of [length * i] by the number of bars. *)
Definition index_table (bound : nat) : bool :=
  forallb
    (fun len =>
       forallb
         (fun i =>
            match to_index (index_of_length len i) with
            | Some k => Nat.eqb k (len * i / NUM_BARS)
            | None => false
            end)
         (List.seq 0 NUM_BARS))
    (List.seq 0 (S bound)).

End VoiceVisualizer.

(* ================================================================== *)
(** * Proofs *)
(* ================================================================== *)

Ltac class_lia :=
  repeat match goal with
         | |- _ = false => apply not_true_is_false; intro
         | H : _ = false |- _ => apply not_true_iff_false in H
         end;
  unfold is_space, is_word, JSON.is_ws, JSON.is_digit, backtick in *;
  cbn [existsb] in *;
  rewrite ?orb_true_iff, ?andb_true_iff, ?N.eqb_eq, ?N.leb_le, ?N.ltb_lt in *;
  lia.

Ltac break_hyp H :=
  repeat match type of H with
         | match ?x with _ => _ end = _ =>
             let E := fresh "E" in destruct x eqn:E; try discriminate H
         end.

(* ================================================================== *)
(** * Facts on strings *)
(* ================================================================== *)

Lemma str_eqb_eq (a b : str) : str_eqb a b = true <-> a = b.
Proof.
  unfold str_eqb. destruct (list_eq_dec N.eq_dec a b); split; congruence.
Qed.

Lemma str_eqb_refl (a : str) : str_eqb a a = true.
Proof. now apply str_eqb_eq. Qed.

Lemma dropWhile_all (p : cu -> bool) (a b : str) :
  forallb p a = true -> dropWhile p (a ++ b) = dropWhile p b.
Proof.
  induction a as [|c a IH]; simpl; intros H; [reflexivity|].
  apply andb_true_iff in H as [Hc Ha]. rewrite Hc. auto.
Qed.

Lemma dropWhile_some (p : cu -> bool) (a b : str) :
  forallb p a = false -> dropWhile p (a ++ b) = dropWhile p a ++ b.
Proof.
  induction a as [|c a IH]; simpl; intros H; [discriminate|].
  destruct (p c); simpl in H; auto.
Qed.

Lemma dropWhile_nil_all (p : cu -> bool) (a : str) :
  dropWhile p a = [] <-> forallb p a = true.
Proof.
  induction a as [|c a IH]; simpl; [tauto|].
  destruct (p c); simpl; [exact IH|]. split; discriminate.
Qed.

Lemma dropWhile_head (p : cu -> bool) (s : str) (c : cu) (s' : str) :
  dropWhile p s = c :: s' -> p c = false.
Proof.
  induction s as [|d s IH]; simpl; [discriminate|].
  destruct (p d) eqn:E; [exact IH|]. intros H. now inversion H; subst.
Qed.

Lemma dropWhile_idem (p : cu -> bool) (s : str) :
  dropWhile p (dropWhile p s) = dropWhile p s.
Proof.
  induction s as [|d s IH]; simpl; [reflexivity|].
  destruct (p d) eqn:E; [exact IH|]. simpl. now rewrite E.
Qed.

Lemma take_drop_While (p : cu -> bool) (s : str) :
  takeWhile p s ++ dropWhile p s = s.
Proof.
  induction s as [|d s IH]; simpl; [reflexivity|].
  destruct (p d); simpl; [now rewrite IH | reflexivity].
Qed.

Lemma takeWhile_all (p : cu -> bool) (s : str) : forallb p (takeWhile p s) = true.
Proof.
  induction s as [|d s IH]; simpl; [reflexivity|].
  destruct (p d) eqn:E; simpl; [now rewrite E | reflexivity].
Qed.

(** [trimEnd] read from the front. *)
Lemma trimEnd_cons (c : cu) (s : str) :
  trimEnd (c :: s) =
  match trimEnd s with
  | [] => if is_space c then [] else [c]
  | t => c :: t
  end.
Proof.
  unfold trimEnd. simpl rev.
  destruct (forallb is_space (rev s)) eqn:E.
  - rewrite dropWhile_all by exact E.
    apply dropWhile_nil_all in E. rewrite E. simpl.
    destruct (is_space c); reflexivity.
  - rewrite dropWhile_some by exact E. rewrite rev_app_distr. simpl.
    destruct (dropWhile is_space (rev s)) as [|d l] eqn:D.
    + apply dropWhile_nil_all in D. congruence.
    + destruct (rev (d :: l)) eqn:R; [|reflexivity].
      apply (f_equal (@rev cu)) in R. rewrite rev_involutive in R. discriminate.
Qed.

Lemma trimEnd_nil_all (s : str) : trimEnd s = [] <-> forallb is_space s = true.
Proof.
  induction s as [|c s IH]; [unfold trimEnd; simpl; tauto|].
  rewrite trimEnd_cons. simpl.
  destruct (trimEnd s) eqn:T.
  - destruct (is_space c); simpl; [tauto|]. split; discriminate.
  - split; [discriminate|]. intros H. apply andb_true_iff in H as [_ H].
    apply IH in H. discriminate.
Qed.

Lemma trimEnd_app_spaces (a w : str) :
  forallb is_space w = true -> trimEnd (a ++ w) = trimEnd a.
Proof.
  intros H. induction a as [|c a IH]; simpl.
  - apply trimEnd_nil_all in H. rewrite H. reflexivity.
  - rewrite !trimEnd_cons, IH. reflexivity.
Qed.

Lemma trimEnd_idem (s : str) : trimEnd (trimEnd s) = trimEnd s.
Proof.
  induction s as [|c s IH]; [reflexivity|].
  rewrite trimEnd_cons. destruct (trimEnd s) as [|d t] eqn:T.
  - destruct (is_space c) eqn:E; [reflexivity|].
    rewrite trimEnd_cons. unfold trimEnd at 1. simpl. now rewrite E.
  - rewrite trimEnd_cons, IH. reflexivity.
Qed.

Lemma trimEnd_head (s : str) (c : cu) :
  hd_error s = Some c -> is_space c = false -> hd_error (trimEnd s) = Some c.
Proof.
  destruct s as [|d s]; simpl; [discriminate|]. intros H E. inversion H; subst.
  rewrite trimEnd_cons. destruct (trimEnd s); [now rewrite E | reflexivity].
Qed.

Lemma trimStart_stop (s : str) (c : cu) :
  hd_error s = Some c -> is_space c = false -> trimStart s = s.
Proof.
  destruct s as [|d s]; simpl; [discriminate|]. intros H E.
  inversion H; subst. unfold trimStart. simpl. now rewrite E.
Qed.

Lemma trim_head (s : str) (c : cu) (t : str) :
  trim s = c :: t -> is_space c = false.
Proof.
  unfold trim. intros H.
  destruct (trimStart s) as [|d r] eqn:D; [discriminate|].
  pose proof (dropWhile_head _ _ _ _ D) as Hd.
  pose proof (@trimEnd_head (d :: r) d eq_refl Hd) as Hh.
  rewrite H in Hh. simpl in Hh. congruence.
Qed.

Lemma trim_idem (s : str) : trim (trim s) = trim s.
Proof.
  destruct (trim s) as [|c t] eqn:T; [reflexivity|].
  pose proof (trim_head _ _ _ T) as Hc.
  unfold trim at 1. rewrite (@trimStart_stop (c :: t) c eq_refl Hc).
  rewrite <- T. unfold trim. apply trimEnd_idem.
Qed.

(* ================================================================== *)
(** * The matcher on [fenceRegex] *)
(* ================================================================== *)

Section MatcherFacts.

Variable p : cu -> bool.

(** A successful greedy star ran its continuation on some suffix. *)
Lemma star_greedy_sound (c : Continuation) (s : str) :
  forall e cap z,
    star_greedy p c e cap s = Some z ->
    exists y w, c y = Some z /\ s = w ++ rest y.
Proof.
  induction s as [|ch s IH]; simpl; intros e cap z H.
  - exists (State e [] cap), []. auto.
  - destruct (p ch).
    + destruct (star_greedy p c (S e) cap s) eqn:G.
      * inversion H; subst. destruct (IH _ _ _ G) as (y & w & Hy & Hw).
        exists y, (ch :: w). split; [exact Hy | simpl; congruence].
      * exists (State e (ch :: s) cap), []. auto.
    + exists (State e (ch :: s) cap), []. auto.
Qed.

Lemma star_lazy_sound (c : Continuation) (s : str) :
  forall e cap z,
    star_lazy p c e cap s = Some z ->
    exists y w, c y = Some z /\ s = w ++ rest y.
Proof.
  induction s as [|ch s IH]; simpl; intros e cap z H.
  - destruct (c (State e [] cap)) eqn:C; [|discriminate].
    exists (State e [] cap), []. split; [congruence | reflexivity].
  - destruct (c (State e (ch :: s) cap)) eqn:C.
    + exists (State e (ch :: s) cap), []. split; [congruence | reflexivity].
    + destruct (p ch); [|discriminate].
      destruct (IH _ _ _ H) as (y & w & Hy & Hw).
      exists y, (ch :: w). split; [exact Hy | simpl; congruence].
Qed.

(** The greedy star keeps its longest iteration when the continuation
    accepts it. *)
Lemma star_greedy_first (c : Continuation) (s : str) :
  forall e cap z,
    c (State (e + length (takeWhile p s)) (dropWhile p s) cap) = Some z ->
    star_greedy p c e cap s = Some z.
Proof.
  induction s as [|ch s IH]; simpl; intros e cap z H.
  - now rewrite Nat.add_0_r in H.
  - destruct (p ch); simpl in H.
    + rewrite Nat.add_succ_r in H. now rewrite (IH (S e) cap z H).
    + now rewrite Nat.add_0_r in H.
Qed.

(** A greedy star in front of a continuation that only accepts strings
    the star cannot enter. *)
Lemma star_greedy_anchor (c : Continuation) (q : str -> bool)
      (F : nat -> captures -> option state) :
  (forall e v cap, c (State e v cap) = if q v then F (e + length v) cap else None) ->
  (forall ch v, q (ch :: v) = true -> p ch = false) ->
  forall s e cap,
    star_greedy p c e cap s =
    if q (dropWhile p s) then F (e + length s) cap else None.
Proof.
  intros Hc Hq. induction s as [|ch s IH]; simpl; intros e cap.
  - apply Hc.
  - destruct (p ch) eqn:E.
    + rewrite IH, Hc.
      destruct (q (ch :: s)) eqn:Q; [apply Hq in Q; congruence|].
      rewrite Nat.add_succ_r. simpl.
      destruct (q (dropWhile p s)); [|reflexivity].
      now destruct (F (S (e + length s)) cap).
    + apply Hc.
Qed.

End MatcherFacts.

(** Every success of the matcher goes through its continuation, on a suffix
    of the input. *)
Lemma m_sound (r : regex) :
  forall x c z,
    m r x c = Some z -> exists y w, c y = Some z /\ rest x = w ++ rest y.
Proof.
  induction r as [|p|r1 IH1 r2 IH2|g p|r IH|n r IH| |]; simpl; intros x c z H.
  - exists x, []. auto.
  - destruct (rest x) as [|ch s] eqn:R; [discriminate|].
    destruct (p ch); [|discriminate].
    exists (State (S (endIndex x)) s (caps x)), [ch]. auto.
  - destruct (IH1 _ _ _ H) as (y & w & Hy & Hw).
    destruct (IH2 _ _ _ Hy) as (y' & w' & Hy' & Hw').
    exists y', (w ++ w'). split; [exact Hy'|]. rewrite Hw, Hw'. apply app_assoc.
  - destruct g; [eapply star_greedy_sound | eapply star_lazy_sound]; exact H.
  - match type of H with match ?a with _ => _ end = _ => destruct a eqn:A end.
    + inversion H; subst. destruct (IH _ _ _ A) as (y & w & Hy & Hw).
      exists y, w. split; [|exact Hw].
      destruct (Nat.eqb (endIndex y) (endIndex x)); [discriminate | exact Hy].
    + exists x, []. auto.
  - destruct (IH _ _ _ H) as (y & w & Hy & Hw).
    eexists _, w. split; [exact Hy | exact Hw].
  - destruct (Nat.eqb (endIndex x) 0); [|discriminate]. exists x, []. auto.
  - destruct (rest x) eqn:R; [|discriminate]. exists x, []. rewrite R. auto.
Qed.

Lemma close_match (e : nat) (v : str) (cap : captures) (c : Continuation) :
  m closeRegex (State e v cap) c =
  if str_eqb v fence3 then c (State (e + length v) [] cap) else None.
Proof.
  assert (Hne : forall a b : str, a <> b -> str_eqb a b = false).
  { intros a b H. destruct (str_eqb a b) eqn:E; [|reflexivity].
    apply str_eqb_eq in E. contradiction. }
  unfold closeRegex, fence3, lit. cbn [m seq rest endIndex caps].
  destruct v as [|a v]; [reflexivity|].
  destruct (N.eqb_spec backtick a) as [<-|Ha]; [|rewrite Hne; congruence].
  destruct v as [|b v]; [reflexivity|].
  destruct (N.eqb_spec backtick b) as [<-|Hb]; [|rewrite Hne; congruence].
  destruct v as [|d v]; [reflexivity|].
  destruct (N.eqb_spec backtick d) as [<-|Hd]; [|rewrite Hne; congruence].
  destruct v as [|d' v].
  - rewrite str_eqb_refl. cbn [length]. now rewrite Nat.add_comm.
  - rewrite Hne; congruence.
Qed.

Lemma fence3_head (ch : cu) (v : str) :
  str_eqb (ch :: v) fence3 = true -> is_space ch = false.
Proof. intros H. apply str_eqb_eq in H. inversion H; subst. reflexivity. Qed.

Lemma spaces_close_match (e : nat) (v : str) (cap : captures) :
  m (Seq (Star true is_space) closeRegex) (State e v cap) (fun y => Some y) =
  if closing v then Some (State (e + length v) [] cap) else None.
Proof.
  simpl m at 1. cbv beta.
  apply (@star_greedy_anchor is_space (fun y => m closeRegex y (fun y0 => Some y0))
           (fun v => str_eqb v fence3) (fun n cap => Some (State n [] cap))).
  - intros e' v' cap'. apply close_match.
  - apply fence3_head.
Qed.

Lemma tail_match (e : nat) (v : str) (cap : captures) :
  m tailRegex (State e v cap) (fun y => Some y) =
  if closing v then Some (State (e + length v) [] cap) else None.
Proof.
  change tailRegex with (Seq (Opt (lit LF)) (Seq (Star true is_space) closeRegex)).
  pose proof (spaces_close_match e v cap) as H2.
  unfold lit. cbn [m groups clear fold_right endIndex rest caps] in *.
  destruct v as [|ch v]; [exact H2|].
  destruct (N.eqb_spec LF ch) as [<-|Hch]; [|exact H2].
  rewrite Nat.eqb_sym, (proj2 (Nat.eqb_neq e (S e))) by lia.
  pose proof (spaces_close_match (S e) v cap) as H1.
  cbn [m endIndex rest caps] in H1. rewrite H1, H2.
  unfold closing. simpl. rewrite Nat.add_succ_r.
  now destruct (str_eqb (dropWhile is_space v) fence3).
Qed.

Lemma firstn_length_app (a b : str) : firstn (length a) (a ++ b) = a.
Proof. induction a as [|c a IH]; simpl; [now destruct b | now rewrite IH]. Qed.

Lemma closing_all_space (X : str) :
  closing (X ++ fence3) = forallb is_space X.
Proof.
  unfold closing. destruct (forallb is_space X) eqn:E.
  - rewrite dropWhile_all by exact E. reflexivity.
  - rewrite dropWhile_some by exact E.
    destruct (dropWhile is_space X) as [|d l] eqn:D.
    + apply dropWhile_nil_all in D. congruence.
    + destruct (str_eqb _ _) eqn:Q; [|reflexivity].
      apply str_eqb_eq in Q. apply (f_equal (@length cu)) in Q.
      simpl in Q. rewrite length_app in Q. simpl in Q. lia.
Qed.

(** The lazy star stops where the trailing white space of the text before
    the closing run begins. *)
Lemma lazy_body_fence (X : str) : lazy_body (X ++ fence3) = Some (trimEnd X).
Proof.
  induction X as [|c X IH].
  - reflexivity.
  - change ((c :: X) ++ fence3) with (c :: (X ++ fence3)).
    cbn [lazy_body]. change (c :: X ++ fence3) with ((c :: X) ++ fence3).
    rewrite closing_all_space, IH, trimEnd_cons. simpl.
    destruct (is_space c) eqn:Ec; simpl.
    + destruct (forallb is_space X) eqn:EX.
      * apply trimEnd_nil_all in EX. now rewrite EX.
      * destruct (trimEnd X) eqn:T; [|reflexivity].
        apply trimEnd_nil_all in T. congruence.
    + now destruct (trimEnd X).
Qed.

Lemma group2_tail (s : str) :
  forall (pre whole : str) (e0 : nat) (cap : captures),
    whole = pre ++ s ->
    star_lazy (fun _ => true)
      (fun y => m tailRegex
                  (State (endIndex y) (rest y)
                     (set_capture 2 (Some (firstn (endIndex y - e0) whole)) (caps y)))
                  (fun y0 => Some y0))
      (e0 + length pre) cap s
    = match lazy_body s with
      | Some b => Some (State (e0 + length whole) []
                          (set_capture 2 (Some (pre ++ b)) cap))
      | None => None
      end.
Proof.
  induction s as [|ch s IH]; intros pre whole e0 cap Hw.
  - cbn [star_lazy endIndex rest caps]. rewrite tail_match. reflexivity.
  - cbn [star_lazy endIndex rest caps]. rewrite tail_match.
    cbn [lazy_body]. destruct (closing (ch :: s)) eqn:C.
    + replace (e0 + length pre - e0) with (length pre) by lia.
      rewrite Hw, firstn_length_app, app_nil_r, length_app.
      now rewrite Nat.add_assoc.
    + replace (S (e0 + length pre)) with (e0 + length (pre ++ [ch]))
        by (rewrite length_app; simpl; lia).
      rewrite (IH (pre ++ [ch]) whole e0 cap)
        by (rewrite <- app_assoc; exact Hw).
      destruct (lazy_body s); [|reflexivity].
      simpl. now rewrite <- app_assoc.
Qed.

Lemma body_match (e : nat) (s : str) (cap : captures) :
  m bodyRegex (State e s cap) (fun y => Some y) =
  match lazy_body s with
  | Some b => Some (State (e + length s) [] (set_capture 2 (Some b) cap))
  | None => None
  end.
Proof.
  unfold bodyRegex. cbn [m endIndex rest caps].
  pose proof (@group2_tail s [] s e cap eq_refl) as H.
  cbn [length app] in H. rewrite Nat.add_0_r in H. exact H.
Qed.

Lemma after_word_match (e : nat) (v X : str) (cap : captures) :
  dropWhile is_space v = X ++ fence3 ->
  m afterWord (State e v cap) (fun y => Some y) =
  Some (State (e + length v) [] (set_capture 2 (Some (trimEnd X)) cap)).
Proof.
  intros HX. unfold afterWord. cbn [m endIndex rest caps].
  apply star_greedy_first.
  unfold lit. cbn [m groups clear fold_right endIndex rest caps].
  assert (Hhd : match dropWhile is_space v with
                | ch :: _ => N.eqb LF ch = false | [] => False end).
  { destruct (dropWhile is_space v) as [|ch l] eqn:D.
    - destruct X; discriminate.
    - apply dropWhile_head in D.
      destruct (N.eqb_spec LF ch) as [<-|]; [discriminate | reflexivity]. }
  pose proof (body_match (e + length (takeWhile is_space v))
                (dropWhile is_space v) cap) as B.
  destruct (dropWhile is_space v) as [|ch l] eqn:D; [contradiction|].
  rewrite Hhd, B, HX, lazy_body_fence. do 2 f_equal.
  rewrite <- HX, <- D, <- Nat.add_assoc, <- length_app, take_drop_While.
  reflexivity.
Qed.

(** A string that opens with three backticks and whose remainder, past the
    word characters and the white space, closes with three backticks is
    matched, and group 2 is the text in between without its trailing white
    space. *)
Lemma fence_match_some (r X : str) :
  dropWhile is_space (dropWhile is_word r) = X ++ fence3 ->
  exists z,
    m fenceRegex (State 0 (fence3 ++ r) no_captures) (fun y => Some y) = Some z
    /\ caps z 2 = Some (trimEnd X).
Proof.
  intros HX.
  change (m fenceRegex (State 0 (fence3 ++ r) no_captures) (fun y => Some y))
    with (m (Opt (Group 1 (Star true is_word))) (State 3 r no_captures)
            (fun y => m afterWord y (fun y0 => Some y0))).
  cbn [m groups clear fold_right endIndex rest caps].
  destruct (takeWhile is_word r) as [|ch tw] eqn:TW.
  - assert (Hr : dropWhile is_word r = r).
    { destruct r as [|d r]; [reflexivity|]. simpl in *.
      destruct (is_word d); [discriminate | reflexivity]. }
    assert (Hs : star_greedy is_word
                   (fun y => if Nat.eqb (endIndex y) 3 then None
                             else m afterWord
                                    (State (endIndex y) (rest y)
                                       (set_capture 1
                                          (Some (firstn (endIndex y - 3) r))
                                          (caps y)))
                                    (fun y0 => Some y0))
                   3 (set_capture 1 None no_captures) r = None).
    { destruct r as [|d r]; [reflexivity|]. simpl in *.
      destruct (is_word d); [discriminate | reflexivity]. }
    cbn [endIndex rest caps] in Hs |- *. rewrite Hs.
    rewrite Hr in HX. rewrite (after_word_match 3 r X no_captures HX).
    eexists. split; reflexivity.
  - eexists. split.
    + erewrite star_greedy_first; [reflexivity|].
      cbn [endIndex rest caps]. rewrite TW. cbn [length].
      rewrite Nat.add_succ_r. cbn [Nat.eqb Nat.add].
      rewrite (after_word_match _ _ X _ HX). reflexivity.
    + reflexivity.
Qed.

Lemma fence_open (s : str) (c : Continuation) :
  m fenceRegex (State 0 s no_captures) c =
  match s with
  | a :: b :: d :: r =>
      if N.eqb backtick a && N.eqb backtick b && N.eqb backtick d
      then m midRegex (State 3 r no_captures) c
      else None
  | _ => None
  end.
Proof.
  change fenceRegex
    with (Seq AssertStart
            (Seq (lit backtick) (Seq (lit backtick) (Seq (lit backtick) midRegex)))).
  unfold lit. cbn [m endIndex rest caps Nat.eqb].
  destruct s as [|a [|b [|d r]]]; try reflexivity;
    repeat match goal with
           | |- context [N.eqb backtick ?x] => destruct (N.eqb backtick x)
           end; reflexivity.
Qed.

Lemma m_seq_sound (r1 r2 : regex) (x : state) (c : Continuation) (z : state) :
  m (Seq r1 r2) x c = Some z ->
  exists y w, m r2 y c = Some z /\ rest x = w ++ rest y.
Proof. cbn [m]. intros H. apply m_sound in H. exact H. Qed.

Lemma fenced_intro (W : str) : fenced (fence3 ++ W ++ fence3) = true.
Proof.
  unfold fence3. cbn [app fenced]. rewrite rev_app_distr. reflexivity.
Qed.

Lemma fenced_elim (s : str) :
  fenced s = true -> exists W, s = fence3 ++ W ++ fence3.
Proof.
  destruct s as [|a [|b [|d r]]]; try discriminate. cbn [fenced].
  intros H. repeat (apply andb_true_iff in H as [H ?]).
  destruct (rev r) as [|x [|y [|z l]]] eqn:R; try discriminate.
  repeat match goal with
         | H : _ && _ = true |- _ => apply andb_true_iff in H as [H ?]
         | H : N.eqb _ _ = true |- _ => apply N.eqb_eq in H; subst
         end.
  exists (rev l). apply (f_equal (@rev cu)) in R. rewrite rev_involutive in R.
  subst r. simpl. now rewrite <- !app_assoc.
Qed.

(** A match implies the opening and the closing run. *)
Lemma fence_match_sound (s : str) (z : state) :
  m fenceRegex (State 0 s no_captures) (fun y => Some y) = Some z ->
  fenced s = true.
Proof.
  rewrite fence_open. destruct s as [|a [|b [|d r]]]; try discriminate.
  destruct (N.eqb_spec backtick a) as [<-|]; [|discriminate].
  destruct (N.eqb_spec backtick b) as [<-|]; [|discriminate].
  destruct (N.eqb_spec backtick d) as [<-|]; [|discriminate].
  cbn [andb]. unfold midRegex, afterWord, bodyRegex.
  change tailRegex with (Seq (Opt (lit LF)) (Seq (Star true is_space) closeRegex)).
  intros H.
  apply m_seq_sound in H as (y1 & w1 & H & E1).
  apply m_seq_sound in H as (y2 & w2 & H & E2).
  apply m_seq_sound in H as (y3 & w3 & H & E3).
  apply m_seq_sound in H as (y4 & w4 & H & E4).
  apply m_seq_sound in H as (y5 & w5 & H & E5).
  apply m_seq_sound in H as (y6 & w6 & H & E6).
  destruct y6 as [e6 v6 c6]. rewrite close_match in H.
  destruct (str_eqb v6 fence3) eqn:Q; [|discriminate].
  apply str_eqb_eq in Q. cbn [rest] in *. subst v6.
  rewrite E6 in E5. rewrite E5 in E4. rewrite E4 in E3. rewrite E3 in E2.
  rewrite E2 in E1. rewrite E1.
  change (backtick :: backtick :: backtick :: ?l) with (fence3 ++ l).
  replace (w1 ++ w2 ++ w3 ++ w4 ++ w5 ++ w6 ++ fence3)
    with ((w1 ++ w2 ++ w3 ++ w4 ++ w5 ++ w6) ++ fence3)
    by now rewrite <- !app_assoc.
  apply fenced_intro.
Qed.

Lemma exec_from_later (s : str) :
  forall i, exec_from fenceRegex (S i) s = None.
Proof.
  induction s as [|c s IH]; intros i; cbn [exec_from].
  - reflexivity.
  - change (m fenceRegex (State (S i) (c :: s) no_captures) (fun y => Some y))
      with (@None state). apply IH.
Qed.

(** [String_match] on [fenceRegex], in closed form. *)
Lemma String_match_unfenced (s : str) :
  fenced s = false -> String_match s fenceRegex = None.
Proof.
  intros H. unfold String_match, exec.
  destruct s as [|c s]; cbn [exec_from];
    match goal with
    | |- context [m fenceRegex ?x ?k] => destruct (m fenceRegex x k) eqn:M
    end;
    try (apply fence_match_sound in M; congruence); try reflexivity.
  apply exec_from_later.
Qed.

Lemma String_match_fenced (r X : str) :
  dropWhile is_space (dropWhile is_word r) = X ++ fence3 ->
  exists match_,
    String_match (fence3 ++ r) fenceRegex = Some match_
    /\ match_ 2 = Some (trimEnd X).
Proof.
  intros HX. destruct (fence_match_some r X HX) as (z & Hz & Hc).
  unfold String_match, exec.
  change (fence3 ++ r) with (backtick :: backtick :: backtick :: r) in *.
  cbn [exec_from]. rewrite Hz. eexists. split; [reflexivity|]. exact Hc.
Qed.

(* ================================================================== *)
(** * Facts on numbers *)
(* ================================================================== *)

Lemma SFcompare_antisym (x y : number) (c : comparison) :
  SFcompare x y = Some c -> SFcompare y x = Some (CompOpp c).
Proof.
  destruct x as [sx|sx| |sx mx ex], y as [sy|sy| |sy my ey]; simpl;
    try discriminate; intros H; inversion H; subst; clear H;
    try (destruct sx; reflexivity); try (destruct sy; reflexivity);
    try (destruct sx, sy; reflexivity).
  f_equal. destruct sx, sy; try reflexivity.
  - rewrite (Z.compare_antisym ex ey).
    destruct (Z.compare ex ey); simpl; try reflexivity.
    now rewrite (Pos.compare_cont_antisym mx my Eq).
  - rewrite (Z.compare_antisym ex ey).
    destruct (Z.compare ex ey); simpl; try reflexivity.
    now rewrite (Pos.compare_cont_antisym mx my Eq).
Qed.

Lemma lt_le (x y : number) : lt x y = true -> le x y = true.
Proof. unfold lt, le, SFltb, SFleb. now destruct (SFcompare x y) as [[]|]. Qed.

Lemma lt_asym (x y : number) : lt x y = true -> lt y x = false.
Proof.
  unfold lt, SFltb. destruct (SFcompare x y) as [[]|] eqn:E; try discriminate.
  intros _. now rewrite (SFcompare_antisym _ _ _ E).
Qed.

Lemma lt_not_nan (x y : number) : lt x y = true -> is_nan x = false.
Proof. destruct x; [reflexivity..|discriminate|reflexivity]. Qed.

Lemma lt_not_nan_r (x y : number) : lt x y = true -> is_nan y = false.
Proof. destruct x, y; try reflexivity; discriminate. Qed.

Lemma le_not_nan (x y : number) : le x y = true -> is_nan x = false.
Proof. destruct x; [reflexivity..|discriminate|reflexivity]. Qed.

(** [===] with 100 is identity: 100 has one representation. *)
Lemma compare_finite_eq (x : number) (M : positive) (E : Z) :
  SFcompare x (S754_finite false M E) = Some Eq -> x = S754_finite false M E.
Proof.
  destruct x as [s|s| |s m e]; unfold SFcompare; try discriminate.
  - destruct s; discriminate.
  - destruct s; [discriminate|].
    destruct (Z.compare_spec e E) as [->| |]; try discriminate.
    intros H. injection H as H1. apply Pos.compare_eq in H1. now subst.
Qed.

Lemma compare_100_eq (x : number) :
  SFcompare x hundred = Some Eq -> x = hundred.
Proof. apply compare_finite_eq. Qed.

Lemma compare_0_eq (x : number) :
  SFcompare zero x = Some Eq -> exists s, x = S754_zero s.
Proof.
  unfold zero.
  destruct x as [s|s| |s m e]; simpl; try discriminate.
  - now exists s.
  - destruct s; discriminate.
  - destruct s; discriminate.
Qed.

(** [Math.max(0, Math.min(100, x))], unfolded. *)
Lemma clamp_unfold (x : number) :
  clamp x =
  if is_nan x then NaN
  else let y := if lt x hundred then x else hundred in
       if lt zero y then y else zero.
Proof.
  unfold clamp, Math_max, Math_min. cbn [existsb fold_left].
  change (is_nan hundred) with false.
  change (is_nan zero) with false.
  change (is_neg_zero hundred) with false.
  change (lt hundred Infinity) with true.
  change (is_pos_zero hundred) with false.
  change (is_pos_zero zero) with true.
  change (is_neg_zero (S754_infinity true)) with false.
  change (lt (S754_infinity true) zero) with true.
  change (is_neg_zero zero) with false.
  destruct (is_nan x) eqn:N; cbn [orb andb]; [reflexivity|].
  rewrite !andb_false_r.
  assert (Hy : is_nan (if lt x hundred then x else hundred) = false)
    by now destruct (lt x hundred).
  now rewrite Hy.
Qed.

Lemma clamp_below (x : number) : lt x zero = true -> clamp x = zero.
Proof.
  intros H. rewrite clamp_unfold, (lt_not_nan _ _ H). cbv zeta.
  destruct x as [s|s| |s m e]; try discriminate.
  - destruct s; [reflexivity | discriminate].
  - destruct s; [reflexivity | discriminate].
Qed.

Lemma clamp_above (x : number) : lt hundred x = true -> clamp x = hundred.
Proof.
  intros H. rewrite clamp_unfold, (lt_not_nan_r _ _ H), (lt_asym _ _ H).
  reflexivity.
Qed.

Lemma clamp_within (x : number) :
  le zero x = true -> le x hundred = true ->
  number_eq (clamp x) x = true /\ (is_neg_zero x = false -> clamp x = x).
Proof.
  intros H0 H100. rewrite clamp_unfold, (le_not_nan _ _ H100). cbv zeta.
  assert (Hy : (if lt x hundred then x else hundred) = x).
  { unfold lt, le, SFltb, SFleb in *.
    destruct (SFcompare x hundred) as [[]|] eqn:E; try discriminate;
      [|reflexivity].
    symmetry. now apply compare_100_eq. }
  rewrite Hy. unfold lt, le, SFltb, SFleb in *.
  destruct (SFcompare zero x) as [[]|] eqn:E; try discriminate.
  - destruct (compare_0_eq _ E) as [s ->]. split; [reflexivity|].
    destruct s; [discriminate | reflexivity].
  - split; [|reflexivity]. unfold number_eq, SFeqb.
    destruct x as [s|s| |s m e]; try discriminate; try reflexivity.
    + now destruct s.
    + destruct s; [discriminate E|]. simpl.
      now rewrite Z.compare_refl, Pos.compare_cont_refl.
Qed.

(** The clamped value of a number that is not NaN lies in [0, 100]. *)
Lemma clamp_range (x : number) :
  is_nan x = false ->
  le zero (clamp x) = true /\ le (clamp x) hundred = true.
Proof.
  intros N. rewrite clamp_unfold, N. cbv zeta.
  destruct (lt x hundred) eqn:L.
  - destruct (lt zero x) eqn:L0.
    + split; now apply lt_le.
    + split; reflexivity.
  - split; reflexivity.
Qed.

Lemma clamp_integer (x : number) :
  is_integer x = true -> is_integer (clamp x) = true.
Proof.
  intros H. rewrite clamp_unfold. destruct (is_nan x) eqn:N.
  - destruct x; discriminate.
  - cbv zeta. destruct (lt x hundred).
    + now destruct (lt zero x).
    + reflexivity.
Qed.

(** Rounding never produces NaN. *)
Lemma iter_pos_inv {A : Type} (P : A -> Prop) (f : A -> A) :
  (forall y, P y -> P (f y)) -> forall n x, P x -> P (iter_pos f n x).
Proof. intros Hf. induction n; simpl; auto. Qed.

Lemma shr_1_nonneg (mrs : shr_record) :
  (0 <= shr_m mrs)%Z -> (0 <= shr_m (shr_1 mrs))%Z.
Proof.
  destruct mrs as [mm r s]. destruct mm as [|p|p]; simpl.
  - lia.
  - destruct p; simpl; lia.
  - lia.
Qed.

Lemma shr_fexp_nonneg (mx ex : Z) (lx : location) :
  (0 <= mx)%Z -> (0 <= shr_m (fst (shr_fexp prec emax mx ex lx)))%Z.
Proof.
  intros H. unfold shr_fexp, shr.
  assert (H0 : (0 <= shr_m (shr_record_of_loc mx lx))%Z)
    by (destruct lx as [|[]]; exact H).
  destruct (fexp prec emax (Zdigits2 mx + ex) - ex)%Z; simpl; try exact H0.
  apply iter_pos_inv; [apply shr_1_nonneg | exact H0].
Qed.

Lemma round_nearest_even_nonneg (mx : Z) (lx : location) :
  (0 <= mx)%Z -> (0 <= round_nearest_even mx lx)%Z.
Proof.
  intros H. destruct lx as [|[]]; simpl; try lia.
  destruct (Z.even mx); lia.
Qed.

Lemma binary_round_aux_not_nan (sx : bool) (mx ex : Z) (lx : location) :
  (0 <= mx)%Z -> is_nan (binary_round_aux prec emax sx mx ex lx) = false.
Proof.
  intros H. unfold binary_round_aux.
  pose proof (shr_fexp_nonneg mx ex lx H) as H1.
  destruct (shr_fexp prec emax mx ex lx) as [mrs' e']. simpl in H1.
  pose proof (shr_fexp_nonneg _ e' loc_Exact
                (round_nearest_even_nonneg _ (loc_of_shr_record mrs') H1)) as H2.
  destruct (shr_fexp prec emax _ e' loc_Exact) as [mrs'' e'']. simpl in H2.
  destruct (shr_m mrs''); [reflexivity| |lia].
  now destruct (Z.leb e'' (emax - prec)).
Qed.

Lemma to_double_not_nan (neg : bool) (M E : Z) :
  is_nan (JSON.to_double neg M E) = false.
Proof.
  unfold JSON.to_double. destruct (M =? 0)%Z; [reflexivity|].
  destruct (0 <=? E)%Z.
  - unfold binary_normalize, binary_round.
    destruct ((if neg then - M else M) * 10 ^ E)%Z; [reflexivity| |];
      match goal with
      | |- context [shl_align ?a ?b ?c] => destruct (shl_align a b c)
      end; apply binary_round_aux_not_nan; lia.
  - unfold SFdiv, SFdiv_core_binary.
    match goal with
    | |- context [Z.div_eucl ?a ?b] =>
        pose proof (Z.div_pos a b) as Hq; unfold Z.div in Hq;
        destruct (Z.div_eucl a b) as [q r]
    end.
    apply binary_round_aux_not_nan. apply Hq; [|lia].
    match goal with
    | |- context [match ?s with Z0 => _ | Zpos _ => _ | Zneg _ => _ end] =>
        destruct s eqn:S
    end; try lia.
    apply Z.shiftl_nonneg. lia.
Qed.

(* ================================================================== *)
(** * De-fencing *)
(* ================================================================== *)

Lemma space_not_word (c : cu) : is_space c = true -> is_word c = false.
Proof. intros H. class_lia. Qed.

Lemma ws_is_space (c : cu) : JSON.is_ws c = true -> is_space c = true.
Proof.
  intros H. destruct (is_space c) eqn:E; [reflexivity|]. exfalso. class_lia.
Qed.

Lemma dropWhile_stop (p : cu -> bool) (c : cu) (s : str) :
  p c = false -> dropWhile p (c :: s) = c :: s.
Proof. intros H. simpl. now rewrite H. Qed.

Lemma defence_unfenced (t : str) :
  fenced (trim t) = false -> defence t = trim t.
Proof. intros H. unfold defence. now rewrite String_match_unfenced. Qed.

Lemma defence_fenced (t r X : str) :
  trim t = fence3 ++ r ->
  dropWhile is_space (dropWhile is_word r) = X ++ fence3 ->
  defence t = match trimEnd X with
              | [] => trim t
              | c :: b => trim (c :: b)
              end.
Proof.
  intros Ht HX. unfold defence.
  destruct (String_match_fenced r X HX) as (mt & Hm & H2).
  rewrite Ht, Hm, H2. reflexivity.
Qed.

Lemma dropWhile_keeps_fence (p : cu -> bool) (W : str) :
  p backtick = false -> exists X, dropWhile p (W ++ fence3) = X ++ fence3.
Proof.
  intros Hp. destruct (forallb p W) eqn:E.
  - exists []. rewrite dropWhile_all by exact E.
    unfold fence3. now rewrite dropWhile_stop.
  - exists (dropWhile p W). now apply dropWhile_some.
Qed.

(** De-fencing in closed form on every fenced text: the text after the
    opening run loses its leading word characters and white space and its
    closing run; what is left, without its trailing white space, replaces
    the text unless it is empty. *)
Lemma defence_fenced_form (t : str) :
  fenced (trim t) = true ->
  exists r X,
    trim t = fence3 ++ r
    /\ dropWhile is_space (dropWhile is_word r) = X ++ fence3
    /\ defence t = match trimEnd X with
                   | [] => trim t
                   | c :: b => c :: b
                   end.
Proof.
  intros H. destruct (fenced_elim _ H) as [W HW].
  destruct (dropWhile_keeps_fence is_word W eq_refl) as [X1 H1].
  destruct (dropWhile_keeps_fence is_space X1 eq_refl) as [X H2].
  exists (W ++ fence3), X. split; [exact HW|].
  assert (HX : dropWhile is_space (dropWhile is_word (W ++ fence3)) = X ++ fence3)
    by now rewrite H1.
  split; [exact HX|].
  rewrite (defence_fenced t _ _ HW HX).
  destruct (trimEnd X) as [|c b] eqn:T; [reflexivity|].
  assert (Hc : is_space c = false).
  { destruct X as [|d X']; [discriminate|].
    assert (Hd : is_space d = false).
    { destruct (dropWhile is_word (W ++ fence3)) as [|e l] eqn:D; [discriminate|].
      exact (dropWhile_head is_space (e :: l) d (X' ++ fence3) HX). }
    pose proof (trimEnd_head (d :: X') d eq_refl Hd) as Hh.
    rewrite T in Hh. simpl in Hh. congruence. }
  unfold trim. rewrite (trimStart_stop (c :: b) c eq_refl Hc).
  rewrite <- T. apply trimEnd_idem.
Qed.

Lemma not_all_space (body : str) :
  forallb is_space body = false <-> trim body <> [].
Proof.
  split.
  - intros H T. unfold trim in T. apply trimEnd_nil_all in T.
    destruct (trimStart body) as [|c r] eqn:D.
    + apply dropWhile_nil_all in D. congruence.
    + apply dropWhile_head in D. simpl in T. now rewrite D in T.
  - intros H. destruct (forallb is_space body) eqn:E; [|reflexivity].
    apply dropWhile_nil_all in E. unfold trim, trimStart in H.
    rewrite E in H. now contradiction H.
Qed.

(** The remainder of a fenced text: a tag of word characters, white space
    of at least one unit, a body with a unit that is not white space, white
    space, and the closing run. *)
Lemma fence_remainder (tag body ws1 ws2 : str) (w : cu) :
  forallb is_word tag = true ->
  is_space w = true -> forallb is_space ws1 = true ->
  forallb is_space body = false ->
  dropWhile is_space
    (dropWhile is_word (tag ++ (w :: ws1) ++ body ++ ws2 ++ fence3))
  = (trimStart body ++ ws2) ++ fence3.
Proof.
  intros Htag Hw Hws1 Hbody.
  rewrite dropWhile_all by exact Htag.
  change ((w :: ws1) ++ body ++ ws2 ++ fence3)
    with (w :: (ws1 ++ body ++ ws2 ++ fence3)).
  rewrite dropWhile_stop by now apply space_not_word.
  change (w :: (ws1 ++ body ++ ws2 ++ fence3))
    with ((w :: ws1) ++ body ++ ws2 ++ fence3).
  rewrite dropWhile_all by (simpl; now rewrite Hw).
  rewrite dropWhile_some by exact Hbody.
  unfold trimStart. now rewrite app_assoc.
Qed.

Lemma defence_fence_general (t tag ws1 body ws2 : str) (w : cu) :
  forallb is_word tag = true ->
  is_space w = true -> forallb is_space ws1 = true ->
  forallb is_space ws2 = true ->
  forallb is_space body = false ->
  trim t = fence3 ++ tag ++ (w :: ws1) ++ body ++ ws2 ++ fence3 ->
  defence t = trim body.
Proof.
  intros Htag Hw Hws1 Hws2 Hbody Ht.
  rewrite (defence_fenced t _ _ Ht
             (fence_remainder tag body ws1 ws2 w Htag Hw Hws1 Hbody)).
  rewrite trimEnd_app_spaces by exact Hws2.
  change (trimEnd (trimStart body)) with (trim body).
  destruct (trim body) as [|c b] eqn:T.
  - apply not_all_space in Hbody. contradiction.
  - rewrite <- T. apply trim_idem.
Qed.

(** A text that starts and ends with a unit that is not white space is its
    own trimmed form. *)
Lemma trim_fixed (c : cu) (s : str) (d : cu) :
  is_space c = false -> is_space d = false -> trim (c :: s ++ [d]) = c :: s ++ [d].
Proof.
  intros Hc Hd. unfold trim.
  rewrite (trimStart_stop (c :: s ++ [d]) c eq_refl Hc).
  unfold trimEnd.
  assert (R : rev (c :: s ++ [d]) = d :: rev (c :: s)).
  { change (c :: s ++ [d]) with ((c :: s) ++ [d]). now rewrite rev_app_distr. }
  rewrite R, dropWhile_stop by exact Hd.
  rewrite <- R. apply rev_involutive.
Qed.

Lemma trim_fence (tag body : str) : trim (fence tag body) = fence tag body.
Proof.
  unfold fence, fence3.
  replace ([backtick; backtick; backtick] ++ tag ++ [LF] ++ body ++ [LF]
           ++ [backtick; backtick; backtick])
    with (backtick :: ([backtick; backtick] ++ tag ++ [LF] ++ body ++ [LF]
                       ++ [backtick; backtick]) ++ [backtick])
    by (simpl; repeat (rewrite <- app_assoc; simpl); reflexivity).
  now apply trim_fixed.
Qed.

(** De-fencing a wrapped body gives the trimmed body. *)
Lemma defence_fence (tag body : str) :
  forallb is_word tag = true -> forallb is_space body = false ->
  defence (fence tag body) = trim body.
Proof.
  intros Htag Hbody.
  apply (defence_fence_general (fence tag body) tag [] body [LF] LF);
    try reflexivity; try assumption.
  apply trim_fence.
Qed.

(* ================================================================== *)
(** * The parser *)
(* ================================================================== *)

Lemma strip_prefix_head (p : cu) (pre : str) (c : cu) (s r : str) :
  JSON.strip_prefix (p :: pre) (c :: s) = Some r -> c = p.
Proof.
  simpl. destruct (N.eqb_spec p c); [congruence | discriminate].
Qed.

Lemma parse_value_start (fuel : nat) (s : str) (r : value * str) :
  JSON.parse_value fuel s = Some r ->
  exists c s1, JSON.skip_ws s = c :: s1 /\ is_value_start c = true.
Proof.
  destruct fuel as [|fuel]; [discriminate|]. cbn [JSON.parse_value].
  destruct (JSON.skip_ws s) as [|c s1]; [discriminate|].
  intros H. exists c, s1. split; [reflexivity|]. unfold is_value_start.
  destruct (N.eqb c 123); [reflexivity|].
  destruct (N.eqb c 91); [reflexivity|].
  unfold JSON.quote in H. destruct (N.eqb c 34); [reflexivity|].
  destruct (N.eqb c 45); [reflexivity|].
  destruct (JSON.is_digit c); [reflexivity|]. cbn [orb] in *.
  destruct (JSON.strip_prefix (u "true") (c :: s1)) eqn:T.
  { apply strip_prefix_head in T. subst c. reflexivity. }
  destruct (JSON.strip_prefix (u "false") (c :: s1)) eqn:F.
  { apply strip_prefix_head in F. subst c. reflexivity. }
  destruct (JSON.strip_prefix (u "null") (c :: s1)) eqn:Nl; [|discriminate].
  apply strip_prefix_head in Nl. subst c. reflexivity.
Qed.

Lemma value_start_not_space (c : cu) :
  is_value_start c = true -> is_space c = false /\ c <> backtick.
Proof.
  intros H. split.
  - apply not_true_is_false. intros S. unfold is_value_start in H. class_lia.
  - intros ->. discriminate.
Qed.

Lemma dropWhile_weaker (p q : cu -> bool) (s : str) :
  (forall c, q c = true -> p c = true) ->
  dropWhile p (dropWhile q s) = dropWhile p s.
Proof.
  intros Hpq. induction s as [|c s IH]; [reflexivity|]. simpl.
  destruct (q c) eqn:Q; [now rewrite (Hpq c Q)|reflexivity].
Qed.

(** A text [JSON.parse] accepts has a first unit after its white space,
    and that unit is not a backtick: the trimmed text is not fenced. *)
Lemma parse_trim (s : str) (v : value) :
  JSON.parse s = Some v ->
  forallb is_space s = false /\ fenced (trim s) = false.
Proof.
  unfold JSON.parse. intros H.
  destruct (JSON.parse_value (2 * length s) s) as [r|] eqn:P; [|discriminate].
  destruct (parse_value_start _ _ _ P) as (c & s1 & Hs & Hc).
  apply value_start_not_space in Hc as [Hsp Hbt].
  assert (Ht : trimStart s = c :: s1).
  { unfold trimStart.
    rewrite <- (dropWhile_weaker is_space JSON.is_ws s ws_is_space).
    unfold JSON.skip_ws in Hs. rewrite Hs. now apply dropWhile_stop. }
  split.
  - destruct (forallb is_space s) eqn:E; [|reflexivity].
    apply dropWhile_nil_all in E. unfold trimStart in Ht. congruence.
  - unfold trim. rewrite Ht.
    pose proof (trimEnd_head (c :: s1) c eq_refl Hsp) as Hh.
    destruct (trimEnd (c :: s1)) as [|a [|b [|d r']]]; try reflexivity.
    simpl in Hh. injection Hh as ->. cbn [fenced].
    destruct (N.eqb_spec c backtick); [contradiction | reflexivity].
Qed.

(** A text that starts with a backtick is not JSON. *)
Lemma parse_backtick (s : str) : JSON.parse (backtick :: s) = None.
Proof.
  unfold JSON.parse.
  destruct (JSON.parse_value _ (backtick :: s)) as [r|] eqn:P; [|reflexivity].
  destruct (parse_value_start _ _ _ P) as (c & s1 & Hs & Hc).
  change (JSON.skip_ws (backtick :: s)) with (backtick :: s) in Hs.
  injection Hs as <- _. discriminate.
Qed.

Lemma parse_number_not_nan (s : str) (n : number) (r : str) :
  JSON.parse_number s = Some (n, r) -> is_nan n = false.
Proof.
  unfold JSON.parse_number. intros H.
  repeat match type of H with
         | (let '(_, _) := ?x in _) = _ => destruct x
         | match ?x with _ => _ end = _ => destruct x; try discriminate H
         end;
    injection H as <- _; apply to_double_not_nan.
Qed.

Lemma set_prop_no_nan (k : str) (v : value) (ps : list (str * value)) :
  no_nan v = true -> props_no_nan ps = true ->
  props_no_nan (set_prop k v ps) = true.
Proof.
  intros Hv. unfold props_no_nan.
  induction ps as [|[k' v'] ps IH]; simpl; intros H.
  - now rewrite Hv.
  - apply andb_true_iff in H as [H1 H2].
    destruct (str_eqb k k'); simpl.
    + now rewrite Hv, H2.
    + now rewrite H1, IH.
Qed.

Lemma lookup_no_nan (k : str) (ps : list (str * value)) (v : value) :
  props_no_nan ps = true -> lookup k ps = Some v -> no_nan v = true.
Proof.
  unfold props_no_nan.
  induction ps as [|[k' v'] ps IH]; simpl; [discriminate|]. intros H L.
  apply andb_true_iff in H as [H1 H2].
  destruct (str_eqb k k'); [congruence | auto].
Qed.

(** [JSON.parse] never builds NaN. *)
Lemma parse_value_no_nan (fuel : nat) :
  (forall s v r, JSON.parse_value fuel s = Some (v, r) -> no_nan v = true)
  /\ (forall acc s v r, forallb no_nan acc = true ->
        JSON.parse_elements fuel acc s = Some (v, r) -> no_nan v = true)
  /\ (forall acc s v r, props_no_nan acc = true ->
        JSON.parse_members fuel acc s = Some (v, r) -> no_nan v = true).
Proof.
  induction fuel as [|fuel (IHv & IHe & IHm)];
    [repeat split; intros; discriminate|].
  split; [|split].
  - intros s v r H. cbn [JSON.parse_value] in H.
    destruct (JSON.skip_ws s) as [|c s1]; [discriminate|].
    destruct (N.eqb c 123).
    { destruct (JSON.skip_ws s1) as [|d s2]; [discriminate|].
      destruct (N.eqb d 125); [now injection H as <- _|].
      now apply (IHm [] (d :: s2) v r). }
    destruct (N.eqb c 91).
    { destruct (JSON.skip_ws s1) as [|d s2]; [discriminate|].
      destruct (N.eqb d 93); [now injection H as <- _|].
      now apply (IHe [] (d :: s2) v r). }
    destruct (N.eqb c JSON.quote).
    { destruct (JSON.parse_chars s1) as [[t s2]|]; [|discriminate].
      now injection H as <- _. }
    destruct (N.eqb c 45 || JSON.is_digit c).
    { destruct (JSON.parse_number (c :: s1)) as [[n s2]|] eqn:P; [|discriminate].
      injection H as <- _. simpl. now rewrite (parse_number_not_nan _ _ _ P). }
    break_hyp H; now injection H as <- _.
  - intros acc s v r Hacc H. cbn [JSON.parse_elements] in H.
    destruct (JSON.parse_value fuel s) as [[v1 s1]|] eqn:P; [|discriminate].
    apply IHv in P.
    assert (Hacc' : forallb no_nan (acc ++ [v1]) = true)
      by (rewrite forallb_app; simpl; now rewrite Hacc, P).
    destruct (JSON.skip_ws s1) as [|c s2]; [discriminate|].
    destruct (N.eqb c 44); [now apply (IHe _ _ _ _ Hacc' H)|].
    destruct (N.eqb c 93); [|discriminate].
    now injection H as <- _.
  - intros acc s v r Hacc H. cbn [JSON.parse_members] in H.
    destruct s as [|q s0]; [discriminate|].
    destruct (N.eqb q JSON.quote); [|discriminate].
    destruct (JSON.parse_chars s0) as [[k s1]|]; [|discriminate].
    destruct (JSON.skip_ws s1) as [|c s2]; [discriminate|].
    destruct (N.eqb c 58); [|discriminate].
    destruct (JSON.parse_value fuel s2) as [[v1 s3]|] eqn:P; [|discriminate].
    apply IHv in P. pose proof (set_prop_no_nan k v1 acc P Hacc) as Hacc'.
    destruct (JSON.skip_ws s3) as [|d s4]; [discriminate|].
    destruct (N.eqb d 44); [now apply (IHm _ _ _ _ Hacc' H)|].
    destruct (N.eqb d 125); [|discriminate].
    now injection H as <- _.
Qed.

Lemma parse_no_nan (s : str) (v : value) :
  JSON.parse s = Some v -> no_nan v = true.
Proof.
  unfold JSON.parse. intros H.
  destruct (JSON.parse_value (2 * length s) s) as [[w r]|] eqn:P; [|discriminate].
  destruct (JSON.skip_ws r); [|discriminate]. injection H as <-.
  exact (proj1 (parse_value_no_nan _) _ _ _ P).
Qed.

(** ** The fuel of the parser is enough *)

Lemma dropWhile_length (p : cu -> bool) (s : str) :
  length (dropWhile p s) <= length s.
Proof.
  induction s as [|c s IH]; simpl; [lia|]. destruct (p c); simpl; lia.
Qed.

Lemma takeWhile_cons_length (p : cu -> bool) (s : str) (c : cu) (t : str) :
  takeWhile p s = c :: t -> length (dropWhile p s) < length s.
Proof.
  destruct s as [|d s]; simpl; [discriminate|].
  destruct (p d); [|discriminate]. intros _.
  pose proof (dropWhile_length p s). lia.
Qed.

Lemma strip_prefix_length (pre s r : str) :
  JSON.strip_prefix pre s = Some r -> length s = length pre + length r.
Proof.
  revert s. induction pre as [|p pre IH]; intros s; simpl.
  - now intros [= ->].
  - destruct s as [|c s]; [discriminate|].
    destruct (N.eqb p c); [|discriminate]. intros H. apply IH in H.
    simpl. lia.
Qed.

Lemma prepend_inv (c : cu) (x : option (str * str)) (t r : str) :
  JSON.prepend c x = Some (t, r) -> exists t', x = Some (t', r).
Proof.
  destruct x as [[t' r']|]; simpl; [|discriminate].
  intros [= _ <-]. now exists t'.
Qed.

Lemma parse_chars_shorter (n : nat) :
  forall s t r, length s <= n ->
                JSON.parse_chars s = Some (t, r) -> length r < length s.
Proof.
  induction n as [|n IH]; intros s t r Hn H.
  - destruct s; [discriminate | simpl in Hn; lia].
  - destruct s as [|c s']; [discriminate|]. cbn [JSON.parse_chars] in H.
    simpl in Hn. simpl length.
    destruct (N.eqb c JSON.quote); [injection H as _ <-; lia|].
    destruct (N.eqb c JSON.backslash).
    + destruct s' as [|e s'']; [discriminate|]. simpl in Hn. simpl length.
      destruct (N.eqb e 117).
      * destruct s'' as [|h1 [|h2 [|h3 [|h4 s5]]]]; try discriminate.
        destruct (JSON.hex4 h1 h2 h3 h4); [|discriminate].
        apply prepend_inv in H as [t' H]. simpl in Hn.
        apply IH in H; simpl; lia.
      * destruct (JSON.escape e); [|discriminate].
        apply prepend_inv in H as [t' H]. apply IH in H; lia.
    + destruct (N.ltb c 32); [discriminate|].
      apply prepend_inv in H as [t' H]. apply IH in H; lia.
Qed.

Lemma parse_sign_length (s : str) :
  length (snd (JSON.parse_sign s)) <= length s.
Proof.
  destruct s as [|c r]; simpl; [lia|]. destruct (N.eqb c 45); simpl; lia.
Qed.

Lemma parse_int_length (s ds r : str) :
  JSON.parse_int s = Some (ds, r) -> length r < length s.
Proof.
  destruct s as [|c s']; [discriminate|]. unfold JSON.parse_int.
  destruct (N.eqb c 48); [intros [= _ <-]; simpl; lia|].
  destruct (takeWhile JSON.is_digit (c :: s')) as [|d t] eqn:T; [discriminate|].
  intros [= _ <-]. exact (takeWhile_cons_length _ _ _ _ T).
Qed.

Lemma parse_frac_length (s ds r : str) :
  JSON.parse_frac s = Some (ds, r) -> length r <= length s.
Proof.
  destruct s as [|c s']; [intros [= _ <-]; simpl; lia|]. unfold JSON.parse_frac.
  destruct (N.eqb c 46); [|intros [= _ <-]; lia].
  destruct (takeWhile JSON.is_digit s'); [discriminate|].
  intros [= _ <-]. pose proof (dropWhile_length JSON.is_digit s'). simpl. lia.
Qed.

Lemma parse_exp_length (s : str) (ex : Z) (r : str) :
  JSON.parse_exp s = Some (ex, r) -> length r <= length s.
Proof.
  destruct s as [|c s']; [intros [= _ <-]; simpl; lia|]. unfold JSON.parse_exp.
  destruct (N.eqb c 101 || N.eqb c 69); [|intros [= _ <-]; lia].
  destruct s' as [|g r0]; [discriminate|].
  destruct (N.eqb g 45); [|destruct (N.eqb g 43)]; cbv beta iota zeta;
    match goal with
    | |- match takeWhile _ ?r' with _ => _ end = _ -> _ =>
        destruct (takeWhile JSON.is_digit r'); [discriminate|];
        intros [= _ <-]; pose proof (dropWhile_length JSON.is_digit r');
        simpl in *; lia
    end.
Qed.

Lemma parse_number_shorter (s : str) (n : number) (r : str) :
  JSON.parse_number s = Some (n, r) -> length r < length s.
Proof.
  unfold JSON.parse_number. pose proof (parse_sign_length s) as Hs.
  destruct (JSON.parse_sign s) as [neg s1]. simpl in Hs.
  destruct (JSON.parse_int s1) as [[int s2]|] eqn:I; [|discriminate].
  destruct (JSON.parse_frac s2) as [[fr s3]|] eqn:F; [|discriminate].
  destruct (JSON.parse_exp s3) as [[ex s4]|] eqn:X; [|discriminate].
  intros [= _ <-]. apply parse_int_length in I. apply parse_frac_length in F.
  apply parse_exp_length in X. lia.
Qed.

(** Every successful call consumes at least one unit. *)
Lemma parse_value_shorter (fuel : nat) :
  (forall s v r, JSON.parse_value fuel s = Some (v, r) -> length r < length s)
  /\ (forall acc s v r,
        JSON.parse_elements fuel acc s = Some (v, r) -> length r < length s)
  /\ (forall acc s v r,
        JSON.parse_members fuel acc s = Some (v, r) -> length r < length s).
Proof.
  induction fuel as [|fuel (IHv & IHe & IHm)];
    [repeat split; intros; discriminate|].
  split; [|split].
  - intros s v r H. cbn [JSON.parse_value] in H.
    pose proof (dropWhile_length JSON.is_ws s) as Hw. fold (JSON.skip_ws s) in Hw.
    destruct (JSON.skip_ws s) as [|c s1]; [discriminate|]. simpl in Hw.
    destruct (N.eqb c 123).
    { pose proof (dropWhile_length JSON.is_ws s1) as Hw1.
      fold (JSON.skip_ws s1) in Hw1.
      destruct (JSON.skip_ws s1) as [|d s2]; [discriminate|]. simpl in Hw1.
      destruct (N.eqb d 125); [injection H as _ <-; lia|].
      apply IHm in H. simpl in H. lia. }
    destruct (N.eqb c 91).
    { pose proof (dropWhile_length JSON.is_ws s1) as Hw1.
      fold (JSON.skip_ws s1) in Hw1.
      destruct (JSON.skip_ws s1) as [|d s2]; [discriminate|]. simpl in Hw1.
      destruct (N.eqb d 93); [injection H as _ <-; lia|].
      apply IHe in H. simpl in H. lia. }
    destruct (N.eqb c JSON.quote).
    { destruct (JSON.parse_chars s1) as [[t s2]|] eqn:C; [|discriminate].
      injection H as _ <-. apply (parse_chars_shorter _ _ _ _ (le_n _)) in C. lia. }
    destruct (N.eqb c 45 || JSON.is_digit c).
    { destruct (JSON.parse_number (c :: s1)) as [[n s2]|] eqn:P; [|discriminate].
      injection H as _ <-. apply parse_number_shorter in P. simpl in P. lia. }
    destruct (JSON.strip_prefix (u "true") (c :: s1)) eqn:T.
    { injection H as _ <-. apply strip_prefix_length in T. simpl in T. lia. }
    destruct (JSON.strip_prefix (u "false") (c :: s1)) eqn:F.
    { injection H as _ <-. apply strip_prefix_length in F. simpl in F. lia. }
    destruct (JSON.strip_prefix (u "null") (c :: s1)) eqn:Nl; [|discriminate].
    injection H as _ <-. apply strip_prefix_length in Nl. simpl in Nl. lia.
  - intros acc s v r H. cbn [JSON.parse_elements] in H.
    destruct (JSON.parse_value fuel s) as [[v1 s1]|] eqn:P; [|discriminate].
    apply IHv in P.
    pose proof (dropWhile_length JSON.is_ws s1) as Hw. fold (JSON.skip_ws s1) in Hw.
    destruct (JSON.skip_ws s1) as [|c s2]; [discriminate|]. simpl in Hw.
    destruct (N.eqb c 44); [apply IHe in H; lia|].
    destruct (N.eqb c 93); [|discriminate]. injection H as _ <-. lia.
  - intros acc s v r H. cbn [JSON.parse_members] in H.
    destruct s as [|q s0]; [discriminate|].
    destruct (N.eqb q JSON.quote); [|discriminate].
    destruct (JSON.parse_chars s0) as [[k s1]|] eqn:C; [|discriminate].
    apply (parse_chars_shorter _ _ _ _ (le_n _)) in C.
    pose proof (dropWhile_length JSON.is_ws s1) as Hw. fold (JSON.skip_ws s1) in Hw.
    destruct (JSON.skip_ws s1) as [|c s2]; [discriminate|]. simpl in Hw.
    destruct (N.eqb c 58); [|discriminate].
    destruct (JSON.parse_value fuel s2) as [[v1 s3]|] eqn:P; [|discriminate].
    apply IHv in P.
    pose proof (dropWhile_length JSON.is_ws s3) as Hw3. fold (JSON.skip_ws s3) in Hw3.
    destruct (JSON.skip_ws s3) as [|d s4]; [discriminate|]. simpl in Hw3.
    pose proof (dropWhile_length JSON.is_ws s4) as Hw4. fold (JSON.skip_ws s4) in Hw4.
    destruct (N.eqb d 44); [apply IHm in H; simpl; lia|].
    destruct (N.eqb d 125); [|discriminate]. injection H as _ <-. simpl. lia.
Qed.

(** Above twice the length of the text, the result does not depend on the
    fuel: [JSON.parse] fails only on a text that is not JSON. *)
Lemma parse_value_fuel (fuel : nat) :
  (forall fuel' s, 2 * length s <= fuel -> 2 * length s <= fuel' ->
     JSON.parse_value fuel s = JSON.parse_value fuel' s)
  /\ (forall fuel' acc s, 2 * length s + 1 <= fuel -> 2 * length s + 1 <= fuel' ->
        JSON.parse_elements fuel acc s = JSON.parse_elements fuel' acc s)
  /\ (forall fuel' acc s, 2 * length s + 1 <= fuel -> 2 * length s + 1 <= fuel' ->
        JSON.parse_members fuel acc s = JSON.parse_members fuel' acc s).
Proof.
  induction fuel as [|fuel (IHv & IHe & IHm)].
  - split; [|split; intros; lia].
    intros fuel' s H _. destruct s; [|simpl in H; lia].
    now destruct fuel'.
  - split; [|split].
    + intros fuel' s H H'.
      destruct fuel' as [|fuel'].
      { destruct s; [reflexivity | simpl in H'; lia]. }
      cbn [JSON.parse_value].
      pose proof (dropWhile_length JSON.is_ws s) as Hw. fold (JSON.skip_ws s) in Hw.
      destruct (JSON.skip_ws s) as [|c s1]; [reflexivity|]. simpl in Hw.
      destruct (N.eqb c 123).
      { pose proof (dropWhile_length JSON.is_ws s1) as Hw1.
        fold (JSON.skip_ws s1) in Hw1.
        destruct (JSON.skip_ws s1) as [|d s2]; [reflexivity|]. simpl in Hw1.
        destruct (N.eqb d 125); [reflexivity|]. apply IHm; simpl; lia. }
      destruct (N.eqb c 91); [|reflexivity].
      pose proof (dropWhile_length JSON.is_ws s1) as Hw1.
      fold (JSON.skip_ws s1) in Hw1.
      destruct (JSON.skip_ws s1) as [|d s2]; [reflexivity|]. simpl in Hw1.
      destruct (N.eqb d 93); [reflexivity|]. apply IHe; simpl; lia.
    + intros fuel' acc s H H'.
      destruct fuel' as [|fuel']; [lia|]. cbn [JSON.parse_elements].
      rewrite (IHv fuel' s) by lia.
      destruct (JSON.parse_value fuel' s) as [[v1 s1]|] eqn:P; [|reflexivity].
      apply (proj1 (parse_value_shorter fuel')) in P.
      pose proof (dropWhile_length JSON.is_ws s1) as Hw. fold (JSON.skip_ws s1) in Hw.
      destruct (JSON.skip_ws s1) as [|c s2]; [reflexivity|]. simpl in Hw.
      destruct (N.eqb c 44); [|reflexivity]. apply IHe; lia.
    + intros fuel' acc s H H'.
      destruct fuel' as [|fuel']; [lia|]. cbn [JSON.parse_members].
      destruct s as [|q s0]; [reflexivity|]. simpl in H, H'.
      destruct (N.eqb q JSON.quote); [|reflexivity].
      destruct (JSON.parse_chars s0) as [[k s1]|] eqn:C; [|reflexivity].
      apply (parse_chars_shorter _ _ _ _ (le_n _)) in C.
      pose proof (dropWhile_length JSON.is_ws s1) as Hw. fold (JSON.skip_ws s1) in Hw.
      destruct (JSON.skip_ws s1) as [|c s2]; [reflexivity|]. simpl in Hw.
      destruct (N.eqb c 58); [|reflexivity].
      rewrite (IHv fuel' s2) by lia.
      destruct (JSON.parse_value fuel' s2) as [[v1 s3]|] eqn:P; [|reflexivity].
      apply (proj1 (parse_value_shorter fuel')) in P.
      pose proof (dropWhile_length JSON.is_ws s3) as Hw3. fold (JSON.skip_ws s3) in Hw3.
      destruct (JSON.skip_ws s3) as [|d s4]; [reflexivity|]. simpl in Hw3.
      pose proof (dropWhile_length JSON.is_ws s4) as Hw4. fold (JSON.skip_ws s4) in Hw4.
      destruct (N.eqb d 44); [|reflexivity]. apply IHm; lia.
Qed.

Lemma parse_fuel (text : str) (fuel : nat) :
  2 * length text <= fuel ->
  JSON.parse_value fuel text = JSON.parse_value (2 * length text) text.
Proof. intros H. now apply (proj1 (parse_value_fuel fuel)). Qed.

(** ** Trimming as a split of the text *)

Lemma trimEnd_split (s : str) :
  exists w, s = trimEnd s ++ w /\ forallb is_space w = true.
Proof.
  induction s as [|c s (w & Hs & Hw)].
  - now exists [].
  - rewrite trimEnd_cons. destruct (trimEnd s) as [|d t] eqn:T.
    + destruct (is_space c) eqn:E.
      * exists (c :: s). split; [reflexivity|]. simpl. rewrite E.
        now apply trimEnd_nil_all.
      * exists s. split; [reflexivity|]. now apply trimEnd_nil_all.
    + exists w. split; [|exact Hw]. simpl. f_equal. exact Hs.
Qed.

Lemma trim_split (t : str) :
  exists a b, t = a ++ trim t ++ b
              /\ forallb is_space a = true /\ forallb is_space b = true.
Proof.
  destruct (trimEnd_split (trimStart t)) as (w & Hs & Hw).
  exists (takeWhile is_space t), w. repeat split.
  - unfold trim. rewrite <- Hs. symmetry. apply take_drop_While.
  - apply takeWhile_all.
  - exact Hw.
Qed.

Lemma trim_length (t : str) : length (trim t) <= length t.
Proof.
  destruct (trim_split t) as (a & b & H & _).
  rewrite H at 2. rewrite !length_app. lia.
Qed.

(** ** The parser and white space after the text

    [JSON.parse] reads the same value when white space that [trim] removes
    is cut from the end of the text: no token holds such a unit, except
    inside a string, which a quotation mark closes. *)

Lemma space_not_token (c : cu) :
  is_space c = true ->
  N.eqb c JSON.quote = false /\ N.eqb c JSON.backslash = false
  /\ JSON.is_digit c = false
  /\ N.eqb c 45 = false /\ N.eqb c 43 = false /\ N.eqb c 46 = false
  /\ N.eqb c 48 = false /\ N.eqb c 101 = false /\ N.eqb c 69 = false
  /\ N.eqb c 123 = false /\ N.eqb c 125 = false /\ N.eqb c 91 = false
  /\ N.eqb c 93 = false /\ N.eqb c 44 = false /\ N.eqb c 58 = false
  /\ N.eqb 116 c = false /\ N.eqb 102 c = false /\ N.eqb 110 c = false.
Proof.
  intros H. unfold JSON.quote, JSON.backslash.
  repeat split; class_lia.
Qed.

Lemma space_not_hex (c : cu) : is_space c = true -> JSON.hex_val c = None.
Proof.
  intros H. unfold JSON.hex_val.
  assert (A : ((48 <=? c) && (c <=? 57))%N = false) by class_lia.
  assert (B : ((97 <=? c) && (c <=? 102))%N = false) by class_lia.
  assert (C : ((65 <=? c) && (c <=? 70))%N = false) by class_lia.
  now rewrite A, B, C.
Qed.

Lemma space_not_escape (c : cu) :
  is_space c = true -> N.eqb c 117 = false /\ JSON.escape c = None.
Proof.
  intros H. split; [class_lia|]. unfold JSON.escape.
  assert (E : forall k, In k [34; 92; 47; 98; 102; 110; 114; 116]%N ->
                        N.eqb c k = false).
  { intros k Hk. simpl in Hk.
    repeat (destruct Hk as [<- | Hk]; [class_lia|]). contradiction. }
  rewrite !E by (simpl; tauto). reflexivity.
Qed.

Lemma dropWhile_app_nil (p : cu -> bool) (a b : str) :
  dropWhile p (a ++ b) = [] -> dropWhile p a = [].
Proof.
  induction a as [|c a IH]; simpl; [reflexivity|].
  destruct (p c); [exact IH | discriminate].
Qed.

Lemma dropWhile_suffix_all (p q : cu -> bool) (s : str) :
  forallb q s = true -> forallb q (dropWhile p s) = true.
Proof.
  induction s as [|c s IH]; simpl; [reflexivity|]. intros H.
  apply andb_true_iff in H as [Hc Hs].
  destruct (p c); [exact (IH Hs)|]. simpl. now rewrite Hc, Hs.
Qed.

Section AfterTheText.

Variable w : str.
Hypothesis Hw : forallb is_space w = true.

(** Skipping white space either stops inside the text, or runs through it
    and leaves units that [trim] removes. *)
Lemma skip_ws_app (x : str) :
  (exists c x', JSON.skip_ws x = c :: x'
                /\ JSON.skip_ws (x ++ w) = c :: x' ++ w)
  \/ (JSON.skip_ws x = []
      /\ forallb is_space (JSON.skip_ws (x ++ w)) = true).
Proof.
  unfold JSON.skip_ws. induction x as [|d x IH]; simpl.
  - right. split; [reflexivity|]. now apply dropWhile_suffix_all.
  - destruct (JSON.is_ws d); [exact IH|]. left. now exists d, x.
Qed.

Lemma digits_app (x : str) :
  takeWhile JSON.is_digit (x ++ w) = takeWhile JSON.is_digit x
  /\ dropWhile JSON.is_digit (x ++ w) = dropWhile JSON.is_digit x ++ w.
Proof.
  induction x as [|d x [IH1 IH2]]; simpl.
  - destruct w as [|c w']; [now split|]. simpl in Hw.
    apply andb_true_iff in Hw as [Hc _].
    destruct (space_not_token c Hc) as (_ & _ & D & _). simpl. now rewrite D.
  - destruct (JSON.is_digit d); [now rewrite IH1, IH2 | now split].
Qed.

Lemma strip_prefix_app (p : str) :
  forallb (fun c => negb (is_space c)) p = true ->
  forall x r, JSON.strip_prefix p (x ++ w) = Some r ->
              exists r2, r = r2 ++ w /\ JSON.strip_prefix p x = Some r2.
Proof.
  induction p as [|a p IH]; intros Hp x r H.
  - simpl in H. injection H as <-. now exists x.
  - simpl in Hp. apply andb_true_iff in Hp as [Ha Hp].
    apply negb_true_iff in Ha. destruct x as [|c x].
    + simpl in H. destruct w as [|c w']; [discriminate|]. simpl in Hw.
      apply andb_true_iff in Hw as [Hc _].
      destruct (N.eqb_spec a c) as [->|]; [congruence | discriminate].
    + simpl in H |- *. destruct (N.eqb a c); [|discriminate].
      exact (IH Hp x r H).
Qed.

Lemma parse_chars_space (s : str) :
  forallb is_space s = true -> JSON.parse_chars s = None.
Proof.
  induction s as [|c s IH]; [reflexivity|]. simpl forallb. intros H.
  apply andb_true_iff in H as [Hc Hs].
  destruct (space_not_token c Hc) as (Q & B & _).
  cbn [JSON.parse_chars]. rewrite Q, B.
  destruct (N.ltb c 32); [reflexivity|]. now rewrite (IH Hs).
Qed.

Lemma prepend_some (c : cu) (x : option (str * str)) (t r : str) :
  JSON.prepend c x = Some (t, r) ->
  exists t', x = Some (t', r) /\ t = c :: t'.
Proof.
  destruct x as [[t' r']|]; simpl; [|discriminate].
  intros [= <- <-]. now exists t'.
Qed.

Lemma hex4_space (h1 h2 h3 h4 : cu) :
  is_space h1 = true \/ is_space h2 = true \/ is_space h3 = true
  \/ is_space h4 = true ->
  JSON.hex4 h1 h2 h3 h4 = None.
Proof.
  unfold JSON.hex4. intros [H | [H | [H | H]]];
    rewrite (space_not_hex _ H);
    destruct (JSON.hex_val h1), (JSON.hex_val h2), (JSON.hex_val h3),
      (JSON.hex_val h4); reflexivity.
Qed.

Lemma parse_chars_app (n : nat) :
  forall x t r, length x <= n ->
    JSON.parse_chars (x ++ w) = Some (t, r) ->
    exists r2, r = r2 ++ w /\ JSON.parse_chars x = Some (t, r2).
Proof.
  induction n as [|n IH]; intros x t r Hn H.
  - destruct x; [|simpl in Hn; lia]. simpl in H.
    now rewrite (parse_chars_space w Hw) in H.
  - destruct x as [|c x].
    { simpl in H. now rewrite (parse_chars_space w Hw) in H. }
    simpl in Hn. change ((c :: x) ++ w) with (c :: (x ++ w)) in H.
    cbn [JSON.parse_chars] in H |- *.
    destruct (N.eqb c JSON.quote).
    { injection H as <- <-. now exists x. }
    destruct (N.eqb c JSON.backslash).
    + destruct x as [|e x].
      { simpl in H. destruct w as [|e w']; [discriminate|]. simpl in Hw.
        apply andb_true_iff in Hw as [He Hw'].
        destruct (space_not_escape e He) as [U E]. rewrite U, E in H.
        discriminate. }
      simpl in Hn. change ((e :: x) ++ w) with (e :: (x ++ w)) in H.
      cbv iota beta in H |- *.
      destruct (N.eqb e 117).
      * destruct x as [|h1 [|h2 [|h3 [|h4 x5]]]].
        -- simpl in H. destruct w as [|a [|b [|c' [|d w']]]]; try discriminate.
           simpl in Hw. apply andb_true_iff in Hw as [Ha _].
           rewrite hex4_space in H by auto. discriminate.
        -- simpl in H. destruct w as [|a [|b [|c' w']]]; try discriminate.
           simpl in Hw. apply andb_true_iff in Hw as [Ha _].
           rewrite hex4_space in H by auto. discriminate.
        -- simpl in H. destruct w as [|a [|b w']]; try discriminate.
           simpl in Hw. apply andb_true_iff in Hw as [Ha _].
           rewrite hex4_space in H by auto. discriminate.
        -- simpl in H. destruct w as [|a w']; try discriminate.
           simpl in Hw. apply andb_true_iff in Hw as [Ha _].
           rewrite hex4_space in H by auto. discriminate.
        -- change ((h1 :: h2 :: h3 :: h4 :: x5) ++ w)
             with (h1 :: h2 :: h3 :: h4 :: (x5 ++ w)) in H.
           cbv iota beta in H |- *.
           destruct (JSON.hex4 h1 h2 h3 h4) as [k|]; [|discriminate].
           apply prepend_some in H as (t' & H & ->).
           apply IH in H; [|simpl in Hn; lia].
           destruct H as (r2 & -> & H). exists r2. now rewrite H.
      * destruct (JSON.escape e) as [k|]; [|discriminate].
        apply prepend_some in H as (t' & H & ->).
        apply IH in H; [|lia].
        destruct H as (r2 & -> & H). exists r2. now rewrite H.
    + destruct (N.ltb c 32); [discriminate|].
      apply prepend_some in H as (t' & H & ->).
      apply IH in H; [|lia].
      destruct H as (r2 & -> & H). exists r2. now rewrite H.
Qed.

Lemma parse_sign_app (x : str) :
  JSON.parse_sign (x ++ w)
  = (fst (JSON.parse_sign x), snd (JSON.parse_sign x) ++ w).
Proof.
  destruct x as [|c x].
  - cbn [app JSON.parse_sign fst snd].
    destruct w as [|c w']; [reflexivity|].
    simpl in Hw. apply andb_true_iff in Hw as [Hc _].
    destruct (space_not_token c Hc) as (_ & _ & _ & M & _).
    unfold JSON.parse_sign. now rewrite M.
  - change ((c :: x) ++ w) with (c :: (x ++ w)). unfold JSON.parse_sign.
    now destruct (N.eqb c 45).
Qed.

Lemma parse_int_app (x ds r : str) :
  JSON.parse_int (x ++ w) = Some (ds, r) ->
  exists r2, r = r2 ++ w /\ JSON.parse_int x = Some (ds, r2).
Proof.
  destruct x as [|c x].
  - simpl. destruct w as [|c w']; [discriminate|].
    simpl in Hw. apply andb_true_iff in Hw as [Hc _].
    destruct (space_not_token c Hc) as (_ & _ & D & _ & _ & _ & Z & _).
    unfold JSON.parse_int. rewrite Z. simpl. rewrite D. discriminate.
  - change ((c :: x) ++ w) with (c :: (x ++ w)). unfold JSON.parse_int.
    destruct (N.eqb c 48); [intros [= <- <-]; now exists x|].
    change (c :: (x ++ w)) with ((c :: x) ++ w).
    destruct (digits_app (c :: x)) as [T D]. rewrite T, D.
    destruct (takeWhile JSON.is_digit (c :: x)); [discriminate|].
    intros [= <- <-]. now eexists.
Qed.

Lemma parse_frac_app (x ds r : str) :
  JSON.parse_frac (x ++ w) = Some (ds, r) ->
  exists r2, r = r2 ++ w /\ JSON.parse_frac x = Some (ds, r2).
Proof.
  destruct x as [|c x].
  - simpl. destruct w as [|c w']; [intros [= <- <-]; now exists []|].
    simpl in Hw. apply andb_true_iff in Hw as [Hc _].
    destruct (space_not_token c Hc) as (_ & _ & _ & _ & _ & P & _).
    unfold JSON.parse_frac. rewrite P. intros [= <- <-]. now exists [].
  - change ((c :: x) ++ w) with (c :: (x ++ w)). unfold JSON.parse_frac.
    destruct (N.eqb c 46).
    + destruct (digits_app x) as [T D]. rewrite T, D.
      destruct (takeWhile JSON.is_digit x); [discriminate|].
      intros [= <- <-]. now eexists.
    + intros [= <- <-]. now exists (c :: x).
Qed.

Lemma parse_exp_app (x : str) (ex : Z) (r : str) :
  JSON.parse_exp (x ++ w) = Some (ex, r) ->
  exists r2, r = r2 ++ w /\ JSON.parse_exp x = Some (ex, r2).
Proof.
  destruct x as [|c x].
  - simpl. destruct w as [|c w']; [intros [= <- <-]; now exists []|].
    simpl in Hw. apply andb_true_iff in Hw as [Hc _].
    destruct (space_not_token c Hc) as (_ & _ & _ & _ & _ & _ & _ & E1 & E2 & _).
    unfold JSON.parse_exp. rewrite E1, E2. simpl.
    intros [= <- <-]. now exists [].
  - change ((c :: x) ++ w) with (c :: (x ++ w)). unfold JSON.parse_exp.
    destruct (N.eqb c 101 || N.eqb c 69); [|intros [= <- <-]; now exists (c :: x)].
    destruct x as [|g x].
    + simpl. destruct w as [|g w']; [discriminate|].
      simpl in Hw. apply andb_true_iff in Hw as [Hg _].
      destruct (space_not_token g Hg) as (_ & _ & D & M & P & _).
      rewrite M, P. simpl. rewrite D. discriminate.
    + change ((g :: x) ++ w) with (g :: (x ++ w)). cbv beta iota.
      destruct (N.eqb g 45); [|destruct (N.eqb g 43)]; cbv beta iota zeta.
      * destruct (digits_app x) as [T D]. rewrite T, D.
        destruct (takeWhile JSON.is_digit x); [discriminate|].
        intros [= <- <-]. now eexists.
      * destruct (digits_app x) as [T D]. rewrite T, D.
        destruct (takeWhile JSON.is_digit x); [discriminate|].
        intros [= <- <-]. now eexists.
      * change (g :: (x ++ w)) with ((g :: x) ++ w).
        destruct (digits_app (g :: x)) as [T D]. rewrite T, D.
        destruct (takeWhile JSON.is_digit (g :: x)); [discriminate|].
        intros [= <- <-]. now eexists.
Qed.

Lemma parse_number_app (x : str) (n : number) (r : str) :
  JSON.parse_number (x ++ w) = Some (n, r) ->
  exists r2, r = r2 ++ w /\ JSON.parse_number x = Some (n, r2).
Proof.
  unfold JSON.parse_number. rewrite parse_sign_app.
  destruct (JSON.parse_sign x) as [neg s1]. cbn [fst snd].
  destruct (JSON.parse_int (s1 ++ w)) as [[int s2]|] eqn:I; [|discriminate].
  apply parse_int_app in I as (s2' & -> & I). rewrite I.
  destruct (JSON.parse_frac (s2' ++ w)) as [[fr s3]|] eqn:F; [|discriminate].
  apply parse_frac_app in F as (s3' & -> & F). rewrite F.
  destruct (JSON.parse_exp (s3' ++ w)) as [[ex s4]|] eqn:X; [|discriminate].
  apply parse_exp_app in X as (s4' & -> & X). rewrite X.
  intros [= <- <-]. now exists s4'.
Qed.

(** A value does not start with a unit that [trim] removes. *)
Lemma parse_value_space (fuel : nat) (c : cu) (s : str) :
  is_space c = true -> JSON.is_ws c = false ->
  JSON.parse_value fuel (c :: s) = None.
Proof.
  intros Hc Hn. destruct fuel as [|fuel]; [reflexivity|].
  cbn [JSON.parse_value]. unfold JSON.skip_ws. simpl dropWhile. rewrite Hn.
  destruct (space_not_token c Hc)
    as (Q & _ & D & M & _ & _ & _ & _ & _ & LB & _ & LK & _ & _ & _ & T & F & Nl).
  rewrite LB, LK, Q, M, D. cbn [orb].
  change (u "true") with [116; 114; 117; 101]%N.
  change (u "false") with [102; 97; 108; 115; 101]%N.
  change (u "null") with [110; 117; 108; 108]%N.
  cbn [JSON.strip_prefix]. now rewrite T, F, Nl.
Qed.

Lemma parse_members_space (fuel : nat) (acc : list (str * value)) (s : str) :
  forallb is_space s = true -> JSON.parse_members fuel acc s = None.
Proof.
  intros H. destruct fuel as [|fuel]; [reflexivity|].
  cbn [JSON.parse_members]. destruct s as [|q s]; [reflexivity|].
  simpl in H. apply andb_true_iff in H as [Hq _].
  destruct (space_not_token q Hq) as (Q & _). now rewrite Q.
Qed.

Lemma parse_app (fuel : nat) :
  (forall x v r,
      JSON.parse_value fuel (x ++ w) = Some (v, r) ->
      exists r2, r = r2 ++ w /\ JSON.parse_value fuel x = Some (v, r2))
  /\ (forall acc x v r,
        JSON.parse_elements fuel acc (x ++ w) = Some (v, r) ->
        exists r2, r = r2 ++ w /\ JSON.parse_elements fuel acc x = Some (v, r2))
  /\ (forall acc x v r,
        JSON.parse_members fuel acc (x ++ w) = Some (v, r) ->
        exists r2, r = r2 ++ w /\ JSON.parse_members fuel acc x = Some (v, r2)).
Proof.
  induction fuel as [|fuel (IHv & IHe & IHm)];
    [repeat split; intros; discriminate|].
  split; [|split].
  - intros x v r H. cbn [JSON.parse_value] in H |- *.
    destruct (skip_ws_app x) as [(c & x1 & E1 & E2) | (E1 & E2)].
    2:{ exfalso. destruct (JSON.skip_ws (x ++ w)) as [|c s1] eqn:E;
          [discriminate|].
        simpl in E2. apply andb_true_iff in E2 as [Hc _].
        pose proof (dropWhile_head _ _ _ _ E) as Hn.
        pose proof (parse_value_space (S fuel) c s1 Hc Hn) as P.
        assert (K : JSON.skip_ws (c :: s1) = c :: s1)
          by (unfold JSON.skip_ws; simpl; now rewrite Hn).
        cbn [JSON.parse_value] in P. rewrite K in P. congruence. }
    rewrite E2 in H. rewrite E1.
    destruct (N.eqb c 123).
    { destruct (skip_ws_app x1) as [(d & x2 & F1 & F2) | (F1 & F2)].
      - rewrite F2 in H. rewrite F1.
        destruct (N.eqb d 125); [injection H as <- <-; now exists x2|].
        exact (IHm [] (d :: x2) v r H).
      - exfalso. destruct (JSON.skip_ws (x1 ++ w)) as [|d s2]; [discriminate|].
        pose proof F2 as F3. simpl in F3. apply andb_true_iff in F3 as [Hd _].
        destruct (space_not_token d Hd)
          as (_ & _ & _ & _ & _ & _ & _ & _ & _ & _ & RB & _).
        rewrite RB in H. now rewrite parse_members_space in H. }
    destruct (N.eqb c 91).
    { destruct (skip_ws_app x1) as [(d & x2 & F1 & F2) | (F1 & F2)].
      - rewrite F2 in H. rewrite F1.
        destruct (N.eqb d 93); [injection H as <- <-; now exists x2|].
        exact (IHe [] (d :: x2) v r H).
      - exfalso. destruct (JSON.skip_ws (x1 ++ w)) as [|d s2] eqn:E;
          [discriminate|].
        pose proof F2 as F3. simpl in F3. apply andb_true_iff in F3 as [Hd _].
        pose proof (dropWhile_head _ _ _ _ E) as Hn.
        destruct (space_not_token d Hd)
          as (_ & _ & _ & _ & _ & _ & _ & _ & _ & _ & _ & _ & RK & _).
        rewrite RK in H. destruct fuel as [|fuel']; [discriminate|].
        cbn [JSON.parse_elements] in H.
        now rewrite (parse_value_space fuel' d s2 Hd Hn) in H. }
    destruct (N.eqb c JSON.quote).
    { destruct (JSON.parse_chars (x1 ++ w)) as [[t s2]|] eqn:C; [|discriminate].
      apply (parse_chars_app _ _ _ _ (le_n _)) in C as (s2' & -> & C).
      rewrite C. injection H as <- <-. now exists s2'. }
    destruct (N.eqb c 45 || JSON.is_digit c).
    { change (c :: x1 ++ w) with ((c :: x1) ++ w) in H.
      destruct (JSON.parse_number ((c :: x1) ++ w)) as [[n s2]|] eqn:P;
        [|discriminate].
      apply parse_number_app in P as (s2' & -> & P).
      rewrite P. injection H as <- <-. now exists s2'. }
    change (c :: x1 ++ w) with ((c :: x1) ++ w) in H.
    destruct (JSON.strip_prefix (u "true") ((c :: x1) ++ w)) as [s2|] eqn:T.
    { apply strip_prefix_app in T as (s2' & -> & T); [|reflexivity].
      rewrite T. injection H as <- <-. now exists s2'. }
    destruct (JSON.strip_prefix (u "false") ((c :: x1) ++ w)) as [s2|] eqn:F.
    { apply strip_prefix_app in F as (s2' & -> & F); [|reflexivity].
      rewrite F. injection H as <- <-.
      destruct (JSON.strip_prefix (u "true") (c :: x1)) as [s3|] eqn:T';
        [|now exists s2'].
      exfalso. clear - T T'. revert T T'. generalize (u "true").
      intros p. revert c x1 s3. induction p as [|a p IH]; intros c x1 s3 T T'.
      - discriminate.
      - simpl in T, T'. destruct (N.eqb a c); [|discriminate].
        destruct x1 as [|c1 x1].
        + destruct p; [discriminate|]. discriminate.
        + exact (IH c1 x1 s3 T T'). }
    destruct (JSON.strip_prefix (u "null") ((c :: x1) ++ w)) as [s2|] eqn:Nl;
      [|discriminate].
    apply strip_prefix_app in Nl as (s2' & -> & Nl); [|reflexivity].
    injection H as <- <-.
    assert (M : forall p s3, JSON.strip_prefix p (c :: x1) = Some s3 ->
                             exists s4, JSON.strip_prefix p ((c :: x1) ++ w) = Some s4).
    { intros p. generalize (c :: x1). induction p as [|a p IH]; intros y s3 Hy.
      - simpl. eauto.
      - destruct y as [|b y]; [discriminate|]. simpl in Hy |- *.
        destruct (N.eqb a b); [eauto | discriminate]. }
    destruct (JSON.strip_prefix (u "true") (c :: x1)) as [s3|] eqn:T'.
    { destruct (M _ _ T') as [s4 C]. congruence. }
    destruct (JSON.strip_prefix (u "false") (c :: x1)) as [s3|] eqn:F'.
    { destruct (M _ _ F') as [s4 C]. congruence. }
    rewrite Nl. now exists s2'.
  - intros acc x v r H. cbn [JSON.parse_elements] in H |- *.
    destruct (JSON.parse_value fuel (x ++ w)) as [[v1 s1]|] eqn:P; [|discriminate].
    apply IHv in P as (s1' & -> & P). rewrite P.
    destruct (skip_ws_app s1') as [(c & x1 & E1 & E2) | (E1 & E2)].
    + rewrite E2 in H. rewrite E1.
      destruct (N.eqb c 44); [exact (IHe _ x1 v r H)|].
      destruct (N.eqb c 93); [|discriminate].
      injection H as <- <-. now exists x1.
    + exfalso. destruct (JSON.skip_ws (s1' ++ w)) as [|c s2]; [discriminate|].
      simpl in E2. apply andb_true_iff in E2 as [Hc _].
      destruct (space_not_token c Hc)
        as (_ & _ & _ & _ & _ & _ & _ & _ & _ & _ & _ & _ & RK & CM & _).
      rewrite CM, RK in H. discriminate.
  - intros acc x v r H. cbn [JSON.parse_members] in H |- *.
    destruct x as [|q x0].
    { exfalso. simpl in H. destruct w as [|q w']; [discriminate|].
      simpl in Hw. apply andb_true_iff in Hw as [Hq _].
      destruct (space_not_token q Hq) as (Q & _). rewrite Q in H. discriminate. }
    change ((q :: x0) ++ w) with (q :: (x0 ++ w)) in H. cbv iota beta in H.
    destruct (N.eqb q JSON.quote); [|discriminate].
    destruct (JSON.parse_chars (x0 ++ w)) as [[k s1]|] eqn:C; [|discriminate].
    apply (parse_chars_app _ _ _ _ (le_n _)) in C as (s1' & -> & C). rewrite C.
    destruct (skip_ws_app s1') as [(c & x1 & E1 & E2) | (E1 & E2)].
    2:{ exfalso. destruct (JSON.skip_ws (s1' ++ w)) as [|c s2]; [discriminate|].
        simpl in E2. apply andb_true_iff in E2 as [Hc _].
        destruct (space_not_token c Hc)
          as (_ & _ & _ & _ & _ & _ & _ & _ & _ & _ & _ & _ & _ & _ & CL & _).
        rewrite CL in H. discriminate. }
    rewrite E2 in H. rewrite E1.
    destruct (N.eqb c 58); [|discriminate].
    destruct (JSON.parse_value fuel (x1 ++ w)) as [[v1 s3]|] eqn:P; [|discriminate].
    apply IHv in P as (s3' & -> & P). rewrite P.
    destruct (skip_ws_app s3') as [(d & x2 & F1 & F2) | (F1 & F2)].
    2:{ exfalso. destruct (JSON.skip_ws (s3' ++ w)) as [|d s4]; [discriminate|].
        simpl in F2. apply andb_true_iff in F2 as [Hd _].
        destruct (space_not_token d Hd)
          as (_ & _ & _ & _ & _ & _ & _ & _ & _ & _ & RB & _ & _ & CM & _).
        rewrite CM, RB in H. discriminate. }
    rewrite F2 in H. rewrite F1.
    destruct (N.eqb d 44).
    + destruct (skip_ws_app x2) as [(e & x3 & G1 & G2) | (G1 & G2)].
      * rewrite G2 in H. rewrite G1. exact (IHm _ (e :: x3) v r H).
      * exfalso. now rewrite parse_members_space in H.
    + destruct (N.eqb d 125); [|discriminate].
      injection H as <- <-. now exists x2.
Qed.

End AfterTheText.

(** What [JSON.parse] accepts, it accepts trimmed, with the same value. *)
Lemma parse_trimmed (s : str) (v : value) :
  JSON.parse s = Some v -> JSON.parse (trim s) = Some v.
Proof.
  intros H. pose proof H as H0. unfold JSON.parse in H.
  destruct (JSON.parse_value (2 * length s) s) as [[v' r]|] eqn:P; [|discriminate].
  destruct (JSON.skip_ws r) eqn:R; [|discriminate]. injection H as ->.
  destruct (trimEnd_split (trimStart s)) as (w & Hs & Hw).
  fold (trim s) in Hs.
  (* the value is read from the first unit that is not white space *)
  assert (P1 : JSON.parse_value (2 * length s) (trimStart s) = Some (v, r)).
  { destruct (parse_value_start _ _ _ P) as (c & s1 & Hc & Hv).
    apply value_start_not_space in Hv as [Hsp _].
    assert (Ht : trimStart s = c :: s1).
    { unfold trimStart.
      rewrite <- (dropWhile_weaker is_space JSON.is_ws s ws_is_space).
      unfold JSON.skip_ws in Hc. rewrite Hc. now apply dropWhile_stop. }
    assert (Hk : JSON.skip_ws (trimStart s) = JSON.skip_ws s).
    { rewrite Ht, Hc. unfold JSON.skip_ws. apply dropWhile_stop.
      destruct (JSON.is_ws c) eqn:W; [|reflexivity].
      apply ws_is_space in W. congruence. }
    destruct (2 * length s) as [|fuel]; [discriminate|].
    cbn [JSON.parse_value] in P |- *. now rewrite Hk. }
  rewrite Hs in P1.
  destruct (proj1 (parse_app w Hw _) _ _ _ P1) as (r2 & -> & P2).
  unfold JSON.parse.
  rewrite <- (parse_fuel (trim s) (2 * length s)), P2.
  - unfold JSON.skip_ws in R |- *. apply dropWhile_app_nil in R. now rewrite R.
  - pose proof (trim_length s). lia.
Qed.

(* ================================================================== *)
(** * Validation and clamping *)
(* ================================================================== *)

Lemma orelse_assoc (a b c : outcome bool) : (a ||| b) ||| c = a ||| (b ||| c).
Proof. destruct a as [[]| |]; reflexivity. Qed.

Lemma field_invalid_spec (l : jsval) :
  field_invalid l = Return (negb (field_ok l)).
Proof.
  unfold field_invalid, field_ok, orelse, bind, Get.
  destruct l as [[|b|n|s|es|o]|]; try reflexivity.
  - now destruct b.
  - now destruct n.
  - now destruct s.
  - destruct (lookup k_name o) as [[]|]; try reflexivity.
    destruct (lookup k_confidence o) as [[]|]; reflexivity.
Qed.

Lemma invalid_object (ps : list (str * value)) :
  invalid (Some (JObject ps)) =
  field_invalid (lookup k_language ps) ||| field_invalid (lookup k_accent ps).
Proof.
  unfold invalid, field_invalid. cbn [Get bind].
  now rewrite !orelse_assoc.
Qed.

(** On every parsed value but [null], the condition of line 58 is the
    negation of the shape. *)
Lemma invalid_spec (parsedData : value) :
  parsedData <> JNull ->
  invalid (Some parsedData) = Return (negb (shape_ok parsedData)).
Proof.
  destruct parsedData; try reflexivity; [congruence|]. intros _.
  rewrite invalid_object, !field_invalid_spec. cbn [shape_ok].
  destruct (field_ok (lookup k_language properties)),
    (field_ok (lookup k_accent properties)); reflexivity.
Qed.

Lemma invalid_null : invalid (Some JNull) = Throw TypeError.
Proof. reflexivity. Qed.

Lemma invalid_modelled (parsedData : value) :
  invalid (Some parsedData) <> Unmodelled.
Proof.
  destruct parsedData;
    try (rewrite invalid_spec by discriminate; discriminate).
  discriminate.
Qed.

Lemma field_ok_inv (l : jsval) :
  field_ok l = true ->
  exists o n x, l = Some (JObject o) /\ lookup k_name o = Some (JString n)
                /\ lookup k_confidence o = Some (JNumber x).
Proof.
  unfold field_ok. destruct l as [[| | | | |o]|]; try discriminate.
  destruct (lookup k_name o) as [[| | |n| |]|] eqn:N; try discriminate.
  destruct (lookup k_confidence o) as [[| |x| | |]|] eqn:C; try discriminate.
  intros _. now exists o, n, x.
Qed.

Lemma lookup_set_same (k : str) (v : value) (ps : list (str * value)) :
  lookup k (set_prop k v ps) = Some v.
Proof.
  induction ps as [|[k' v'] ps IH]; simpl.
  - now rewrite str_eqb_refl.
  - destruct (str_eqb k k') eqn:E; simpl; now rewrite E.
Qed.

Lemma lookup_set_other (k k' : str) (v : value) (ps : list (str * value)) :
  str_eqb k k' = false -> lookup k (set_prop k' v ps) = lookup k ps.
Proof.
  intros Hk. induction ps as [|[k0 v0] ps IH]; simpl.
  - now rewrite Hk.
  - destruct (str_eqb k' k0) eqn:E; simpl.
    + apply str_eqb_eq in E. subst k0. now rewrite Hk.
    + now rewrite IH.
Qed.

Lemma clamp_confidence_ok (ps o : list (str * value)) (field : str) (x : number) :
  lookup field ps = Some (JObject o) ->
  lookup k_confidence o = Some (JNumber x) ->
  clamp_confidence (JObject ps) field =
  Return (JObject (set_prop field
                     (JObject (set_prop k_confidence (JNumber (clamp x)) o)) ps)).
Proof.
  intros Hf Hc. unfold clamp_confidence. cbn [Get bind]. rewrite Hf.
  cbn [Get bind]. rewrite Hc. reflexivity.
Qed.

Lemma validate_and_clamp_ok (parsedData : value) :
  invalid (Some parsedData) = Return false ->
  exists ps lang acc x y,
    parsedData = JObject ps
    /\ lookup k_language ps = Some (JObject lang)
    /\ lookup k_confidence lang = Some (JNumber x)
    /\ lookup k_accent ps = Some (JObject acc)
    /\ lookup k_confidence acc = Some (JNumber y)
    /\ validate_and_clamp parsedData = Return (clamped ps lang acc x y).
Proof.
  intros H.
  assert (Hn : parsedData <> JNull) by (intros ->; discriminate).
  pose proof H as H'. rewrite (invalid_spec _ Hn) in H'.
  injection H' as Hs. apply negb_false_iff in Hs.
  destruct parsedData as [| | | | |ps]; try discriminate.
  cbn [shape_ok] in Hs. apply andb_true_iff in Hs as [Hl Ha].
  apply field_ok_inv in Hl as (lang & n1 & x & Hl & _ & Hx).
  apply field_ok_inv in Ha as (acc & n2 & y & Ha & _ & Hy).
  exists ps, lang, acc, x, y. repeat (split; [assumption || reflexivity|]).
  unfold validate_and_clamp. rewrite H. cbn [bind].
  rewrite (clamp_confidence_ok ps lang k_language x Hl Hx). cbn [bind].
  rewrite (clamp_confidence_ok _ acc k_accent y); [reflexivity| |exact Hy].
  now rewrite lookup_set_other by reflexivity.
Qed.

Lemma confidence_of_clamped (ps lang acc : list (str * value)) (x y : number) :
  confidence_of k_language (clamped ps lang acc x y) = Some (clamp x)
  /\ confidence_of k_accent (clamped ps lang acc x y) = Some (clamp y).
Proof.
  unfold confidence_of, clamped. split.
  - rewrite lookup_set_other by reflexivity.
    now rewrite !lookup_set_same.
  - now rewrite !lookup_set_same.
Qed.

(** The outcome of the [try] block is never one the embedding leaves out. *)
Lemma validate_and_clamp_modelled (parsedData : value) :
  validate_and_clamp parsedData <> Unmodelled.
Proof.
  destruct (invalid (Some parsedData)) as [[]| |] eqn:I.
  - unfold validate_and_clamp. rewrite I. discriminate.
  - destruct (validate_and_clamp_ok _ I) as (? & ? & ? & ? & ? & _ & _ & _ & _ & _ & E).
    rewrite E. discriminate.
  - unfold validate_and_clamp. rewrite I. discriminate.
  - now apply invalid_modelled in I.
Qed.

Lemma normalize_modelled (text : str) : normalize text <> Unmodelled.
Proof.
  unfold normalize. destruct (JSON.parse (defence text)); [|discriminate].
  apply validate_and_clamp_modelled.
Qed.

Lemma analyzeAudio_modelled (generateContent : request -> reply) (base64Audio : str) :
  analyzeAudio generateContent base64Audio <> NotModelled.
Proof.
  unfold analyzeAudio.
  destruct (generateContent _) as [e|[text|]].
  - destruct e; discriminate.
  - pose proof (normalize_modelled text) as H.
    destruct (normalize text) as [a|e|]; [discriminate| |contradiction].
    destruct e; discriminate.
  - discriminate.
Qed.

(* ================================================================== *)
(** * The recording controller *)
(* ================================================================== *)

(** ** Lists updated by index *)

Lemma nth_error_replace_nth {A : Type} (x : A) (l : list A) :
  forall i j,
    nth_error (replace_nth i x l) j
    = if Nat.eqb i j
      then match nth_error l j with Some _ => Some x | None => None end
      else nth_error l j.
Proof.
  induction l as [|h t IH]; intros i j.
  - destruct i, j; simpl; try reflexivity; now destruct (Nat.eqb i j).
  - destruct i, j; simpl; try reflexivity. apply IH.
Qed.

Lemma nth_error_replace_nth_eq {A : Type} (x y : A) (l : list A) (i : nat) :
  nth_error l i = Some y -> nth_error (replace_nth i x l) i = Some x.
Proof.
  intros H. now rewrite nth_error_replace_nth, Nat.eqb_refl, H.
Qed.

Lemma length_replace_nth {A : Type} (x : A) (l : list A) :
  forall i, length (replace_nth i x l) = length l.
Proof.
  induction l as [|h t IH]; intros [|i]; simpl; auto.
Qed.

Lemma length_remove_nth {A : Type} (l : list A) :
  forall i y, nth_error l i = Some y -> S (length (remove_nth i l)) = length l.
Proof.
  induction l as [|h t IH]; intros [|i] y H; simpl in *; try discriminate.
  - reflexivity.
  - f_equal. exact (IH i y H).
Qed.

Lemma nth_error_last {A : Type} (x : A) (l : list A) :
  nth_error (l ++ [x]) (length l) = Some x.
Proof.
  rewrite nth_error_app2 by apply le_n. now rewrite Nat.sub_diag.
Qed.

Lemma nth_error_snoc {A : Type} (x y : A) (l : list A) (i : nat) :
  nth_error (l ++ [x]) i = Some y ->
  nth_error l i = Some y \/ (i = length l /\ y = x).
Proof.
  intros H. destruct (Nat.lt_ge_cases i (length l)) as [L|L].
  - left. now rewrite nth_error_app1 in H.
  - right. rewrite nth_error_app2 in H by exact L.
    destruct (i - length l) as [|k] eqn:E; simpl in H.
    + injection H as <-. split; [lia | reflexivity].
    + destruct k; discriminate.
Qed.

Module AppFacts.

Import App.

Lemma run_app (evs1 evs2 : list event) :
  forall st, run st (evs1 ++ evs2)
             = match run st evs1 with
               | Some st1 => run st1 evs2
               | None => None
               end.
Proof.
  induction evs1 as [|ev evs1 IH]; intros st; simpl; [reflexivity|].
  destruct (step st ev); [apply IH | reflexivity].
Qed.

Lemma run_reachable (evs : list event) :
  forall st st', reachable st -> run st evs = Some st' -> reachable st'.
Proof.
  induction evs as [|ev evs IH]; simpl; intros st st' R H.
  - now injection H as <-.
  - destruct (step st ev) as [st1|] eqn:S; [|discriminate].
    exact (IH st1 st' (reachable_step st ev st1 R S) H).
Qed.

Lemma reachable_run (st : State) :
  reachable st -> exists evs, run init evs = Some st.
Proof.
  induction 1 as [|st ev st' _ (evs & IH) H].
  - now exists [].
  - exists (evs ++ [ev]). rewrite run_app, IH. simpl. now rewrite H.
Qed.

Lemma orderly_reachable (st : State) : orderly st -> reachable st.
Proof.
  induction 1 as [|st ev st' _ IH _ H]; [apply reachable_init|].
  exact (reachable_step st ev st' IH H).
Qed.


(** The reset button is rendered in [result] and in [error]. *)
Lemma reset_inv (st st' : State) :
  step st ClickReset = Some st' ->
  st' = handleReset st
  /\ (recordingState st = RecordingState.result
      \/ recordingState st = RecordingState.error).
Proof.
  simpl. destruct (recordingState st); try discriminate;
    [destruct (analysisResult st); try discriminate|];
    intros H; injection H as <-; auto.
Qed.

(** ** What every state satisfies *)

Lemma Inv_init : Inv init.
Proof.
  unfold Inv; simpl. repeat split; intros; try discriminate; congruence.
Qed.

Lemma Inv_step (st st' : State) (ev : event) :
  Inv st -> step st ev = Some st' -> Inv st'.
Proof.
  intros (I1 & I2 & I3 & I4 & I5 & I6) H.
  destruct ev as [|o| |i chunk|i|i|i gc|].
  - simpl in H. destruct (recordingState st) eqn:E; try discriminate.
    injection H as <-. unfold Inv, startRecording; simpl.
    rewrite E in *. repeat split; intros; try discriminate; auto.
  - simpl in H. destruct (pendingStarts st) as [|n]; [discriminate|].
    injection H as <-. unfold Inv.
    destruct o; simpl; repeat split; intros; try discriminate; try congruence.
    exists (length (recorders st)), Active.
    rewrite nth_error_last. repeat split; discriminate.
  - simpl in H. destruct (recordingState st) eqn:E; try discriminate.
    injection H as <-. unfold Inv, stopRecording.
    destruct (I6 eq_refl) as (i & r & Hi & Hr & Hn). rewrite Hi, Hr.
    destruct r; simpl; rewrite ?E; repeat split; intros;
      try discriminate; try congruence; auto;
      try (now apply I3; rewrite ?E).
    exists i, Stopping. rewrite (nth_error_replace_nth_eq _ _ _ _ Hr).
    repeat split; [exact Hi | discriminate].
  - simpl in H.
    assert (exists r0, nth_error (recorders st) i = Some r0
                       /\ st' = dataavailable chunk
                                  (with_recorders
                                     (replace_nth i Flushed (recorders st)) st))
      as (r0 & Hr0 & ->).
    { destruct (nth_error (recorders st) i) as [[]|]; try discriminate;
        injection H as <-; eauto. }
    unfold Inv; simpl. repeat split; auto.
    intros R. destruct (I6 R) as (j & r & Hj & Hr & Hn).
    exists j. rewrite nth_error_replace_nth, Hr.
    destruct (Nat.eqb i j).
    + exists Flushed. repeat split; [exact Hj | discriminate].
    + exists r. repeat split; assumption.
  - simpl in H.
    assert (st' = processAudio
                    (with_recorders (replace_nth i Inactive (recorders st)) st))
      as ->.
    { destruct (nth_error (recorders st) i) as [[]|]; try discriminate;
        now injection H as <-. }
    unfold Inv, processAudio; simpl.
    destruct (audioChunks st); simpl; repeat split; intros;
      try discriminate; try congruence.
    left. now destruct (readers st).
  - simpl in H. destruct (nth_error (readers st) i) as [blob|]; [|discriminate].
    injection H as <-. unfold Inv, onloadend; simpl.
    repeat split; auto.
    intros _. right. now destruct (calls st).
  - simpl in H. destruct (nth_error (calls st) i) as [b|]; [|discriminate].
    injection H as <-. unfold Inv, onloadend_resume.
    pose proof (analyzeAudio_modelled gc b) as M.
    destruct (analyzeAudio gc b); [| |now contradiction M];
      simpl; repeat split; intros; try discriminate; congruence.
  - destruct (reset_inv st st' H) as [-> _].
    unfold Inv, handleReset; simpl.
    repeat split; intros; try discriminate; congruence.
Qed.

Lemma Inv_reachable (st : State) : reachable st -> Inv st.
Proof.
  induction 1 as [|st ev st' _ IH H]; [apply Inv_init|].
  exact (Inv_step st st' ev IH H).
Qed.

(** ** What every state of an orderly session satisfies *)

Lemma Single_init : Single init.
Proof.
  unfold Single; simpl. repeat split; intros; try lia; try congruence.
  - now destruct i.
  - now destruct i.
  - now destruct i.
Qed.

Lemma Single_no_busy (st : State) (i : nat) (r : recorder) :
  Single st -> recordingState st <> RecordingState.recording ->
  nth_error (recorders st) i = Some r -> busy r = false.
Proof.
  intros (_ & _ & S3 & _) N H. destruct (busy r) eqn:B; [|reflexivity].
  now destruct (S3 i r H B).
Qed.

Lemma Single_quiet (st : State) :
  Single st -> recordingState st <> RecordingState.processing ->
  readers st = [] /\ calls st = [].
Proof.
  intros (_ & _ & _ & S4 & S5 & _) N.
  destruct (readers st), (calls st); simpl in *; auto;
    exfalso; apply N, S5; lia.
Qed.

Lemma Single_chunks (st : State) :
  Single st -> recordingState st <> RecordingState.recording ->
  audioChunks st = [].
Proof.
  intros S N. destruct (audioChunks st) eqn:E; [reflexivity|].
  destruct S as (_ & _ & S3 & _ & _ & S6 & _).
  destruct S6 as (i & Hi & Hf); [now rewrite E|].
  now destruct (S3 i Flushed Hf eq_refl).
Qed.

Ltac close_with S3 :=
  try lia; try congruence; try discriminate;
  try (match goal with
       | Hn : nth_error _ ?i = Some ?r, Hb : busy ?r = true |- _ =>
           destruct (S3 i r Hn Hb); congruence
       | Hn : nth_error _ ?i = Some Flushed |- _ =>
           destruct (S3 i Flushed Hn eq_refl); congruence
       end).

Lemma Single_step (st st' : State) (ev : event) :
  Single st -> in_order st ev = true -> step st ev = Some st' -> Single st'.
Proof.
  intros S O H. pose proof S as (S1 & S2 & S3 & S4 & S5 & S6 & S7).
  destruct ev as [|o| |i chunk|i|i|i gc|].
  - (* the click on Start *)
    simpl in H, O. apply Nat.eqb_eq in O.
    destruct (recordingState st) eqn:E; try discriminate.
    injection H as <-. unfold Single, startRecording; simpl. rewrite O, E.
    repeat split; auto; intros; close_with S3.
  - (* the call of getUserMedia settles *)
    simpl in H. destruct (pendingStarts st) as [|n] eqn:P; [discriminate|].
    injection H as <-.
    assert (n = 0) as -> by lia.
    assert (E : recordingState st = RecordingState.idle) by (now apply S2).
    assert (N : recordingState st <> RecordingState.recording) by congruence.
    assert (N' : recordingState st <> RecordingState.processing) by congruence.
    destruct (Single_quiet st S N') as [Hr Hc].
    pose proof (Single_chunks st S N) as Hch.
    assert (B : forall x i r, x = Active \/ x = Inactive ->
                nth_error (recorders st ++ [x]) i = Some r -> busy r = false).
    { intros x i r Hx Hi. apply nth_error_snoc in Hi as [Hi | [_ ->]].
      - exact (Single_no_busy st i r S N Hi).
      - now destruct Hx as [-> | ->]. }
    unfold Single.
    destruct o; simpl; rewrite ?Hr, ?Hc, ?Hch; simpl;
      repeat split; intros; try lia; try congruence;
      try discriminate;
      try (match goal with
           | Hn : nth_error (recorders st) _ = Some ?r, Hb : busy ?r = true |- _ =>
               rewrite (Single_no_busy st _ _ S N Hn) in Hb; discriminate
           | Hn : nth_error (recorders st) _ = Some Flushed |- _ =>
               pose proof (Single_no_busy st _ _ S N Hn); discriminate
           | Hn : nth_error (recorders st ++ [?x]) _ = Some ?r, Hb : busy ?r = true |- _ =>
               rewrite (B x _ _ ltac:(auto) Hn) in Hb; discriminate
           | Hn : nth_error (recorders st ++ [?x]) _ = Some Flushed |- _ =>
               pose proof (B x _ _ ltac:(auto) Hn); discriminate
           end).
  - (* the click on Stop *)
    simpl in H. destruct (recordingState st) eqn:E; try discriminate.
    injection H as <-. unfold stopRecording.
    destruct (mediaRecorderRef st) as [i|] eqn:Hi; [|exact S].
    destruct (nth_error (recorders st) i) as [[]|] eqn:Hr; try exact S.
    unfold Single; simpl. rewrite E, Hi.
    repeat split; auto.
    + rewrite nth_error_replace_nth in H.
      destruct (Nat.eqb_spec i i0) as [->|Ne]; [reflexivity|].
      destruct (S3 i0 r H H0) as [_ X]. congruence.
    + intros Hc. destruct (S6 Hc) as (k & Hk & Hf). congruence.
    + intros j Hj. rewrite nth_error_replace_nth in Hj.
      destruct (Nat.eqb_spec i j) as [->|Ne].
      * rewrite Hr in Hj. discriminate.
      * exact (S7 j Hj).
  - (* dataavailable *)
    simpl in H.
    assert (exists r0, nth_error (recorders st) i = Some r0 /\ busy r0 = true
                       /\ st' = dataavailable chunk
                                  (with_recorders
                                     (replace_nth i Flushed (recorders st)) st))
      as (r0 & Hr0 & Hb & ->).
    { destruct (nth_error (recorders st) i) as [[]|]; try discriminate;
        injection H as <-; eauto. }
    destruct (S3 i r0 Hr0 Hb) as [E Hi].
    unfold Single; simpl. rewrite E, Hi.
    repeat split; auto.
    + intros P. specialize (S2 P). congruence.
    + rewrite nth_error_replace_nth in H0.
      destruct (Nat.eqb_spec i i0) as [->|Ne]; [reflexivity|].
      destruct (S3 i0 r H0 H1) as [_ X]. congruence.
    + intros P. specialize (S5 P). congruence.
    + intros _. exists i. split; [reflexivity|].
      exact (nth_error_replace_nth_eq _ _ _ _ Hr0).
    + intros j _ Hc. now destruct (audioChunks st).
  - (* the stop event of the recorder *)
    simpl in H.
    assert (nth_error (recorders st) i = Some Flushed
            /\ st' = processAudio
                       (with_recorders (replace_nth i Inactive (recorders st)) st))
      as (Hf & ->).
    { destruct (nth_error (recorders st) i) as [[]|]; try discriminate;
        now injection H as <-. }
    destruct (S3 i Flushed Hf eq_refl) as [E Hi].
    pose proof (S7 i Hf) as Hch.
    assert (N' : recordingState st <> RecordingState.processing) by congruence.
    destruct (Single_quiet st S N') as [Hr Hc].
    assert (B : forall j r, nth_error (replace_nth i Inactive (recorders st)) j = Some r ->
                            busy r = false).
    { intros j r Hj. rewrite nth_error_replace_nth in Hj.
      destruct (Nat.eqb_spec i j) as [->|Ne].
      - rewrite Hf in Hj. now injection Hj as <-.
      - destruct (busy r) eqn:Br; [|reflexivity].
        destruct (S3 j r Hj Br) as [_ Hj']. congruence. }
    unfold Single, processAudio; simpl.
    destruct (audioChunks st) as [|c cs]; [now contradiction Hch|].
    simpl. rewrite Hr, Hc. simpl.
    repeat split; auto; intros; try lia; try congruence.
    + specialize (S2 H0). congruence.
    + rewrite (B _ _ H0) in H1. discriminate.
    + rewrite (B _ _ H0) in H1. discriminate.
    + pose proof (B _ _ H0). discriminate.
  - (* the read ends *)
    simpl in H. destruct (nth_error (readers st) i) as [blob|] eqn:Hb; [|discriminate].
    injection H as <-.
    pose proof (length_remove_nth _ _ _ Hb) as L.
    assert (E : recordingState st = RecordingState.processing) by (apply S5; lia).
    unfold Single, onloadend; simpl. rewrite length_app. simpl.
    repeat split; auto; intros; close_with S3.
  - (* the provider answers *)
    simpl in H. destruct (nth_error (calls st) i) as [b|] eqn:Hb; [|discriminate].
    injection H as <-.
    pose proof (length_remove_nth _ _ _ Hb) as L.
    assert (E : recordingState st = RecordingState.processing) by (apply S5; lia).
    assert (N : recordingState st <> RecordingState.recording) by congruence.
    pose proof (Single_chunks st S N) as Hch.
    pose proof (analyzeAudio_modelled gc b) as M.
    unfold Single, onloadend_resume.
    destruct (analyzeAudio gc b); [| |now contradiction M]; simpl;
      rewrite ?Hch; repeat split; auto; intros; try lia; try congruence;
      try (specialize (S2 ltac:(assumption)); congruence);
      try (match goal with
           | Hn : nth_error (recorders st) _ = Some ?r, Hb : busy ?r = true |- _ =>
               rewrite (Single_no_busy st _ _ S N Hn) in Hb; discriminate
           | Hn : nth_error (recorders st) _ = Some Flushed |- _ =>
               pose proof (Single_no_busy st _ _ S N Hn); discriminate
           end).
  - (* the click on reset *)
    destruct (reset_inv st st' H) as [-> Hrs].
    assert (N : recordingState st <> RecordingState.recording)
      by (destruct Hrs; congruence).
    assert (N' : recordingState st <> RecordingState.processing)
      by (destruct Hrs; congruence).
    destruct (Single_quiet st S N') as [Hr Hc].
    unfold Single, handleReset; simpl. rewrite Hr, Hc. simpl.
    repeat split; auto; intros; try lia; try congruence;
      try (match goal with
           | Hn : nth_error (recorders st) _ = Some ?r, Hb : busy ?r = true |- _ =>
               rewrite (Single_no_busy st _ _ S N Hn) in Hb; discriminate
           | Hn : nth_error (recorders st) _ = Some Flushed |- _ =>
               pose proof (Single_no_busy st _ _ S N Hn); discriminate
           end).
Qed.

Lemma Single_orderly (st : State) : orderly st -> Single st.
Proof.
  induction 1 as [|st ev st' _ IH O H]; [apply Single_init|].
  exact (Single_step st st' ev IH O H).
Qed.

End AppFacts.

(* ================================================================== *)
(** * The properties of the specification *)
(* ================================================================== *)

(** The scenario of the specification: the payload in a fence tagged
    [json] resolves with the accent's confidence clamped to 100. *)
Example scenario_fenced :
  exists r,
    ResponseNormalizer (fence (u "json") scenario_body) = Resolved r
    /\ confidence_of k_language r = Some (of_int 95)
    /\ confidence_of k_accent r = Some (of_int 100).
Proof. eexists. split; [vm_compute; reflexivity|]. split; vm_compute; reflexivity. Qed.

(** C1, as the specification states it, fails on a fence of four
    backticks: the regular expression takes three of them as the fence and
    leaves the fourth in the body, so the result is not the trimmed body. *)
Lemma defence_four_backticks :
  defence (u "````json" ++ [LF] ++ js "{'a': 1}" ++ [LF] ++ u "````")
  = u "`json" ++ [LF] ++ js "{'a': 1}" ++ [LF] ++ u "`"
  /\ defence (u "````json" ++ [LF] ++ js "{'a': 1}" ++ [LF] ++ u "````")
     <> trim (js "{'a': 1}").
Proof. split; [vm_compute; reflexivity | vm_compute; discriminate]. Qed.

(** C1 (amended): when the trimmed input is a run of exactly three
    backticks, a token of word characters (possibly empty), white space of
    at least one unit (the line break), a body that is not all white space,
    white space, and a closing run of three backticks, de-fencing returns
    the trimmed body, whatever line breaks the body contains; when the
    trimmed input does not both open and close with three backticks, it
    returns the trimmed input. *)
Theorem defence_contract (t : str) :
  (forall (tag ws1 body ws2 : str) (w : cu),
      forallb is_word tag = true ->
      is_space w = true -> forallb is_space ws1 = true ->
      forallb is_space ws2 = true ->
      forallb is_space body = false ->
      trim t = fence3 ++ tag ++ (w :: ws1) ++ body ++ ws2 ++ fence3 ->
      defence t = trim body)
  /\ (fenced (trim t) = false -> defence t = trim t).
Proof.
  split.
  - intros tag ws1 body ws2 w. apply defence_fence_general.
  - apply defence_unfenced.
Qed.

Lemma defence_contract_witness :
  defence (u "  ```json" ++ [LF] ++ js "{'a':" ++ [LF] ++ js " 1}" ++ [LF] ++ u "```  ")
  = js "{'a':" ++ [LF] ++ js " 1}"
  /\ defence (js "  {'a': 1} ") = js "{'a': 1}".
Proof.
  split.
  - apply (proj1 (defence_contract
                    (u "  ```json" ++ [LF] ++ js "{'a':" ++ [LF] ++ js " 1}"
                     ++ [LF] ++ u "```  "))
             (u "json") [] (js "{'a':" ++ [LF] ++ js " 1}") [LF] LF);
      reflexivity.
  - apply (proj2 (defence_contract (js "  {'a': 1} "))). reflexivity.
Defined.

(** C2, as the specification states it, fails on a language tag that has
    a unit outside the word class: for the tag [c++] the regular expression
    takes [c] as the tag and leaves [++] at the head of the captured body,
    which [JSON.parse] rejects, while the unfenced body resolves. *)
Lemma fence_tag_not_word :
  (exists r, ResponseNormalizer scenario_body = Resolved r)
  /\ ResponseNormalizer (fence (u "c++") scenario_body)
     = Rejected MalformedResponse.
Proof. split; [eexists|]; vm_compute; reflexivity. Qed.

(** C2 (amended): for every body that [JSON.parse] accepts with a value
    of the expected shape, and every tag of word characters (the empty tag
    included), the normalizer resolves on the body and resolves, with the
    same result, on the body wrapped in a fence with that tag. *)
Theorem fence_invariance (tag body : str) (v : value) :
  forallb is_word tag = true ->
  JSON.parse body = Some v ->
  shape_ok v = true ->
  exists r,
    ResponseNormalizer body = Resolved r
    /\ ResponseNormalizer (fence tag body) = Resolved r.
Proof.
  intros Htag Hp Hs. destruct (parse_trim body v Hp) as [Hb Hf].
  pose proof (parse_trimmed body v Hp) as Ht.
  assert (Hn : v <> JNull) by (intros ->; discriminate).
  pose proof (invalid_spec v Hn) as I. rewrite Hs in I. simpl in I.
  destruct (validate_and_clamp_ok v I)
    as (ps & lang & acc & x & y & _ & _ & _ & _ & _ & E).
  exists (clamped ps lang acc x y).
  unfold ResponseNormalizer, normalize.
  rewrite (defence_fence tag body Htag Hb), (defence_unfenced body Hf), Ht, E.
  split; reflexivity.
Qed.

Lemma fence_invariance_witness :
  (exists r,
      ResponseNormalizer scenario_body = Resolved r
      /\ ResponseNormalizer (fence (u "json") scenario_body) = Resolved r)
  /\ (exists r,
         ResponseNormalizer scenario_body = Resolved r
         /\ ResponseNormalizer (fence [] scenario_body) = Resolved r).
Proof.
  split.
  - let p := eval vm_compute in (JSON.parse scenario_body) in
    match p with
    | Some ?v =>
        apply (fence_invariance (u "json") scenario_body v);
          [reflexivity | vm_compute; reflexivity | vm_compute; reflexivity]
    end.
  - let p := eval vm_compute in (JSON.parse scenario_body) in
    match p with
    | Some ?v =>
        apply (fence_invariance [] scenario_body v);
          [reflexivity | vm_compute; reflexivity | vm_compute; reflexivity]
    end.
Defined.

(** C3: a payload that passes validation is not rejected for its
    confidences: lines 66-69 return it with each confidence clamped, where
    clamping sends every number below 0 to 0, every number above 100 to 100
    (150 to 100, -10 to 0), and leaves a number in [0, 100] as it is (equal
    under [===]; identical unless it is -0, which becomes +0). *)
Theorem clamping (parsedData : value) :
  invalid (Some parsedData) = Return false ->
  (exists x y r,
      confidence_of k_language parsedData = Some x
      /\ confidence_of k_accent parsedData = Some y
      /\ validate_and_clamp parsedData = Return r
      /\ confidence_of k_language r = Some (clamp x)
      /\ confidence_of k_accent r = Some (clamp y))
  /\ (forall z, lt z zero = true -> clamp z = zero)
  /\ (forall z, lt hundred z = true -> clamp z = hundred)
  /\ (forall z, le zero z = true -> le z hundred = true ->
                number_eq (clamp z) z = true
                /\ (is_neg_zero z = false -> clamp z = z))
  /\ clamp (of_int 150) = of_int 100
  /\ clamp (of_int (-10)) = of_int 0.
Proof.
  intros H. split; [|split; [|split; [|split; [|split]]]].
  - destruct (validate_and_clamp_ok _ H)
      as (ps & lang & acc & x & y & -> & Hl & Hx & Ha & Hy & E).
    exists x, y, (clamped ps lang acc x y).
    destruct (confidence_of_clamped ps lang acc x y) as [C1 C2].
    unfold confidence_of. rewrite Hl, Hx, Ha, Hy. repeat split; assumption.
  - apply clamp_below.
  - apply clamp_above.
  - apply clamp_within.
  - vm_compute. reflexivity.
  - vm_compute. reflexivity.
Qed.

Lemma clamping_witness :
  exists x y r,
    confidence_of k_language out_of_range_payload = Some x
    /\ confidence_of k_accent out_of_range_payload = Some y
    /\ validate_and_clamp out_of_range_payload = Return r
    /\ confidence_of k_language r = Some (clamp x)
    /\ confidence_of k_accent r = Some (clamp y).
Proof.
  apply (proj1 (clamping out_of_range_payload eq_refl)).
Defined.

(** C4, as the specification states it, fails on a confidence that is not
    an integer: 95.5 lies in [0, 100] and is returned as it is. *)
Lemma confidence_not_integer :
  exists r x,
    ResponseNormalizer
      (js "{'language':{'name':'English','confidence':95.5},'accent':{'name':'American','confidence':88}}")
    = Resolved r
    /\ confidence_of k_language r = Some x
    /\ is_integer x = false.
Proof.
  eexists. eexists. split; [vm_compute; reflexivity|].
  split; vm_compute; reflexivity.
Qed.

(** C4 (amended): for every input string, a value the normalizer resolves
    with carries, for [language] and for [accent], the clamped confidence
    of the parsed payload; that number lies in [0, 100], infinite parsed
    values included, and it is an integer whenever the parsed confidence
    is one. *)
Theorem result_invariant (text : str) (r : value) :
  ResponseNormalizer text = Resolved r ->
  exists parsedData x y,
    JSON.parse (defence text) = Some parsedData
    /\ confidence_of k_language parsedData = Some x
    /\ confidence_of k_accent parsedData = Some y
    /\ confidence_of k_language r = Some (clamp x)
    /\ confidence_of k_accent r = Some (clamp y)
    /\ le zero (clamp x) = true /\ le (clamp x) hundred = true
    /\ le zero (clamp y) = true /\ le (clamp y) hundred = true
    /\ (is_integer x = true -> is_integer (clamp x) = true)
    /\ (is_integer y = true -> is_integer (clamp y) = true).
Proof.
  unfold ResponseNormalizer, normalize. intros H.
  destruct (JSON.parse (defence text)) as [pd|] eqn:P; [|discriminate].
  pose proof (parse_no_nan _ _ P) as Hnn.
  unfold validate_and_clamp in H.
  destruct (invalid (Some pd)) as [[]|e|] eqn:I; cbn [bind] in H;
    try discriminate; try (destruct e; discriminate).
  destruct (validate_and_clamp_ok _ I)
    as (ps & lang & acc & x & y & -> & Hl & Hx & Ha & Hy & E).
  unfold validate_and_clamp in E. rewrite I in E. cbn [bind] in E.
  rewrite E in H. cbn [catch] in H. injection H as <-.
  destruct (confidence_of_clamped ps lang acc x y) as [C1 C2].
  assert (Nx : is_nan x = false).
  { pose proof (lookup_no_nan _ _ _ Hnn Hl) as Hlang.
    pose proof (lookup_no_nan _ _ _ Hlang Hx) as Hxn.
    simpl in Hxn. now apply negb_true_iff in Hxn. }
  assert (Ny : is_nan y = false).
  { pose proof (lookup_no_nan _ _ _ Hnn Ha) as Hacc.
    pose proof (lookup_no_nan _ _ _ Hacc Hy) as Hyn.
    simpl in Hyn. now apply negb_true_iff in Hyn. }
  destruct (clamp_range x Nx) as [X0 X100].
  destruct (clamp_range y Ny) as [Y0 Y100].
  exists (JObject ps), x, y. unfold confidence_of at 1 2.
  rewrite Hl, Hx, Ha, Hy.
  repeat (split; [assumption || reflexivity|]).
  split; apply clamp_integer.
Qed.

Lemma result_invariant_witness :
  exists r, ResponseNormalizer
              (js "{'language':{'name':'English','confidence':1e999},'accent':{'name':'American','confidence':-0.5}}")
            = Resolved r
            /\ exists x y, confidence_of k_language r = Some x
                           /\ confidence_of k_accent r = Some y
                           /\ le zero x = true /\ le x hundred = true
                           /\ le zero y = true /\ le y hundred = true.
Proof.
  eexists. split; [vm_compute; reflexivity|].
  match goal with
  | |- exists x y, confidence_of _ ?r = _ /\ _ =>
      destruct (result_invariant
                  (js "{'language':{'name':'English','confidence':1e999},'accent':{'name':'American','confidence':-0.5}}")
                  r ltac:(vm_compute; reflexivity))
        as (pd & x & y & _ & _ & _ & Cx & Cy & X0 & X1 & Y0 & Y1 & _)
  end.
  exists (clamp x), (clamp y). repeat split; assumption.
Defined.

(** On every parsed value except [null], shape validation is as the
    specification words it: the normalizer rejects with [InvalidShape] if
    and only if the value does not have the shape. *)
Lemma shape_validation_non_null (text : str) (parsedData : value) :
  JSON.parse (defence text) = Some parsedData ->
  parsedData <> JNull ->
  (ResponseNormalizer text = Rejected InvalidShape <-> shape_ok parsedData = false).
Proof.
  intros P Hn. unfold ResponseNormalizer, normalize. rewrite P.
  unfold validate_and_clamp.
  pose proof (invalid_spec _ Hn) as I.
  destruct (shape_ok parsedData) eqn:S; simpl in I.
  - split; [|discriminate]. intros H.
    destruct (validate_and_clamp_ok _ I) as (? & ? & ? & ? & ? & _ & _ & _ & _ & _ & E).
    unfold validate_and_clamp in E. rewrite E in H. discriminate.
  - rewrite I. split; reflexivity.
Qed.

(** A payload without the [accent] object is rejected with
    [InvalidShape]. *)
Example missing_accent :
  ResponseNormalizer (js "{'language':{'name':'English','confidence':95}}")
  = Rejected InvalidShape.
Proof. vm_compute. reflexivity. Qed.

(** C5 at the text [null]: it parses, the parsed value is not an object of
    the shape, and the normalizer does not reject with [InvalidShape]: the
    read of [parsedData.language] throws a TypeError before line 62 is
    reached. *)
Theorem shape_validation_null :
  JSON.parse (defence (js "null")) = Some JNull
  /\ shape_ok JNull = false
  /\ ResponseNormalizer (js "null") = Rejected (ApiCallFailed TypeError)
  /\ ResponseNormalizer (js "null") <> Rejected InvalidShape.
Proof.
  split; [vm_compute; reflexivity|]. split; [reflexivity|].
  split; [vm_compute; reflexivity | vm_compute; discriminate].
Qed.

(** C6: when the de-fenced text is not JSON, the normalizer rejects with
    [MalformedResponse], which is not the [InvalidShape] of the validation
    step. *)
Theorem parse_failure (text : str) :
  JSON.parse (defence text) = None ->
  ResponseNormalizer text = Rejected MalformedResponse
  /\ MalformedResponse <> InvalidShape.
Proof.
  intros P. unfold ResponseNormalizer, normalize. rewrite P.
  split; [reflexivity | discriminate].
Qed.

Lemma parse_failure_witness :
  ResponseNormalizer
    (fence (u "json") (js "{'language':{'name':'English','confidence':95}"))
  = Rejected MalformedResponse
  /\ MalformedResponse <> InvalidShape.
Proof.
  apply (parse_failure
           (fence (u "json") (js "{'language':{'name':'English','confidence':95}"))).
  vm_compute. reflexivity.
Defined.

(** C7: on a text that carries no fence, de-fencing twice gives what
    de-fencing once gives. *)
Theorem defence_idempotent (t : str) :
  fenced (trim t) = false -> defence (defence t) = defence t.
Proof.
  intros H. rewrite (defence_unfenced t H).
  rewrite defence_unfenced; rewrite trim_idem; [reflexivity | exact H].
Qed.

Lemma defence_idempotent_witness :
  defence (defence (js "  {'a': 1} ")) = defence (js "  {'a': 1} ").
Proof. apply defence_idempotent. reflexivity. Defined.

(** C10: a fence whose body is empty or white space is left in place, and
    the parse of the still-fenced text fails; the text is replaced only
    when the regular expression matches with a non-empty second capture. *)
Theorem empty_fence_kept (t : str) :
  (forall tag ws : str,
      forallb is_word tag = true -> forallb is_space ws = true ->
      trim t = fence3 ++ tag ++ ws ++ fence3 ->
      defence t = trim t
      /\ JSON.parse (defence t) = None
      /\ ResponseNormalizer t = Rejected MalformedResponse)
  /\ (defence t <> trim t ->
      exists match_ c b,
        String_match (trim t) fenceRegex = Some match_
        /\ match_ 2 = Some (c :: b)).
Proof.
  split.
  - intros tag ws Htag Hws Ht.
    assert (HX : dropWhile is_space (dropWhile is_word (tag ++ ws ++ fence3))
                 = [] ++ fence3).
    { rewrite dropWhile_all by exact Htag.
      assert (Hw : dropWhile is_word (ws ++ fence3) = ws ++ fence3).
      { destruct ws as [|c ws]; [reflexivity|]. simpl in Hws.
        apply andb_true_iff in Hws as [Hc _].
        apply dropWhile_stop. now apply space_not_word. }
      rewrite Hw. now rewrite dropWhile_all by exact Hws. }
    assert (Hd : defence t = trim t) by exact (defence_fenced t _ _ Ht HX).
    assert (Hp : JSON.parse (defence t) = None)
      by (rewrite Hd, Ht; apply parse_backtick).
    repeat split; try assumption.
    unfold ResponseNormalizer, normalize. now rewrite Hp.
  - unfold defence. intros H.
    destruct (String_match (trim t) fenceRegex) as [match_|] eqn:M;
      [|now contradiction H].
    destruct (match_ 2) as [[|c b]|] eqn:G; try now contradiction H.
    now exists match_, c, b.
Qed.

Lemma empty_fence_kept_witness :
  defence (u "```json" ++ [LF] ++ u "```") = u "```json" ++ [LF] ++ u "```"
  /\ JSON.parse (defence (u "```json" ++ [LF] ++ u "```")) = None
  /\ ResponseNormalizer (u "```json" ++ [LF] ++ u "```")
     = Rejected MalformedResponse.
Proof.
  apply (proj1 (empty_fence_kept (u "```json" ++ [LF] ++ u "```"))
           (u "json") [LF]); reflexivity.
Defined.

(** C8: a session whose recorder delivers one chunk of zero bytes has
    recorded zero audio bytes, yet the guard of line 93, which counts
    chunks, lets it through: the session goes to [processing], not to
    [error], no message is set, and the read that follows sends a request
    with an empty payload to the provider. *)
Theorem empty_chunk_reaches_provider :
  option_map (fun st => length (concat (App.audioChunks st)))
    (App.run App.init
       [App.ClickStart; App.Settle App.Completes; App.ClickStop;
        App.DataAvailable 0 []])
  = Some 0
  /\ option_map App.recordingState
       (App.run App.init
          [App.ClickStart; App.Settle App.Completes; App.ClickStop;
           App.DataAvailable 0 []; App.Stop 0])
     = Some RecordingState.processing
  /\ option_map App.error
       (App.run App.init
          [App.ClickStart; App.Settle App.Completes; App.ClickStop;
           App.DataAvailable 0 []; App.Stop 0])
     = Some None
  /\ option_map App.requests
       (App.run App.init
          [App.ClickStart; App.Settle App.Completes; App.ClickStop;
           App.DataAvailable 0 []; App.Stop 0; App.LoadEnd 0])
     = Some [analyzeAudio_request []].
Proof. repeat split; vm_compute; reflexivity. Qed.




(* ================================================================== *)
(** * Further properties of de-fencing *)
(* ================================================================== *)

Lemma trim_spaces_around (pre t post : str) :
  forallb is_space pre = true -> forallb is_space post = true ->
  trim (pre ++ t ++ post) = trim t.
Proof.
  intros Hpre Hpost. unfold trim, trimStart.
  rewrite dropWhile_all by exact Hpre.
  destruct (forallb is_space t) eqn:E.
  - rewrite dropWhile_all by exact E.
    pose proof (proj2 (dropWhile_nil_all is_space post) Hpost) as ->.
    now pose proof (proj2 (dropWhile_nil_all is_space t) E) as ->.
  - rewrite dropWhile_some by exact E. now apply trimEnd_app_spaces.
Qed.

Lemma trim_trimmed_is_trimmed (s : str) : trim (trim s) = trim s.
Proof. apply trim_idem. Qed.

(** X1: the regular expression of line 49 matches a string exactly when
    the string opens with three backticks and, after them, closes with
    three backticks; nothing else about the text between them matters. *)
Theorem fence_match_iff (s : str) :
  String_match s fenceRegex = None <-> fenced s = false.
Proof.
  split.
  - intros H. destruct (fenced s) eqn:F; [|reflexivity].
    destruct (fenced_elim _ F) as [W ->].
    destruct (dropWhile_keeps_fence is_word W eq_refl) as [X1 H1].
    destruct (dropWhile_keeps_fence is_space X1 eq_refl) as [X H2].
    assert (HX : dropWhile is_space (dropWhile is_word (W ++ fence3)) = X ++ fence3)
      by now rewrite H1.
    destruct (String_match_fenced _ _ HX) as (mt & Hm & _). congruence.
  - apply String_match_unfenced.
Qed.

(** X2: on every text whose trimmed form opens and closes with three
    backticks, de-fencing in closed form: after the opening run the word
    characters and then the white space are dropped, the closing run and
    the white space before it are dropped, and what is left replaces the
    text unless it is empty, in which case the trimmed text is kept. *)
Theorem defence_on_fenced (t : str) :
  fenced (trim t) = true ->
  exists r X,
    trim t = fence3 ++ r
    /\ dropWhile is_space (dropWhile is_word r) = X ++ fence3
    /\ defence t = match trimEnd X with
                   | [] => trim t
                   | c :: b => c :: b
                   end.
Proof. apply defence_fenced_form. Qed.

Lemma defence_on_fenced_witness :
  exists r X,
    trim (u "```ab  cd  ```") = fence3 ++ r
    /\ dropWhile is_space (dropWhile is_word r) = X ++ fence3
    /\ defence (u "```ab  cd  ```") = match trimEnd X with
                                       | [] => trim (u "```ab  cd  ```")
                                       | c :: b => c :: b
                                       end.
Proof. apply (defence_on_fenced (u "```ab  cd  ```")). reflexivity. Defined.

Lemma defence_cases (t : str) :
  defence t = trim t
  \/ exists r X, trim t = fence3 ++ r
                 /\ dropWhile is_space (dropWhile is_word r) = X ++ fence3
                 /\ trimEnd X <> [] /\ defence t = trimEnd X.
Proof.
  destruct (fenced (trim t)) eqn:F.
  - destruct (defence_fenced_form t F) as (r & X & Ht & HX & Hd).
    destruct (trimEnd X) as [|c b] eqn:T; [now left|].
    right. exists r, X. rewrite T. repeat split; try assumption. discriminate.
  - left. now apply defence_unfenced.
Qed.

Lemma trimEnd_trimmed (X : str) (c : cu) (X' : str) :
  X = c :: X' -> is_space c = false -> trim (trimEnd X) = trimEnd X.
Proof.
  intros -> Hc. pose proof (trimEnd_head (c :: X') c eq_refl Hc) as Hh.
  destruct (trimEnd (c :: X')) as [|d b] eqn:T; [reflexivity|].
  simpl in Hh. injection Hh as ->.
  unfold trim. rewrite (trimStart_stop (c :: b) c eq_refl Hc).
  rewrite <- T. apply trimEnd_idem.
Qed.

(** X3: what de-fencing hands to [JSON.parse] has no white space at either
    end: it is its own trimmed form. *)
Theorem defence_trimmed (t : str) : trim (defence t) = defence t.
Proof.
  destruct (defence_cases t) as [->|(r & X & Ht & HX & Hne & ->)].
  - apply trim_idem.
  - destruct X as [|c X']; [now contradiction Hne|].
    apply (trimEnd_trimmed (c :: X') c X' eq_refl).
    destruct (dropWhile is_word r) as [|e l] eqn:D; [discriminate|].
    exact (dropWhile_head is_space (e :: l) c (X' ++ fence3) HX).
Qed.

(** X4: white space before and after the reply changes nothing: the
    de-fenced text and the result of the normalizer are those of the reply
    without it. *)
Theorem surrounding_space_ignored (pre t post : str) :
  forallb is_space pre = true -> forallb is_space post = true ->
  defence (pre ++ t ++ post) = defence t
  /\ ResponseNormalizer (pre ++ t ++ post) = ResponseNormalizer t.
Proof.
  intros Hpre Hpost.
  assert (H : defence (pre ++ t ++ post) = defence t).
  { unfold defence. now rewrite trim_spaces_around. }
  split; [exact H|]. unfold ResponseNormalizer, normalize. now rewrite H.
Qed.

Lemma surrounding_space_ignored_witness :
  defence ([LF; 32%N] ++ fence (u "json") scenario_body ++ [160%N; LF])
  = defence (fence (u "json") scenario_body)
  /\ ResponseNormalizer ([LF; 32%N] ++ fence (u "json") scenario_body ++ [160%N; LF])
     = ResponseNormalizer (fence (u "json") scenario_body).
Proof.
  apply (surrounding_space_ignored [LF; 32%N] (fence (u "json") scenario_body)
           [160%N; LF]); reflexivity.
Defined.

(** X5: de-fencing only cuts: the text it returns is a contiguous part of
    the reply, so it is never longer than the reply and no unit inside it
    is changed. *)
Theorem defence_is_part (t : str) :
  (exists a b, t = a ++ defence t ++ b) /\ length (defence t) <= length t.
Proof.
  assert (H : exists a b, t = a ++ defence t ++ b).
  { destruct (trim_split t) as (a & b & Ht & _).
    destruct (defence_cases t) as [->|(r & X & Hr & HX & _ & ->)].
    - now exists a, b.
    - destruct (trimEnd_split X) as (w & HXs & _).
      exists (a ++ fence3 ++ takeWhile is_word r
                ++ takeWhile is_space (dropWhile is_word r)),
        (w ++ fence3 ++ b).
      rewrite Ht at 1. rewrite Hr.
      rewrite <- (take_drop_While is_word r) at 1.
      rewrite <- (take_drop_While is_space (dropWhile is_word r)) at 1.
      rewrite HX. rewrite HXs at 1.
      now rewrite <- !app_assoc. }
  split; [exact H|]. destruct H as (a & b & H).
  rewrite H at 2. rewrite !length_app. lia.
Qed.

(** X6: one call removes one fence.  On a body wrapped twice, de-fencing
    returns the inner fenced text, a second call returns the trimmed body,
    and the two differ: on fenced text de-fencing is not idempotent. *)
Theorem nested_fence (tag1 tag2 body : str) :
  forallb is_word tag1 = true -> forallb is_word tag2 = true ->
  forallb is_space body = false ->
  defence (fence tag1 (fence tag2 body)) = fence tag2 body
  /\ defence (defence (fence tag1 (fence tag2 body))) = trim body
  /\ defence (defence (fence tag1 (fence tag2 body)))
     <> defence (fence tag1 (fence tag2 body)).
Proof.
  intros H1 H2 Hb.
  assert (Hin : forallb is_space (fence tag2 body) = false).
  { apply not_all_space. rewrite trim_fence. discriminate. }
  assert (E1 : defence (fence tag1 (fence tag2 body)) = fence tag2 body)
    by now rewrite (defence_fence tag1 _ H1 Hin), trim_fence.
  assert (E2 : defence (fence tag2 body) = trim body)
    by exact (defence_fence tag2 body H2 Hb).
  rewrite E1, E2. repeat split.
  intros E. apply (f_equal (@length cu)) in E.
  pose proof (trim_length body) as Hl.
  unfold fence in E. rewrite !length_app in E. simpl in E. lia.
Qed.

Lemma nested_fence_witness :
  defence (fence (u "md") (fence (u "json") (js "{'a': 1}")))
  = fence (u "json") (js "{'a': 1}")
  /\ defence (defence (fence (u "md") (fence (u "json") (js "{'a': 1}"))))
     = trim (js "{'a': 1}")
  /\ defence (defence (fence (u "md") (fence (u "json") (js "{'a': 1}"))))
     <> defence (fence (u "md") (fence (u "json") (js "{'a': 1}"))).
Proof.
  apply (nested_fence (u "md") (u "json") (js "{'a': 1}")); reflexivity.
Defined.

(** X7: a reply that carries no fence and does not begin with the first
    unit of a JSON value (an empty reply, or prose, also prose that has a
    fence further on) is rejected as malformed: the fence is looked for at
    the ends of the reply only. *)
Theorem prose_rejected (t : str) :
  fenced (trim t) = false -> starts_value (trim t) = false ->
  ResponseNormalizer t = Rejected MalformedResponse.
Proof.
  intros F S. unfold ResponseNormalizer, normalize.
  rewrite (defence_unfenced t F).
  destruct (JSON.parse (trim t)) as [v|] eqn:P; [|reflexivity]. exfalso.
  unfold JSON.parse in P.
  destruct (JSON.parse_value _ (trim t)) as [r|] eqn:V; [|discriminate].
  destruct (parse_value_start _ _ _ V) as (c & s1 & Hs & Hc).
  destruct (trim t) as [|d rest] eqn:T; [discriminate|].
  pose proof (trim_head _ _ _ T) as Hd.
  assert (Hw : JSON.is_ws d = false).
  { destruct (JSON.is_ws d) eqn:W; [|reflexivity].
    apply ws_is_space in W. congruence. }
  unfold JSON.skip_ws in Hs. rewrite dropWhile_stop in Hs by exact Hw.
  injection Hs as -> _. simpl in S. congruence.
Qed.

Lemma prose_rejected_witness :
  ResponseNormalizer
    (u "Here is the JSON: " ++ fence (u "json") scenario_body)
  = Rejected MalformedResponse.
Proof.
  apply (prose_rejected (u "Here is the JSON: " ++ fence (u "json") scenario_body));
    vm_compute; reflexivity.
Defined.

(* ================================================================== *)
(** * Further properties of the normalizer *)
(* ================================================================== *)

Lemma resolved_inv (text : str) (r : value) :
  ResponseNormalizer text = Resolved r ->
  exists ps lang acc x y,
    JSON.parse (defence text) = Some (JObject ps)
    /\ lookup k_language ps = Some (JObject lang)
    /\ lookup k_confidence lang = Some (JNumber x)
    /\ lookup k_accent ps = Some (JObject acc)
    /\ lookup k_confidence acc = Some (JNumber y)
    /\ r = clamped ps lang acc x y.
Proof.
  unfold ResponseNormalizer, normalize. intros H.
  destruct (JSON.parse (defence text)) as [pd|] eqn:P; [|discriminate].
  destruct (invalid (Some pd)) as [[]|e|] eqn:I.
  - unfold validate_and_clamp in H. rewrite I in H. discriminate.
  - destruct (validate_and_clamp_ok _ I)
      as (ps & lang & acc & x & y & -> & Hl & Hx & Ha & Hy & E).
    rewrite E in H. injection H as <-. now exists ps, lang, acc, x, y.
  - unfold validate_and_clamp in H. rewrite I in H. destruct e; discriminate.
  - now apply invalid_modelled in I.
Qed.

(** X8: what the normalizer does with every reply, by the parse of the
    de-fenced text: not JSON, rejected as malformed; the value [null],
    rejected with the TypeError of the property read; any other value of
    the wrong shape, rejected as invalid; a value of the right shape,
    resolved, whatever its confidences are. *)
Theorem normalizer_outcomes (text : str) :
  match JSON.parse (defence text) with
  | None => ResponseNormalizer text = Rejected MalformedResponse
  | Some JNull => ResponseNormalizer text = Rejected (ApiCallFailed TypeError)
  | Some parsedData =>
      if shape_ok parsedData
      then exists r, ResponseNormalizer text = Resolved r
      else ResponseNormalizer text = Rejected InvalidShape
  end.
Proof.
  unfold ResponseNormalizer, normalize.
  destruct (JSON.parse (defence text)) as [pd|]; [|reflexivity].
  assert (H : pd <> JNull ->
              if shape_ok pd
              then exists r, catch (validate_and_clamp pd) = Resolved r
              else catch (validate_and_clamp pd) = Rejected InvalidShape).
  { intros Hn. pose proof (invalid_spec _ Hn) as I.
    destruct (shape_ok pd); simpl in I.
    - destruct (validate_and_clamp_ok _ I)
        as (ps & lang & acc & x & y & _ & _ & _ & _ & _ & E).
      rewrite E. now eexists.
    - unfold validate_and_clamp. now rewrite I. }
  destruct pd; try (apply H; discriminate). reflexivity.
Qed.

Lemma set_prop_keys (k : str) (v : value) (ps : list (str * value)) :
  lookup k ps <> None -> map fst (set_prop k v ps) = map fst ps.
Proof.
  induction ps as [|[k' v'] ps IH]; simpl; [congruence|].
  destruct (str_eqb k k'); simpl; [reflexivity|]. intros H. now rewrite IH.
Qed.

(** X9: the value the normalizer resolves with is the parsed object
    itself with two numbers replaced: it has the same keys in the same
    order, every property other than [language] and [accent] is the parsed
    one, and inside [language] and [accent] the keys are the same and
    every property other than [confidence] (the name, and anything else
    the provider added) is the parsed one. *)
Theorem payload_passes_through (text : str) (r : value) :
  ResponseNormalizer text = Resolved r ->
  exists ps ps',
    JSON.parse (defence text) = Some (JObject ps)
    /\ r = JObject ps'
    /\ map fst ps' = map fst ps
    /\ (forall k, str_eqb k k_language = false -> str_eqb k k_accent = false ->
                  lookup k ps' = lookup k ps)
    /\ forall field, field = k_language \/ field = k_accent ->
         exists o o',
           lookup field ps = Some (JObject o)
           /\ lookup field ps' = Some (JObject o')
           /\ map fst o' = map fst o
           /\ forall k, str_eqb k k_confidence = false ->
                        lookup k o' = lookup k o.
Proof.
  intros H.
  destruct (resolved_inv _ _ H) as (ps & lang & acc & x & y & P & Hl & Hx & Ha & Hy & ->).
  exists ps. eexists. split; [exact P|]. split; [reflexivity|].
  split; [|split].
  - rewrite !set_prop_keys; try reflexivity; try congruence.
    rewrite lookup_set_other by reflexivity. congruence.
  - intros k K1 K2. now rewrite !lookup_set_other.
  - intros field [->| ->].
    + exists lang. eexists. split; [exact Hl|]. split.
      * rewrite lookup_set_other by reflexivity. apply lookup_set_same.
      * split; [apply set_prop_keys; congruence|].
        intros k K. now apply lookup_set_other.
    + exists acc. eexists. split; [exact Ha|]. split; [apply lookup_set_same|].
      split; [apply set_prop_keys; congruence|].
      intros k K. now apply lookup_set_other.
Qed.

Lemma payload_passes_through_witness :
  exists r ps ps',
    ResponseNormalizer
      (js "{'id':7,'language':{'name':'English','confidence':150,'code':'en'},'accent':{'name':'American','confidence':88}}")
    = Resolved r
    /\ r = JObject ps'
    /\ map fst ps' = map fst ps
    /\ lookup (u "id") ps' = lookup (u "id") ps.
Proof.
  eexists.
  match goal with
  | |- exists ps ps', ResponseNormalizer ?t = Resolved ?r /\ _ =>
      assert (R : ResponseNormalizer t = Resolved r) by (vm_compute; reflexivity);
      destruct (payload_passes_through t r R)
        as (ps & ps' & _ & E & K & O & _)
  end.
  exists ps, ps'. repeat split; try assumption. now apply O.
Defined.

(* ================================================================== *)
(** * Further properties of clamping *)
(* ================================================================== *)

Lemma le_trans (x y z : number) :
  le x y = true -> le y z = true -> le x z = true.
Proof.
  unfold le, SFleb, SFcompare.
  destruct x as [sx|sx| |sx mx ex], y as [sy|sy| |sy my ey],
    z as [sz|sz| |sz mz ez];
    try discriminate; try reflexivity;
    try (destruct sx, sy, sz; (discriminate || reflexivity));
    try (destruct sx, sy; (discriminate || reflexivity));
    try (destruct sx, sz; (discriminate || reflexivity));
    try (destruct sy, sz; (discriminate || reflexivity));
    try (destruct sx; (discriminate || reflexivity));
    try (destruct sy; (discriminate || reflexivity));
    try (destruct sz; (discriminate || reflexivity)).
  change (Pos.compare_cont Eq mx my) with (Pos.compare mx my).
  change (Pos.compare_cont Eq my mz) with (Pos.compare my mz).
  change (Pos.compare_cont Eq mx mz) with (Pos.compare mx mz).
  destruct sx, sy, sz; try discriminate; try reflexivity;
    destruct (Z.compare_spec ex ey), (Z.compare_spec ey ez),
      (Z.compare_spec ex ez);
    destruct (Pos.compare_spec mx my), (Pos.compare_spec my mz),
      (Pos.compare_spec mx mz);
    simpl; try discriminate; try reflexivity; lia.
Qed.

Lemma not_lt_le (x y : number) :
  is_nan x = false -> is_nan y = false -> lt x y = false -> le y x = true.
Proof.
  intros Nx Ny. unfold lt, le, SFltb, SFleb.
  destruct (SFcompare x y) as [c|] eqn:E.
  - rewrite (SFcompare_antisym _ _ _ E). now destruct c.
  - destruct x, y; try discriminate; simpl in E; try discriminate;
      repeat match goal with b : bool |- _ => destruct b end; discriminate.
Qed.

Lemma lt_le_false (x y : number) : lt x y = true -> le y x = false.
Proof.
  unfold lt, le, SFltb, SFleb.
  destruct (SFcompare x y) as [[]|] eqn:E; try discriminate.
  intros _. now rewrite (SFcompare_antisym _ _ _ E).
Qed.

Lemma le_not_nan_r (x y : number) : le x y = true -> is_nan y = false.
Proof. destruct x, y; try reflexivity; discriminate. Qed.

Lemma clamp_not_neg_zero (x : number) : is_neg_zero (clamp x) = false.
Proof.
  rewrite clamp_unfold. destruct (is_nan x); [reflexivity|]. cbv zeta.
  destruct (lt zero (if lt x hundred then x else hundred)) eqn:L; [|reflexivity].
  destruct (if lt x hundred then x else hundred) as [[]| | |]; try reflexivity.
  discriminate.
Qed.

Lemma clamp_idem (x : number) : clamp (clamp x) = clamp x.
Proof.
  destruct (is_nan x) eqn:N.
  - destruct x; try discriminate. reflexivity.
  - destruct (clamp_range x N) as [H0 H1].
    exact (proj2 (clamp_within (clamp x) H0 H1) (clamp_not_neg_zero x)).
Qed.

Lemma clamp_monotone (x y : number) :
  le x y = true -> le (clamp x) (clamp y) = true.
Proof.
  intros H. pose proof (le_not_nan _ _ H) as Nx.
  pose proof (le_not_nan_r _ _ H) as Ny.
  destruct (clamp_range y Ny) as [Y0 Y1].
  rewrite (clamp_unfold x), Nx. cbv zeta.
  destruct (lt x hundred) eqn:Lx.
  - destruct (lt zero x) eqn:L0; [|exact Y0].
    rewrite (clamp_unfold y), Ny. cbv zeta.
    destruct (lt y hundred) eqn:Ly.
    + destruct (lt zero y) eqn:L0y; [exact H|]. exfalso.
      apply (not_lt_le zero y eq_refl Ny) in L0y.
      pose proof (le_trans _ _ _ H L0y) as C.
      rewrite (lt_le_false _ _ L0) in C. discriminate.
    + now apply lt_le.
  - apply (not_lt_le x hundred Nx eq_refl) in Lx.
    pose proof (le_trans _ _ _ Lx H) as C.
    rewrite (clamp_unfold y), Ny. cbv zeta.
    destruct (lt y hundred) eqn:Ly; [|reflexivity].
    rewrite (lt_le_false _ _ Ly) in C. discriminate.
Qed.

(** X10: clamping as an operation on numbers: applying it twice is
    applying it once; it keeps the order of numbers; it never returns -0;
    it sends Infinity to 100 and -Infinity to 0; and NaN, the one number it
    cannot place, comes back as NaN. *)
Theorem clamp_algebra :
  (forall x, clamp (clamp x) = clamp x)
  /\ (forall x y, le x y = true -> le (clamp x) (clamp y) = true)
  /\ (forall x, is_neg_zero (clamp x) = false)
  /\ clamp Infinity = hundred
  /\ clamp (S754_infinity true) = zero
  /\ clamp NaN = NaN.
Proof.
  split; [exact clamp_idem|]. split; [exact clamp_monotone|].
  split; [exact clamp_not_neg_zero|]. repeat split.
Qed.

(* ================================================================== *)
(** * Further properties of [analyzeAudio] *)
(* ================================================================== *)

Lemma normalize_throws (text : str) (e : exn) :
  normalize text = Throw e ->
  e = SyntaxError \/ e = TypeError \/ e = Error invalid_message.
Proof.
  unfold normalize.
  destruct (JSON.parse (defence text)) as [pd|]; [|intros [= <-]; auto].
  unfold validate_and_clamp.
  destruct (invalid (Some pd)) as [[]|e'|] eqn:I; cbn [bind].
  - intros [= <-]. auto.
  - destruct (validate_and_clamp_ok _ I)
      as (ps & lang & acc & x & y & _ & _ & _ & _ & _ & E).
    unfold validate_and_clamp in E. rewrite I in E. cbn [bind] in E.
    rewrite E. discriminate.
  - intros [= <-]. destruct pd; try (rewrite invalid_spec in I by discriminate;
                                     discriminate).
    injection I as <-. auto.
  - discriminate.
Qed.

(** X11: how [analyzeAudio] settles, by the provider's answer.  A thrown
    [Error] is rethrown with its message behind "API call failed: "; a
    response without text gives the TypeError of the call of [trim] on
    [undefined]; a response with text gives what the normalizer gives; and
    the unknown-error rejection of line 76 happens exactly when the
    provider throws something that is not an [Error], never for a failure
    of the normalizer. *)
Theorem analyzeAudio_settles (generateContent : request -> reply) (base64Audio : str) :
  (forall msg, generateContent (analyzeAudio_request base64Audio) = Throws (Error msg) ->
     analyzeAudio generateContent base64Audio = Rejected (ApiCallFailed (Error msg)))
  /\ (generateContent (analyzeAudio_request base64Audio) = Responds None ->
      analyzeAudio generateContent base64Audio = Rejected (ApiCallFailed TypeError))
  /\ (forall text, generateContent (analyzeAudio_request base64Audio) = Responds (Some text) ->
        analyzeAudio generateContent base64Audio = ResponseNormalizer text)
  /\ (analyzeAudio generateContent base64Audio = Rejected UnknownError
      <-> generateContent (analyzeAudio_request base64Audio) = Throws NonError).
Proof.
  unfold analyzeAudio, ResponseNormalizer.
  repeat split.
  - now intros msg ->.
  - now intros ->.
  - now intros text ->.
  - destruct (generateContent _) as [e|[text|]].
    + destruct e; try discriminate. reflexivity.
    + destruct (normalize text) as [a|e|] eqn:N; try discriminate.
      destruct (normalize_throws _ _ N) as [->|[->| ->]]; discriminate.
    + discriminate.
  - now intros ->.
Qed.

Lemma analyzeAudio_settles_witness :
  analyzeAudio (fun _ => Throws (Error "quota exceeded")) []
  = Rejected (ApiCallFailed (Error "quota exceeded")).
Proof.
  apply (proj1 (analyzeAudio_settles (fun _ => Throws (Error "quota exceeded")) [])).
  reflexivity.
Defined.

(* ================================================================== *)
(** * Further properties of the recording controller *)
(* ================================================================== *)

Lemma replace_nth_twice {A : Type} (x y : A) (l : list A) :
  forall i, replace_nth i x (replace_nth i y l) = replace_nth i x l.
Proof.
  induction l as [|h t IH]; intros [|i]; simpl; try reflexivity.
  now rewrite IH.
Qed.

Lemma remove_nth_last {A : Type} (x : A) (l : list A) :
  remove_nth (length l) (l ++ [x]) = l.
Proof.
  induction l as [|h t IH]; simpl; [reflexivity|]. now rewrite IH.
Qed.

Module SessionFacts.

Import App Session.

(** ** The payload of the request *)

Lemma alphabet_not_comma (n : N) : N.eqb (alphabet n) 44 = false.
Proof.
  unfold alphabet. apply N.eqb_neq.
  destruct (N.ltb_spec n 26); [lia|].
  destruct (N.ltb_spec n 52); [lia|].
  destruct (N.ltb_spec n 62); [lia|].
  destruct (N.eqb n 62); lia.
Qed.

Lemma base64_no_comma (n : nat) :
  forall bs, length bs <= n -> no_comma (base64 bs) = true.
Proof.
  unfold no_comma.
  induction n as [|n IH]; intros bs Hn.
  - destruct bs; [reflexivity | simpl in Hn; lia].
  - destruct bs as [|a [|b [|c r]]]; cbn [base64]; try reflexivity.
    + simpl. now rewrite !alphabet_not_comma.
    + simpl. now rewrite !alphabet_not_comma.
    + rewrite forallb_app. simpl forallb at 1.
      rewrite !alphabet_not_comma. simpl. apply IH. simpl in Hn. lia.
Qed.

Lemma split_no_comma (b : str) : no_comma b = true -> split_comma b = [b].
Proof.
  unfold no_comma. induction b as [|c b IH]; simpl; [reflexivity|].
  intros H. apply andb_true_iff in H as [Hc Hb].
  apply negb_true_iff in Hc. rewrite Hc, (IH Hb). reflexivity.
Qed.

Lemma split_app (a b : str) :
  no_comma a = true -> split_comma (a ++ 44%N :: b) = a :: split_comma b.
Proof.
  unfold no_comma. induction a as [|c a IH]; simpl; [reflexivity|].
  intros H. apply andb_true_iff in H as [Hc Ha].
  apply negb_true_iff in Hc. rewrite Hc, (IH Ha). reflexivity.
Qed.

(** Line 108: the second piece of the data URL is the base64 text. *)
Lemma dataURL_payload (blob : Blob) :
  nth 1 (split_comma (readAsDataURL blob)) []
  = base64 (List.map Byte.to_N blob).
Proof.
  unfold readAsDataURL.
  change (u "data:audio/webm;base64,")
    with (u "data:audio/webm;base64" ++ [44%N]).
  rewrite <- app_assoc. cbn [app].
  rewrite split_app by reflexivity.
  rewrite split_no_comma by (apply (base64_no_comma _ _ (le_n _))).
  reflexivity.
Qed.

(** ** The chunks of a recorder *)

Lemma run_chunks (i : nat) (cs : list Blob) :
  forall (c : Blob) (st : State) (r : recorder),
    nth_error (recorders st) i = Some r -> busy r = true ->
    run st (List.map (DataAvailable i) (c :: cs))
    = Some (with_audioChunks (audioChunks st ++ c :: cs)
              (with_recorders (replace_nth i Flushed (recorders st)) st)).
Proof.
  induction cs as [|d cs IH]; intros c st r Hr Hb.
  - simpl. rewrite Hr. now destruct r.
  - change (List.map (DataAvailable i) (c :: d :: cs))
      with (DataAvailable i c :: List.map (DataAvailable i) (d :: cs)).
    cbn [run step]. rewrite Hr.
    assert (E : (match r with
                 | Stopping | Flushed =>
                     Some (dataavailable c
                             (with_recorders
                                (replace_nth i Flushed (recorders st)) st))
                 | _ => None
                 end)
                = Some (dataavailable c
                          (with_recorders
                             (replace_nth i Flushed (recorders st)) st)))
      by (now destruct r).
    rewrite E.
    rewrite (IH d _ Flushed);
      [|exact (nth_error_replace_nth_eq _ _ _ _ Hr) | reflexivity].
    unfold dataavailable, with_audioChunks, with_recorders; simpl.
    now rewrite replace_nth_twice, <- app_assoc.
Qed.

(** ** Counting events *)

Lemma live_snoc (r : recorder) (l : list recorder) :
  length (filter is_live (l ++ [r]))
  = length (filter is_live l) + Nat.b2n (is_live r).
Proof.
  rewrite filter_app, length_app. simpl. now destruct (is_live r).
Qed.

Lemma live_replace (x r : recorder) (l : list recorder) :
  forall i, nth_error l i = Some r ->
    length (filter is_live (replace_nth i x l)) + Nat.b2n (is_live r)
    = length (filter is_live l) + Nat.b2n (is_live x).
Proof.
  induction l as [|h t IH]; intros [|i] H; simpl in *; try discriminate.
  - injection H as ->. destruct (is_live x), (is_live r); simpl; lia.
  - specialize (IH i H). destruct (is_live h); simpl; lia.
Qed.

Lemma step_counts (st st' : State) (ev : event) :
  step st ev = Some st' ->
  length (requests st') = length (requests st) + Nat.b2n (is_loadend ev)
  /\ length (requests st') + length (readers st')
     <= length (requests st) + length (readers st) + Nat.b2n (is_stop ev)
  /\ Nat.b2n (is_stop ev) + live st' = live st + Nat.b2n (is_granted ev)
  /\ pendingStarts st' + Nat.b2n (is_settle ev)
     = pendingStarts st + Nat.b2n (is_start ev).
Proof.
  intros H. unfold live. destruct ev as [|o| |i chunk|i|i|i gc|].
  - simpl in H. destruct (recordingState st); try discriminate.
    injection H as <-. simpl. lia.
  - simpl in H. destruct (pendingStarts st) as [|n] eqn:P; [discriminate|].
    injection H as <-. destruct o; simpl; rewrite ?live_snoc; simpl; lia.
  - simpl in H. destruct (recordingState st); try discriminate.
    injection H as <-. unfold stopRecording.
    destruct (mediaRecorderRef st) as [i|]; [|simpl; lia].
    destruct (nth_error (recorders st) i) as [[]|] eqn:Hr; simpl; try lia.
    pose proof (live_replace Stopping _ _ _ Hr). simpl in *. lia.
  - simpl in H.
    destruct (nth_error (recorders st) i) as [[]|] eqn:Hr; try discriminate;
      injection H as <-; simpl;
      pose proof (live_replace Flushed _ _ _ Hr); simpl in *; lia.
  - simpl in H.
    destruct (nth_error (recorders st) i) as [[]|] eqn:Hr; try discriminate.
    injection H as <-. pose proof (live_replace Inactive _ _ _ Hr) as L.
    unfold processAudio; simpl.
    destruct (audioChunks st); simpl; rewrite ?length_app; simpl in *; lia.
  - simpl in H. destruct (nth_error (readers st) i) as [blob|] eqn:Hb; [|discriminate].
    injection H as <-. pose proof (length_remove_nth _ _ _ Hb). simpl. lia.
  - simpl in H. destruct (nth_error (calls st) i) as [b|]; [|discriminate].
    injection H as <-. unfold onloadend_resume.
    destruct (analyzeAudio gc b); simpl; lia.
  - destruct (AppFacts.reset_inv st st' H) as [-> _]. simpl. lia.
Qed.

Lemma count_cons (p : event -> bool) (ev : event) (evs : list event) :
  count p (ev :: evs) = Nat.b2n (p ev) + count p evs.
Proof. unfold count. simpl. now destruct (p ev). Qed.

Lemma run_counts (evs : list event) :
  forall st st', run st evs = Some st' ->
    length (requests st') = length (requests st) + count is_loadend evs
    /\ length (requests st') + length (readers st')
       <= length (requests st) + length (readers st) + count is_stop evs
    /\ count is_stop evs + live st' = live st + count is_granted evs
    /\ pendingStarts st' + count is_settle evs
       = pendingStarts st + count is_start evs.
Proof.
  induction evs as [|ev evs IH]; intros st st' H.
  - simpl in H. injection H as <-. unfold count. simpl. lia.
  - simpl in H. destruct (step st ev) as [st1|] eqn:S; [|discriminate].
    destruct (step_counts _ _ _ S) as (A1 & A2 & A3 & A4).
    destruct (IH _ _ H) as (B1 & B2 & B3 & B4). rewrite !count_cons. lia.
Qed.

(** ** The way back to idle *)

Lemma recovers_more (n m : nat) (st : State) :
  n <= m -> recovers n st -> recovers m st.
Proof.
  intros L (evs & st' & H1 & H2 & H3). exists evs, st'.
  repeat split; [lia | assumption | assumption].
Qed.

Lemma recovers_after (n : nat) (st st1 : State) (ev : event) :
  step st ev = Some st1 -> recovers n st1 -> recovers (S n) st.
Proof.
  intros S (evs & st' & H1 & H2 & H3). exists (ev :: evs), st'.
  repeat split; [simpl; lia | simpl; now rewrite S | assumption].
Qed.

Lemma recovers_idle (st : State) :
  recordingState st = RecordingState.idle -> recovers 0 st.
Proof. intros E. exists [], st. repeat split; [simpl; lia | assumption]. Qed.

Lemma recovers_error (st : State) :
  recordingState st = RecordingState.error -> recovers 1 st.
Proof.
  intros E. apply (recovers_after 0 st (handleReset st) ClickReset).
  - simpl. now rewrite E.
  - now apply recovers_idle.
Qed.

Lemma recovers_result (st : State) (r : value) :
  recordingState st = RecordingState.result -> analysisResult st = Some r ->
  recovers 1 st.
Proof.
  intros E A. apply (recovers_after 0 st (handleReset st) ClickReset).
  - simpl. now rewrite E, A.
  - now apply recovers_idle.
Qed.

(** A provider that throws something other than an [Error]. *)
Lemma recovers_call (st : State) :
  calls st <> [] -> recovers 2 st.
Proof.
  intros N. destruct (calls st) as [|b cs] eqn:C; [now contradiction N|].
  apply (recovers_after 1 st
           (onloadend_resume (fun _ => Throws NonError) b
              (with_calls (remove_nth 0 (calls st)) st))
           (Answer 0 (fun _ => Throws NonError))).
  - simpl. now rewrite C.
  - now apply recovers_error.
Qed.

Lemma recovers_read (st : State) :
  readers st <> [] -> recovers 3 st.
Proof.
  intros N. destruct (readers st) as [|blob rs] eqn:R; [now contradiction N|].
  apply (recovers_after 2 st
           (onloadend blob (with_readers (remove_nth 0 (readers st)) st))
           (LoadEnd 0)).
  - simpl. now rewrite R.
  - apply recovers_call. simpl. now destruct (calls st).
Qed.

Lemma recovers_flushed (st : State) (i : nat) :
  nth_error (recorders st) i = Some Flushed -> recovers 4 st.
Proof.
  intros Hf.
  apply (recovers_after 3 st
           (processAudio
              (with_recorders (replace_nth i Inactive (recorders st)) st))
           (Stop i)).
  - simpl. now rewrite Hf.
  - unfold processAudio; simpl. destruct (audioChunks st).
    + apply (recovers_more 1); [lia|]. now apply recovers_error.
    + apply recovers_read. simpl. now destruct (readers st).
Qed.

Lemma recovers_busy (st : State) (i : nat) (r : recorder) :
  nth_error (recorders st) i = Some r -> busy r = true -> recovers 5 st.
Proof.
  intros Hr Hb.
  apply (recovers_after 4 st
           (dataavailable []
              (with_recorders (replace_nth i Flushed (recorders st)) st))
           (DataAvailable i [])).
  - simpl. rewrite Hr. now destruct r.
  - apply (recovers_flushed _ i). simpl.
    exact (nth_error_replace_nth_eq _ _ _ _ Hr).
Qed.

Lemma recovers_recording (st : State) (i : nat) (r : recorder) :
  recordingState st = RecordingState.recording ->
  mediaRecorderRef st = Some i ->
  nth_error (recorders st) i = Some r -> r <> Inactive ->
  recovers 6 st.
Proof.
  intros E Hi Hr Hn. destruct r.
  - apply (recovers_after 5 st
             (with_recorders (replace_nth i Stopping (recorders st)) st)
             ClickStop).
    + simpl. rewrite E. unfold stopRecording. now rewrite Hi, Hr.
    + apply (recovers_busy _ i Stopping); [|reflexivity]. simpl.
      exact (nth_error_replace_nth_eq _ _ _ _ Hr).
  - apply (recovers_more 5); [lia|]. now apply (recovers_busy st i Stopping).
  - apply (recovers_more 5); [lia|]. now apply (recovers_busy st i Flushed).
  - now contradiction Hn.
Qed.

End SessionFacts.



(** X13: a recording from the click on stop to the request.  When the
    session is recording, the recorder behind [mediaRecorderRef] is
    recording and, after the click on stop, it delivers the chunks
    [chunks] (at least one) and then its [stop] event, the read that
    follows sends one request, whose data is the base64 text of the chunk
    list put end to end: the chunks that were in the list, then [chunks]
    in the order of delivery.  The chunk list is empty again afterwards.
    In an orderly session the list was empty before, so the request
    carries this recording and nothing of an earlier one. *)
Theorem request_carries_recording
        (st st' : App.State) (i : nat) (chunks : list App.Blob) :
  App.recordingState st = RecordingState.recording ->
  App.mediaRecorderRef st = Some i ->
  nth_error (App.recorders st) i = Some App.Active ->
  chunks <> [] ->
  App.run st ([App.ClickStop] ++ List.map (App.DataAvailable i) chunks
              ++ [App.Stop i; App.LoadEnd (length (App.readers st))])
  = Some st' ->
  App.requests st'
  = analyzeAudio_request
      (App.base64 (List.map Byte.to_N (concat (App.audioChunks st ++ chunks))))
    :: App.requests st
  /\ App.audioChunks st' = []
  /\ (App.orderly st ->
      App.requests st'
      = analyzeAudio_request (App.base64 (List.map Byte.to_N (concat chunks)))
        :: App.requests st).
Proof.
  intros E Hi Hr Hne H.
  assert (G : App.requests st'
              = analyzeAudio_request
                  (App.base64
                     (List.map Byte.to_N (concat (App.audioChunks st ++ chunks))))
                :: App.requests st
              /\ App.audioChunks st' = []).
  { destruct chunks as [|c cs]; [now contradiction Hne|].
    cbn [app App.run App.step] in H. rewrite E in H.
    unfold App.stopRecording in H. rewrite Hi, Hr in H.
    rewrite AppFacts.run_app in H.
    rewrite (SessionFacts.run_chunks i cs c _ App.Stopping) in H;
      [|exact (nth_error_replace_nth_eq _ _ _ _ Hr) | reflexivity].
    cbn [App.run App.step] in H.
    cbn [App.recorders App.with_recorders App.with_audioChunks] in H.
    rewrite replace_nth_twice in H.
    rewrite (nth_error_replace_nth_eq _ _ _ _ Hr) in H.
    unfold App.processAudio in H.
    cbn [App.audioChunks App.with_recorders App.with_audioChunks] in H.
    destruct (App.audioChunks st ++ c :: cs) as [|a l] eqn:A;
      [now destruct (App.audioChunks st)|].
    cbn [App.readers App.with_readers App.with_audioChunks App.setError
           App.setRecordingState App.with_recorders] in H.
    rewrite nth_error_last, remove_nth_last in H.
    unfold App.onloadend in H. rewrite SessionFacts.dataURL_payload in H.
    injection H as <-. split; reflexivity. }
  destruct G as [G1 G2]. repeat split; try assumption.
  intros O. rewrite G1.
  assert (N : App.audioChunks st = []).
  { destruct (App.audioChunks st) eqn:C; [reflexivity|].
    destruct (AppFacts.Single_orderly st O) as (_ & _ & _ & _ & _ & S6 & _).
    destruct S6 as (k & Hk & Hf); [now rewrite C|]. congruence. }
  now rewrite N.
Qed.

Lemma request_carries_recording_witness :
  option_map App.requests
    (App.run
       (App.startRecording_resume App.Completes App.init)
       ([App.ClickStop]
          ++ List.map (App.DataAvailable 0) [[Byte.x52; Byte.x49]; [Byte.x46]]
          ++ [App.Stop 0; App.LoadEnd 0]))
  = Some [analyzeAudio_request (u "UklG")].
Proof.
  destruct (App.run
              (App.startRecording_resume App.Completes App.init)
              ([App.ClickStop]
                 ++ List.map (App.DataAvailable 0) [[Byte.x52; Byte.x49]; [Byte.x46]]
                 ++ [App.Stop 0; App.LoadEnd 0]))
    as [st'|] eqn:E; [|discriminate E].
  simpl. f_equal.
  refine (proj1 (request_carries_recording
                   (App.startRecording_resume App.Completes App.init) st' 0
                   [[Byte.x52; Byte.x49]; [Byte.x46]]
                   eq_refl eq_refl eq_refl _ E)).
  discriminate.
Defined.

(** X14: over every sequence of events from the initial state, also when
    sessions overlap, the number of requests sent to the provider is the
    number of reads that ended, which is at most the number of [stop]
    events of the recorders, which is at most the number of recorders that
    were started, which is at most the number of calls of [getUserMedia]
    that settled, which is at most the number of clicks on Start: a
    recording causes at most one request, and nothing else causes any. *)
Theorem one_request_per_recording (evs : list App.event) (st : App.State) :
  App.run App.init evs = Some st ->
  length (App.requests st) = Session.count Session.is_loadend evs
  /\ Session.count Session.is_loadend evs <= Session.count Session.is_stop evs
  /\ Session.count Session.is_stop evs <= Session.count Session.is_granted evs
  /\ Session.count Session.is_granted evs <= Session.count Session.is_settle evs
  /\ Session.count Session.is_settle evs <= Session.count Session.is_start evs.
Proof.
  intros H. destruct (SessionFacts.run_counts evs _ _ H) as (A1 & A2 & A3 & A4).
  unfold Session.live in *. simpl in *.
  repeat split; try lia.
  clear. unfold Session.count. induction evs as [|ev evs IH]; simpl; [lia|].
  destruct ev as [|[]| | | | | |]; simpl; lia.
Qed.

Lemma one_request_per_recording_witness :
  option_map (fun st => length (App.requests st))
    (App.run App.init
       [App.ClickStart; App.ClickStart; App.Settle App.Completes;
        App.ClickStop; App.ClickStop; App.DataAvailable 0 [Byte.x01];
        App.Stop 0; App.LoadEnd 0; App.Settle App.Refused;
        App.Answer 0 (fun _ => Throws NonError); App.ClickReset])
  = Some 1.
Proof.
  destruct (App.run App.init
              [App.ClickStart; App.ClickStart; App.Settle App.Completes;
               App.ClickStop; App.ClickStop; App.DataAvailable 0 [Byte.x01];
               App.Stop 0; App.LoadEnd 0; App.Settle App.Refused;
               App.Answer 0 (fun _ => Throws NonError); App.ClickReset])
    as [st|] eqn:E; [|vm_compute in E; discriminate E].
  simpl. f_equal.
  exact (proj1 (one_request_per_recording _ st E)).
Defined.

(** X15: the controller cannot get stuck: from every state it can reach,
    also when sessions overlap, at most six further events bring the
    session back to idle: the click on stop, the [dataavailable] and the
    [stop] event of the recorder, the end of the read, the answer of the
    provider and the click on the reset button. *)
Theorem session_recoverable (st : App.State) :
  App.reachable st ->
  exists evs st',
    length evs <= 6
    /\ App.run st evs = Some st'
    /\ App.recordingState st' = RecordingState.idle.
Proof.
  intros R. destruct (AppFacts.Inv_reachable st R)
    as (I1 & I2 & I3 & I4 & I5 & I6).
  change (Session.recovers 6 st).
  destruct (App.recordingState st) eqn:E.
  - apply (SessionFacts.recovers_more 0); [lia|].
    now apply SessionFacts.recovers_idle.
  - destruct (I6 eq_refl) as (i & r & Hi & Hr & Hn).
    exact (SessionFacts.recovers_recording st i r E Hi Hr Hn).
  - destruct (I5 eq_refl) as [N | N].
    + apply (SessionFacts.recovers_more 3); [lia|].
      now apply SessionFacts.recovers_read.
    + apply (SessionFacts.recovers_more 2); [lia|].
      now apply SessionFacts.recovers_call.
  - destruct (App.analysisResult st) as [r|] eqn:A;
      [|now contradiction (I1 eq_refl)].
    apply (SessionFacts.recovers_more 1); [lia|].
    exact (SessionFacts.recovers_result st r E A).
  - apply (SessionFacts.recovers_more 1); [lia|].
    now apply SessionFacts.recovers_error.
Qed.

Lemma session_recoverable_witness :
  exists evs st',
    length evs <= 6
    /\ App.run (App.startRecording_resume App.Completes App.init) evs = Some st'
    /\ App.recordingState st' = RecordingState.idle.
Proof.
  apply (session_recoverable (App.startRecording_resume App.Completes App.init)).
  apply (AppFacts.run_reachable [App.ClickStart; App.Settle App.Completes]
           App.init _ App.reachable_init).
  reflexivity.
Defined.

(** X18: the Start button stays enabled while a call of [getUserMedia] is
    pending, and the rest of [startRecording] sets the state without
    testing it.  After two clicks on Start, one recording can run to its
    result before the second call settles; when it does, the session goes
    from [result] back to [recording], with the result still stored: a
    transition that is not an edge of the state machine.  This holds for
    every chunk and every answer of the provider that resolves. *)
Theorem second_start_restarts
        (chunk : App.Blob) (generateContent : request -> reply) (r : value) :
  analyzeAudio generateContent (App.base64 (List.map Byte.to_N chunk))
  = Resolved r ->
  exists st st',
    App.run App.init
      [App.ClickStart; App.ClickStart; App.Settle App.Completes;
       App.ClickStop; App.DataAvailable 0 chunk; App.Stop 0; App.LoadEnd 0;
       App.Answer 0 generateContent] = Some st
    /\ App.recordingState st = RecordingState.result
    /\ App.step st (App.Settle App.Completes) = Some st'
    /\ App.recordingState st' = RecordingState.recording
    /\ App.analysisResult st' = Some r
    /\ App.edge RecordingState.result RecordingState.recording = false.
Proof.
  intros H.
  pose (b := nth 1 (App.split_comma (App.readAsDataURL (concat [chunk]))) []).
  assert (E : App.run App.init
                [App.ClickStart; App.ClickStart; App.Settle App.Completes;
                 App.ClickStop; App.DataAvailable 0 chunk; App.Stop 0;
                 App.LoadEnd 0]
              = Some (App.Build RecordingState.processing None None []
                        [App.Inactive] (Some 0) 1 [] [b]
                        [analyzeAudio_request b]))
    by (vm_compute; reflexivity).
  change [App.ClickStart; App.ClickStart; App.Settle App.Completes;
          App.ClickStop; App.DataAvailable 0 chunk; App.Stop 0; App.LoadEnd 0;
          App.Answer 0 generateContent]
    with ([App.ClickStart; App.ClickStart; App.Settle App.Completes;
           App.ClickStop; App.DataAvailable 0 chunk; App.Stop 0; App.LoadEnd 0]
            ++ [App.Answer 0 generateContent]).
  rewrite AppFacts.run_app, E.
  cbn [App.run App.step App.calls nth_error remove_nth App.with_calls
         App.recordingState App.analysisResult App.error App.audioChunks
         App.recorders App.mediaRecorderRef App.pendingStarts App.readers
         App.requests].
  unfold App.onloadend_resume. subst b.
  rewrite SessionFacts.dataURL_payload. cbn [concat]. rewrite app_nil_r, H.
  eexists. eexists. repeat split.
Qed.

Lemma second_start_restarts_witness :
  exists st st',
    App.run App.init
      [App.ClickStart; App.ClickStart; App.Settle App.Completes;
       App.ClickStop; App.DataAvailable 0 [Byte.x01]; App.Stop 0; App.LoadEnd 0;
       App.Answer 0 (fun _ => Responds (Some scenario_body))] = Some st
    /\ App.recordingState st = RecordingState.result
    /\ App.step st (App.Settle App.Completes) = Some st'
    /\ App.recordingState st' = RecordingState.recording.
Proof.
  destruct (analyzeAudio (fun _ => Responds (Some scenario_body))
              (App.base64 (List.map Byte.to_N [Byte.x01])))
    as [r|f|] eqn:A; [|vm_compute in A; discriminate A ..].
  destruct (second_start_restarts [Byte.x01]
              (fun _ => Responds (Some scenario_body)) r A)
    as (st & st' & H1 & H2 & H3 & H4 & _).
  exists st, st'. split; [exact H1|]. split; [exact H2|].
  split; [exact H3 | exact H4].
Defined.





(* ================================================================== *)
(** * The voice visualizer *)
(* ================================================================== *)

Module VisualizerFacts.

Import VoiceVisualizer.

Lemma index_table_spec (bound len i : nat) :
  index_table bound = true -> len <= bound -> i < NUM_BARS ->
  to_index (index_of_length len i) = Some (len * i / NUM_BARS).
Proof.
  intros T Hl Hi. unfold index_table in T.
  rewrite forallb_forall in T.
  assert (I1 : In len (List.seq 0 (S bound))) by (apply in_seq; lia).
  specialize (T len I1). clear I1.
  rewrite forallb_forall in T.
  assert (I2 : In i (List.seq 0 NUM_BARS)) by (apply in_seq; lia).
  specialize (T i I2). clear I2.
  destruct (to_index (index_of_length len i)) as [k|].
  - apply Nat.eqb_eq in T. rewrite T. reflexivity.
  - discriminate T.
Qed.

Lemma index_table_256 : index_table 256 = true.
Proof. vm_cast_no_check (eq_refl true). Qed.

Lemma index_exact (len i : nat) :
  len <= 256 -> i < NUM_BARS ->
  to_index (index_of_length len i) = Some (len * i / NUM_BARS).
Proof. exact (index_table_spec 256 len i index_table_256). Qed.

Lemma index_in_bounds (len i : nat) :
  0 < len -> i < NUM_BARS -> len * i / NUM_BARS < len.
Proof.
  unfold NUM_BARS. intros Hl Hi.
  apply Nat.Div0.div_lt_upper_bound. nia.
Qed.

Lemma byte_heights (b : Byte.byte) :
  le (of_int 5) (byte_height (Byte.to_N b)) = true
  /\ le (byte_height (Byte.to_N b)) hundred = true
  /\ ((Byte.to_N b <=? 12)%N = true -> byte_height (Byte.to_N b) = of_int 5)
  /\ ((Byte.to_N b <=? 12)%N = false ->
      lt (of_int 5) (byte_height (Byte.to_N b)) = true
      /\ byte_height (Byte.to_N b)
         = SFmul prec emax
             (SFdiv prec emax (of_int (Z.of_N (Byte.to_N b))) (of_int 255))
             (of_int 100)).
Proof.
  destruct b; vm_compute; repeat split; intros; reflexivity || discriminate.
Qed.

Lemma bars_nth (dataArray : option (list Byte.byte)) (i : nat) :
  i < NUM_BARS -> nth i (bars dataArray) NaN = height dataArray i.
Proof.
  intros Hi. unfold bars.
  rewrite (nth_indep _ NaN (height dataArray 0))
    by now rewrite length_map, length_seq.
  rewrite map_nth, seq_nth by exact Hi. reflexivity.
Qed.

Lemma height_of_byte (d : list Byte.byte) (i : nat) :
  0 < length d -> length d <= 256 -> i < NUM_BARS ->
  exists b, nth_error d (length d * i / NUM_BARS) = Some b
            /\ height (Some d) i = byte_height (Byte.to_N b).
Proof.
  intros H0 H1 Hi.
  pose proof (index_in_bounds (length d) i H0 Hi) as Hk.
  destruct (nth_error d (length d * i / NUM_BARS)) as [b|] eqn:E;
    [|apply nth_error_None in E; lia].
  exists b. split; [reflexivity|].
  unfold height, barHeight, element, dataIndex, byte_height.
  rewrite (index_exact _ _ H1 Hi), E. reflexivity.
Qed.

End VisualizerFacts.

(** X16: the bars of the visualizer.  There are always 32.  For an array
    of 1 to 256 bytes, bar [i] shows the byte at index
    [floor (length * i / 32)], which lies inside the array, so no bar reads
    past the end; its height is that byte's height and lies between 5 and
    100 percent.  Without an array ([null]) every bar is at 5. *)
Theorem bars_in_range (d : list Byte.byte) :
  0 < length d -> length d <= 256 ->
  length (VoiceVisualizer.bars (Some d)) = 32
  /\ (forall i, i < 32 ->
        exists b,
          length d * i / 32 < length d
          /\ nth_error d (length d * i / 32) = Some b
          /\ nth i (VoiceVisualizer.bars (Some d)) NaN
             = VoiceVisualizer.byte_height (Byte.to_N b)
          /\ le (of_int 5) (nth i (VoiceVisualizer.bars (Some d)) NaN) = true
          /\ le (nth i (VoiceVisualizer.bars (Some d)) NaN) hundred = true)
  /\ VoiceVisualizer.bars None = repeat (of_int 5) 32.
Proof.
  intros H0 H1. split; [|split].
  - unfold VoiceVisualizer.bars. now rewrite length_map, length_seq.
  - intros i Hi.
    destruct (VisualizerFacts.height_of_byte d i H0 H1 Hi) as (b & Hb & Hh).
    exists b. rewrite (VisualizerFacts.bars_nth (Some d) i Hi), Hh.
    destruct (VisualizerFacts.byte_heights b) as (B1 & B2 & _).
    repeat split; try assumption.
    exact (VisualizerFacts.index_in_bounds (length d) i H0 Hi).
  - vm_compute. reflexivity.
Qed.

Lemma bars_in_range_witness :
  length (VoiceVisualizer.bars (Some (repeat Byte.x80 128))) = 32.
Proof.
  refine (proj1 (bars_in_range (repeat Byte.x80 128) _ _));
    rewrite repeat_length; lia.
Defined.

(** X17: the height a byte gives.  [byte / 255 * 100] is raised to the
    minimum of 5 percent: every byte up to 12 gives exactly 5, every byte
    above 12 gives its own value, which is more than 5, and no byte gives
    more than 100; the byte 255 gives exactly 100. *)
Theorem bar_height_floor (b : Byte.byte) :
  ((Byte.to_N b <=? 12)%N = true ->
   VoiceVisualizer.byte_height (Byte.to_N b) = of_int 5)
  /\ ((Byte.to_N b <=? 12)%N = false ->
      lt (of_int 5) (VoiceVisualizer.byte_height (Byte.to_N b)) = true
      /\ VoiceVisualizer.byte_height (Byte.to_N b)
         = SFmul prec emax
             (SFdiv prec emax (of_int (Z.of_N (Byte.to_N b))) (of_int 255))
             (of_int 100))
  /\ le (VoiceVisualizer.byte_height (Byte.to_N b)) hundred = true
  /\ VoiceVisualizer.byte_height 255 = hundred.
Proof.
  destruct (VisualizerFacts.byte_heights b) as (_ & B2 & B3 & B4).
  repeat split; try assumption; try (now apply B4).
Qed.

Lemma bar_height_floor_witness :
  VoiceVisualizer.byte_height (Byte.to_N Byte.x0c) = of_int 5
  /\ lt (of_int 5) (VoiceVisualizer.byte_height (Byte.to_N Byte.x0d)) = true.
Proof.
  split.
  - apply (proj1 (bar_height_floor Byte.x0c)). reflexivity.
  - apply (proj1 (proj2 (bar_height_floor Byte.x0d))). reflexivity.
Defined.
